(** * USB descriptor handling (libusb/descriptor.c)

    A shallow embedding of the descriptor decoder of libusb: the field
    codec [usbi_parse_descriptor], the three nested decoders
    [parse_endpoint], [parse_interface] and [parse_configuration], the
    retrieval entry points and the ASCII reduction of string descriptors.

    Conventions of the embedding.
    - A byte is a [Byte.byte]; [u8] is its value as a C [unsigned char]
      promoted to [int].
    - A C pointer into a byte buffer is a pair of the memory the buffer
      starts ([list byte]) and an offset ([Z]).  The decoders never receive
      the size of the allocation, only lengths declared by the data, and
      they do read past the bytes they were promised; a read past the end
      of the list yields [x00], so a statement quantified over every list
      covers every content of the memory that follows the buffer.
    - C [int] values are [Z]; every quantity of the decoders is bounded by
      [wTotalLength <= 65535] plus a few hundred, far from wrap-around.
    - [malloc] and [realloc] may fail: an oracle in the [world] says which
      calls do, and the successful requests are recorded.
    - The release routines ([clear_endpoint], [clear_interface],
      [clear_configuration], [libusb_free_config_descriptor]) only free
      memory; they change no field of the tree.  On a failure the decoders
      below return the structure as it stands when the release routine is
      entered; the release routines are embedded apart, as the blocks
      they hand to [free]. *)

From Stdlib Require Import String Ascii.
From Stdlib Require Import ZArith List Lia Bool.
From Stdlib Require Import Init.Byte Strings.Byte.
From Stdlib Require Import Sorting.Permutation Sorting.Sorted.
Import ListNotations.
Open Scope Z_scope.

(** ** Bytes and memory *)

Definition u8 (b : byte) : Z := Z.of_N (Byte.to_N b).

(** Conversion of an [int] to [unsigned char]. *)
Definition to_u8 (z : Z) : byte :=
  match Byte.of_N (Z.to_N (z mod 256)) with
  | Some b => b
  | None => x00
  end.

(** [rd mem p] is [mem[p]]. *)
Definition rd (mem : list byte) (p : Z) : byte := nth (Z.to_nat p) mem x00.

(** [memcpy mem begin len] is the block of [len] bytes starting at
    [mem + begin], as [memcpy(dst, mem + begin, len)] stores it. *)
Definition memcpy (mem : list byte) (begin len : Z) : list byte :=
  map (fun i => rd mem (begin + Z.of_nat i)) (seq 0 (Z.to_nat len)).

(** ** Constants *)

Definition DESC_HEADER_LENGTH : Z := 2.
Definition DEVICE_DESC_LENGTH : Z := 18.
Definition CONFIG_DESC_LENGTH : Z := 9.
Definition INTERFACE_DESC_LENGTH : Z := 9.
Definition ENDPOINT_DESC_LENGTH : Z := 7.
Definition ENDPOINT_AUDIO_DESC_LENGTH : Z := 9.

(** Modelled from the spec: the descriptor type codes of libusb.h, which
    is not among the sources ("device=1, config=2, string=3, interface=4,
    endpoint=5"). *)
Definition LIBUSB_DT_DEVICE : Z := 1.
Definition LIBUSB_DT_CONFIG : Z := 2.
Definition LIBUSB_DT_STRING : Z := 3.
Definition LIBUSB_DT_INTERFACE : Z := 4.
Definition LIBUSB_DT_ENDPOINT : Z := 5.

(** Modelled from the spec: [LIBUSB_DT_INTERFACE_SIZE] of libusb.h, "the
    fixed interface-header size" (9). *)
Definition LIBUSB_DT_INTERFACE_SIZE : Z := 9.

(** ** The field codec *)

(** What one format character stores at the destination: a byte (['b']),
    a 16- or 32-bit value converted from little endian (['w'], ['d']), or
    two or four bytes copied in memory order (['W'], ['D']). *)
Inductive field : Type :=
| F8 (b : byte)
| F16 (w : Z)
| F32 (d : Z)
| R16 (b0 b1 : byte)
| R32 (b0 b1 b2 b3 : byte).

(** The loop of [usbi_parse_descriptor]: [sp] is the source cursor and
    [dp] the destination cursor, an address: the alignment steps
    [dp += ((unsigned long)dp & 1)] and [dp += ((unsigned long)dp & 2)]
    look at the address itself.  Each store is recorded with the address
    it lands on.  A character that is none of the five is skipped (the
    [switch] has no default). *)
Fixpoint parse_fields (mem : list byte) (descriptor : string) (sp dp : Z)
  : list (Z * field) * Z :=
  match descriptor with
  | EmptyString => ([], sp)
  | String c cp =>
      if Ascii.eqb c "b" then
        let (fs, e) := parse_fields mem cp (sp + 1) (dp + 1) in
        ((dp, F8 (rd mem sp)) :: fs, e)
      else if Ascii.eqb c "w" then
        let w := Z.lor (Z.shiftl (u8 (rd mem (sp + 1))) 8) (u8 (rd mem sp)) in
        let dp := dp + Z.land dp 1 in
        let (fs, e) := parse_fields mem cp (sp + 2) (dp + 2) in
        ((dp, F16 w) :: fs, e)
      else if Ascii.eqb c "d" then
        let d := Z.lor (Z.lor (Z.lor (Z.shiftl (u8 (rd mem (sp + 3))) 24)
                                     (Z.shiftl (u8 (rd mem (sp + 2))) 16))
                              (Z.shiftl (u8 (rd mem (sp + 1))) 8))
                       (u8 (rd mem sp)) in
        let dp := dp + Z.land dp 2 in
        let (fs, e) := parse_fields mem cp (sp + 4) (dp + 4) in
        ((dp, F32 d) :: fs, e)
      else if Ascii.eqb c "W" then
        let dp := dp + Z.land dp 1 in
        let (fs, e) := parse_fields mem cp (sp + 2) (dp + 2) in
        ((dp, R16 (rd mem sp) (rd mem (sp + 1))) :: fs, e)
      else if Ascii.eqb c "D" then
        let dp := dp + Z.land dp 2 in
        let (fs, e) := parse_fields mem cp (sp + 4) (dp + 4) in
        ((dp, R32 (rd mem sp) (rd mem (sp + 1)) (rd mem (sp + 2))
                  (rd mem (sp + 3))) :: fs, e)
      else parse_fields mem cp sp dp
  end.

(** [usbi_parse_descriptor mem source descriptor]: the stores made into
    [dest] and the returned [sp - source].  The stores are recorded by
    their offset from [dest]: the cursor starts at 0, which stands for a
    [dest] aligned as the format asks, at an even address when the
    format has a 16-bit field and at a multiple of 4 when it has a
    32-bit one (for such an address the stores are these, moved by the
    address).  The file passes structures with a [uint16_t] member where
    the format has a 16-bit field, and no format with a 32-bit one. *)
Definition usbi_parse_descriptor (mem : list byte) (source : Z)
    (descriptor : string) : list (Z * field) * Z :=
  let (fs, e) := parse_fields mem descriptor source 0 in (fs, e - source).

(** Re-encoding of the stored fields to wire format: little endian for
    the converted values, memory order for the copied ones. *)
Definition encode_field (f : field) : list byte :=
  match f with
  | F8 b => [b]
  | F16 w => [to_u8 w; to_u8 (Z.shiftr w 8)]
  | F32 d => [to_u8 d; to_u8 (Z.shiftr d 8); to_u8 (Z.shiftr d 16);
              to_u8 (Z.shiftr d 24)]
  | R16 b0 b1 => [b0; b1]
  | R32 b0 b1 b2 b3 => [b0; b1; b2; b3]
  end.

Definition encode_fields (fs : list (Z * field)) : list byte :=
  flat_map (fun s => encode_field (snd s)) fs.

(** Access to the stores by destination offset: the value a structure
    member of type [uint8_t] or [uint16_t] at offset [off] holds after the
    call, [old] when the call did not store there. *)
Fixpoint stored (fs : list (Z * field)) (off : Z) : option field :=
  match fs with
  | [] => None
  | (o, f) :: fs => if o =? off then Some f else stored fs off
  end.

Definition st8 (fs : list (Z * field)) (off : Z) (old : Z) : Z :=
  match stored fs off with Some (F8 b) => u8 b | _ => old end.

Definition st16 (fs : list (Z * field)) (off : Z) (old : Z) : Z :=
  match stored fs off with Some (F16 w) => w | _ => old end.

Definition raw16 (fs : list (Z * field)) (off : Z) (old : byte * byte)
  : byte * byte :=
  match stored fs off with Some (R16 b0 b1) => (b0, b1) | _ => old end.

(** ** The descriptor tree *)

(** [struct usb_descriptor_header] (libusbi.h): two [uint8_t]. *)
Record usb_descriptor_header : Type := {
  h_bLength : Z;
  h_bDescriptorType : Z
}.

(** A blob pointer: [None] is [NULL], [Some l] a block holding [l]. *)
Definition blob : Type := option (list byte).

(** Modelled from the spec: the members of the libusb.h structures, which
    are not among the sources; the 16-bit members sit at even offsets, all
    others are [uint8_t], in the order of the USB 2.0 descriptor tables. *)
Module EP.
Record t : Type := {
  bLength : Z;
  bDescriptorType : Z;
  bEndpointAddress : Z;
  bmAttributes : Z;
  wMaxPacketSize : Z;
  bInterval : Z;
  bRefresh : Z;
  bSynchAddress : Z;
  extra : blob;
  extra_length : Z
}.
(** An endpoint slot after [memset(endpoint, 0, tmp)]. *)
Definition zero : t := Build_t 0 0 0 0 0 0 0 0 None 0.
Definition set_extra (x : blob) (n : Z) (e : t) : t :=
  Build_t (bLength e) (bDescriptorType e) (bEndpointAddress e)
          (bmAttributes e) (wMaxPacketSize e) (bInterval e) (bRefresh e)
          (bSynchAddress e) x n.
(** The stores of a codec call with [dest = endpoint]. *)
Definition store (fs : list (Z * field)) (e : t) : t :=
  Build_t (st8 fs 0 (bLength e)) (st8 fs 1 (bDescriptorType e))
          (st8 fs 2 (bEndpointAddress e)) (st8 fs 3 (bmAttributes e))
          (st16 fs 4 (wMaxPacketSize e)) (st8 fs 6 (bInterval e))
          (st8 fs 7 (bRefresh e)) (st8 fs 8 (bSynchAddress e))
          (extra e) (extra_length e).
End EP.

Module ALT.
Record t : Type := {
  bLength : Z;
  bDescriptorType : Z;
  bInterfaceNumber : Z;
  bAlternateSetting : Z;
  bNumEndpoints : Z;
  bInterfaceClass : Z;
  bInterfaceSubClass : Z;
  bInterfaceProtocol : Z;
  iInterface : Z;
  endpoint : option (list EP.t);
  extra : blob;
  extra_length : Z
}.
(** A slot of the [altsetting] array right after [realloc]; its nine
    header members are all overwritten by the decoder. *)
Definition fresh : t := Build_t 0 0 0 0 0 0 0 0 0 None None 0.
Definition set_extra (x : blob) (n : Z) (a : t) : t :=
  Build_t (bLength a) (bDescriptorType a) (bInterfaceNumber a)
          (bAlternateSetting a) (bNumEndpoints a) (bInterfaceClass a)
          (bInterfaceSubClass a) (bInterfaceProtocol a) (iInterface a)
          (endpoint a) x n.
Definition set_endpoint (eps : option (list EP.t)) (a : t) : t :=
  Build_t (bLength a) (bDescriptorType a) (bInterfaceNumber a)
          (bAlternateSetting a) (bNumEndpoints a) (bInterfaceClass a)
          (bInterfaceSubClass a) (bInterfaceProtocol a) (iInterface a)
          eps (extra a) (extra_length a).
Definition store (fs : list (Z * field)) (a : t) : t :=
  Build_t (st8 fs 0 (bLength a)) (st8 fs 1 (bDescriptorType a))
          (st8 fs 2 (bInterfaceNumber a)) (st8 fs 3 (bAlternateSetting a))
          (st8 fs 4 (bNumEndpoints a)) (st8 fs 5 (bInterfaceClass a))
          (st8 fs 6 (bInterfaceSubClass a)) (st8 fs 7 (bInterfaceProtocol a))
          (st8 fs 8 (iInterface a))
          (endpoint a) (extra a) (extra_length a).
End ALT.

(** [struct libusb_interface]: the [altsetting] array with its
    [num_altsetting] entries, [NULL] when there is none. *)
Module IFACE.
Record t : Type := {
  altsetting : list ALT.t
}.
Definition num_altsetting (i : t) : Z := Z.of_nat (length (altsetting i)).
(** An interface slot after [memset(interface, 0, tmp)]. *)
Definition zero : t := Build_t [].
End IFACE.

Module CFG.
Record t : Type := {
  bLength : Z;
  bDescriptorType : Z;
  wTotalLength : Z;
  bNumInterfaces : Z;
  bConfigurationValue : Z;
  iConfiguration : Z;
  bmAttributes : Z;
  MaxPower : Z;
  interface : option (list IFACE.t);
  extra : blob;
  extra_length : Z
}.
Definition set_interface (i : option (list IFACE.t)) (c : t) : t :=
  Build_t (bLength c) (bDescriptorType c) (wTotalLength c)
          (bNumInterfaces c) (bConfigurationValue c) (iConfiguration c)
          (bmAttributes c) (MaxPower c) i (extra c) (extra_length c).
Definition set_extra (x : blob) (n : Z) (c : t) : t :=
  Build_t (bLength c) (bDescriptorType c) (wTotalLength c)
          (bNumInterfaces c) (bConfigurationValue c) (iConfiguration c)
          (bmAttributes c) (MaxPower c) (interface c) x n.
Definition store (fs : list (Z * field)) (c : t) : t :=
  Build_t (st8 fs 0 (bLength c)) (st8 fs 1 (bDescriptorType c))
          (st16 fs 2 (wTotalLength c)) (st8 fs 4 (bNumInterfaces c))
          (st8 fs 5 (bConfigurationValue c)) (st8 fs 6 (iConfiguration c))
          (st8 fs 7 (bmAttributes c)) (st8 fs 8 (MaxPower c))
          (interface c) (extra c) (extra_length c).
End CFG.

(** [struct libusb_device_descriptor]; the 16-bit members are filled by
    ['W'] and hold the two wire bytes in memory order. *)
Module DEV.
Record t : Type := {
  bLength : Z;
  bDescriptorType : Z;
  bcdUSB : byte * byte;
  bDeviceClass : Z;
  bDeviceSubClass : Z;
  bDeviceProtocol : Z;
  bMaxPacketSize0 : Z;
  idVendor : byte * byte;
  idProduct : byte * byte;
  bcdDevice : byte * byte;
  iManufacturer : Z;
  iProduct : Z;
  iSerialNumber : Z;
  bNumConfigurations : Z
}.
Definition store (fs : list (Z * field)) (d : t) : t :=
  Build_t (st8 fs 0 (bLength d)) (st8 fs 1 (bDescriptorType d))
          (raw16 fs 2 (bcdUSB d)) (st8 fs 4 (bDeviceClass d))
          (st8 fs 5 (bDeviceSubClass d)) (st8 fs 6 (bDeviceProtocol d))
          (st8 fs 7 (bMaxPacketSize0 d)) (raw16 fs 8 (idVendor d))
          (raw16 fs 10 (idProduct d)) (raw16 fs 12 (bcdDevice d))
          (st8 fs 14 (iManufacturer d)) (st8 fs 15 (iProduct d))
          (st8 fs 16 (iSerialNumber d)) (st8 fs 17 (bNumConfigurations d)).
(** The wire image of the structure. *)
Definition wire (d : t) : list byte :=
  [to_u8 (bLength d); to_u8 (bDescriptorType d);
   fst (bcdUSB d); snd (bcdUSB d);
   to_u8 (bDeviceClass d); to_u8 (bDeviceSubClass d);
   to_u8 (bDeviceProtocol d); to_u8 (bMaxPacketSize0 d);
   fst (idVendor d); snd (idVendor d);
   fst (idProduct d); snd (idProduct d);
   fst (bcdDevice d); snd (bcdDevice d);
   to_u8 (iManufacturer d); to_u8 (iProduct d);
   to_u8 (iSerialNumber d); to_u8 (bNumConfigurations d)].
End DEV.

(** ** Allocation and the record of what the decoders do *)

(** The allocation requests of the file. *)
Inductive alloc : Type :=
| AConfig                (* malloc(sizeof( *config)) *)
| ABuffer (n : Z)        (* malloc(config->wTotalLength) *)
| AInterfaces (n : Z)    (* malloc(bNumInterfaces * sizeof(struct libusb_interface)) *)
| AAltsetting (n : Z)    (* realloc(altsetting, sizeof(...) * n) *)
| AEndpoints (n : Z)     (* malloc(bNumEndpoints * sizeof(struct libusb_endpoint_descriptor)) *)
| AExtra (len : Z).      (* malloc(len) for an extra blob *)

(** The place of a descriptor in the stream. *)
Inductive level : Type :=
| LConfig | LInterface | LEndpoint
| LConfigExtra | LInterfaceExtra | LEndpointExtra.

(** A descriptor the decoders settle: its declared length, the count of
    bytes remaining (the decoder's [size]) when it is met, and whether the
    cursor was advanced over it ([true]) or the decoder gave up because
    of its length ([false]). *)
Record met : Type := {
  m_level : level;
  m_bLength : Z;
  m_remaining : Z;
  m_taken : bool
}.

(** The world the decoders run in.  [oracle] tells, call after call,
    whether [malloc]/[realloc] succeeds (every call does once the list is
    used up); the other members are records kept for the statements:
    the requests that succeeded, the descriptors settled, and the runs of
    class or vendor descriptors the configuration decoder stepped over,
    one per interface slot, all in the order of execution. *)
Record world : Type := {
  oracle : list bool;
  allocs : list alloc;
  seen : list met;
  runs : list (list byte)
}.

Definition world0 : world := Build_world [] [] [] [].

Definition malloc (a : alloc) (w : world) : bool * world :=
  match oracle w with
  | false :: o => (false, Build_world o (allocs w) (seen w) (runs w))
  | true :: o => (true, Build_world o (allocs w ++ [a]) (seen w) (runs w))
  | [] => (true, Build_world [] (allocs w ++ [a]) (seen w) (runs w))
  end.

Definition see (l : level) (len size : Z) (taken : bool) (w : world) : world :=
  Build_world (oracle w) (allocs w) (seen w ++ [Build_met l len size taken])
              (runs w).

Definition note_run (r : list byte) (w : world) : world :=
  Build_world (oracle w) (allocs w) (seen w) (runs w ++ [r]).

(** [usbi_parse_descriptor(buffer, "bb", &header)]. *)
Definition read_header (mem : list byte) (buffer : Z) : usb_descriptor_header :=
  let fs := fst (usbi_parse_descriptor mem buffer "bb") in
  Build_usb_descriptor_header (st8 fs 0 0) (st8 fs 1 0).

(** The test that ends a scan over class or vendor descriptors: "another
    proper descriptor". *)
Definition proper (t : Z) : bool :=
  (t =? LIBUSB_DT_ENDPOINT) || (t =? LIBUSB_DT_INTERFACE) ||
  (t =? LIBUSB_DT_CONFIG) || (t =? LIBUSB_DT_DEVICE).

(** ** The decoders *)

(** How a scan over class or vendor descriptors ends: the loop is left
    with the cursor, the remaining size and the count of parsed bytes, or
    a declared length is refused. *)
Inductive scan : Type :=
| ScanStop (buffer size parsed : Z) (w : world)
| ScanBad (w : world).

(** How one round of the alternate-setting loop ends. *)
Inductive flow : Type :=
| Continue (buffer size parsed : Z)
| Return (r : Z).

(** How one round of the interface loop of the configuration ends. *)
Inductive slot_end : Type :=
| SlotDone (buffer size : Z)
| SlotFail (r : Z).

Section Decoders.

(** The limits and error codes of libusbi.h and libusb.h, which are not
    among the sources. *)
Variables USB_MAXINTERFACES USB_MAXENDPOINTS : Z.
Variables LIBUSB_ERROR_IO LIBUSB_ERROR_NO_MEM : Z.

(** The loop "skip over the rest of the class specific or vendor specific
    descriptors", which the three decoders each contain
    ([while (size >= DESC_HEADER_LENGTH)]).  The loops of [parse_endpoint]
    and [parse_interface] refuse a length below 2; the loop of
    [parse_configuration] ([bounded]) also refuses a length above [size].
    Each round of the loop takes at least two bytes, so [Z.to_nat size]
    rounds are enough; [None] is a loop cut short by [fuel]. *)
Fixpoint skip_descriptors (lvl : level) (bounded : bool) (fuel : nat)
    (mem : list byte) (buffer size parsed : Z) (w : world) : option scan :=
  if size <? DESC_HEADER_LENGTH then Some (ScanStop buffer size parsed w)
  else
    match fuel with
    | O => None
    | S fuel =>
        let header := read_header mem buffer in
        if (bounded && (h_bLength header >? size))
           || (h_bLength header <? DESC_HEADER_LENGTH)
        then Some (ScanBad (see lvl (h_bLength header) size false w))
        else if proper (h_bDescriptorType header)
        then Some (ScanStop buffer size parsed w)
        else skip_descriptors lvl bounded fuel mem
               (buffer + h_bLength header) (size - h_bLength header)
               (parsed + h_bLength header)
               (see lvl (h_bLength header) size true w)
    end.

(** [parse_endpoint(endpoint, buffer, size)]: the endpoint structure after
    the call, the returned value and the world. *)
Definition parse_endpoint (endpoint : EP.t) (mem : list byte)
    (buffer size : Z) (w : world) : option (EP.t * Z * world) :=
  let parsed := 0 in
  let header := read_header mem buffer in
  if h_bLength header >? size
  then Some (endpoint, -1, see LEndpoint (h_bLength header) size false w)
  else if negb (h_bDescriptorType header =? LIBUSB_DT_ENDPOINT)
  then Some (endpoint, parsed, w)
  else
    let endpoint :=
      if h_bLength header >=? ENDPOINT_AUDIO_DESC_LENGTH
      then EP.store (fst (usbi_parse_descriptor mem buffer "bbbbwbbb")) endpoint
      else if h_bLength header >=? ENDPOINT_DESC_LENGTH
      then EP.store (fst (usbi_parse_descriptor mem buffer "bbbbwb")) endpoint
      else endpoint in
    let w := see LEndpoint (h_bLength header) size true w in
    let buffer := buffer + h_bLength header in
    let size := size - h_bLength header in
    let parsed := parsed + h_bLength header in
    let begin := buffer in
    match skip_descriptors LEndpointExtra false (Z.to_nat size) mem
            buffer size parsed w with
    | None => None
    | Some (ScanBad w) => Some (endpoint, -1, w)
    | Some (ScanStop buffer size parsed w) =>
        let len := buffer - begin in
        if len =? 0
        then Some (EP.set_extra None 0 endpoint, parsed, w)
        else
          let (ok, w) := malloc (AExtra len) w in
          if ok
          then Some (EP.set_extra (Some (memcpy mem begin len)) len endpoint,
                     parsed, w)
          else Some (EP.set_extra None 0 endpoint, LIBUSB_ERROR_NO_MEM, w)
    end.

(** The loop [for (i = 0; i < ifp->bNumEndpoints; i++)] of
    [parse_interface], with [n] rounds to go: the endpoint slots from [i]
    on (those not reached stay zeroed), and either the value [r] the
    function fails with or the cursor after the last endpoint. *)
Fixpoint parse_endpoints (n : nat) (mem : list byte) (buffer size parsed : Z)
    (w : world) : option (list EP.t * flow * world) :=
  match n with
  | O => Some ([], Continue buffer size parsed, w)
  | S n =>
      let header := read_header mem buffer in
      if h_bLength header >? size
      then Some (repeat EP.zero (S n), Return LIBUSB_ERROR_IO,
                 see LEndpoint (h_bLength header) size false w)
      else
        match parse_endpoint EP.zero mem buffer size w with
        | None => None
        | Some (ep, r, w) =>
            if r <? 0 then Some (ep :: repeat EP.zero n, Return r, w)
            else
              match parse_endpoints n mem (buffer + r) (size - r)
                      (parsed + r) w with
              | None => None
              | Some (eps, f, w) => Some (ep :: eps, f, w)
              end
        end
  end.

(** The test "is it an alternate to this one" that ends a round of the
    alternate-setting loop; [ifp] is the buffer read as an interface
    descriptor, whose members 1 and 3 are the type and the alternate
    setting. *)
Definition next_alternate (mem : list byte) (buffer size parsed : Z) : flow :=
  if (size <? LIBUSB_DT_INTERFACE_SIZE)
     || negb (u8 (rd mem (buffer + 1)) =? LIBUSB_DT_INTERFACE)
     || (u8 (rd mem (buffer + 3)) =? 0)
  then Return parsed
  else Continue buffer size parsed.

(** The new slot [ifp] of the [altsetting] array once the interface
    header is decoded into it and its [extra], [extra_length] and
    [endpoint] are cleared. *)
Definition new_altsetting (mem : list byte) (buffer : Z) : ALT.t :=
  ALT.set_endpoint None
    (ALT.set_extra None 0
       (ALT.store (fst (usbi_parse_descriptor mem buffer "bbbbbbbbb"))
          ALT.fresh)).

(** The second half of a round of the alternate-setting loop, from "did
    we hit an unexpected descriptor" on: [ifp] is the slot being filled,
    [alts] the slots before it. *)
Definition finish_altsetting (alts : list ALT.t) (ifp : ALT.t)
    (mem : list byte) (buffer size parsed : Z) (w : world)
  : option (list ALT.t * flow * world) :=
  let header := read_header mem buffer in
  if (size >=? DESC_HEADER_LENGTH)
     && ((h_bDescriptorType header =? LIBUSB_DT_CONFIG)
         || (h_bDescriptorType header =? LIBUSB_DT_DEVICE))
  then Some (alts ++ [ifp], Return parsed, w)
  else if ALT.bNumEndpoints ifp >? USB_MAXENDPOINTS
  then Some (alts ++ [ifp], Return LIBUSB_ERROR_IO, w)
  else if ALT.bNumEndpoints ifp >? 0
  then
    let (ok, w) := malloc (AEndpoints (ALT.bNumEndpoints ifp)) w in
    if negb ok then Some (alts ++ [ifp], Return LIBUSB_ERROR_NO_MEM, w)
    else
      match parse_endpoints (Z.to_nat (ALT.bNumEndpoints ifp)) mem
              buffer size parsed w with
      | None => None
      | Some (eps, Return r, w) =>
          Some (alts ++ [ALT.set_endpoint (Some eps) ifp], Return r, w)
      | Some (eps, Continue buffer size parsed, w) =>
          Some (alts ++ [ALT.set_endpoint (Some eps) ifp],
                next_alternate mem buffer size parsed, w)
      end
  else Some (alts ++ [ifp], next_alternate mem buffer size parsed, w).

(** One round of [while (size >= INTERFACE_DESC_LENGTH)] in
    [parse_interface]: the [altsetting] array after the round, how the
    round ends, and the world. *)
Definition parse_altsetting (alts : list ALT.t) (mem : list byte)
    (buffer size parsed : Z) (w : world) : option (list ALT.t * flow * world) :=
  let (ok, w) := malloc (AAltsetting (Z.of_nat (length alts) + 1)) w in
  if negb ok then Some (alts, Return LIBUSB_ERROR_NO_MEM, w)
  else
    let ifp := new_altsetting mem buffer in
    let w := see LInterface (ALT.bLength ifp) size true w in
    let buffer := buffer + ALT.bLength ifp in
    let parsed := parsed + ALT.bLength ifp in
    let size := size - ALT.bLength ifp in
    let begin := buffer in
    match skip_descriptors LInterfaceExtra false (Z.to_nat size) mem
            buffer size parsed w with
    | None => None
    | Some (ScanBad w) => Some (alts ++ [ifp], Return LIBUSB_ERROR_IO, w)
    | Some (ScanStop buffer size parsed w) =>
        let len := buffer - begin in
        if len =? 0
        then finish_altsetting alts ifp mem buffer size parsed w
        else
          let (ok, w) := malloc (AExtra len) w in
          if negb ok then Some (alts ++ [ifp], Return LIBUSB_ERROR_NO_MEM, w)
          else
            finish_altsetting alts
              (ALT.set_extra (Some (memcpy mem begin len)) len ifp)
              mem buffer size parsed w
    end.

(** The loop [while (size >= INTERFACE_DESC_LENGTH)] of [parse_interface],
    up to [return parsed] or the label [err]: the [altsetting] array as
    the loop leaves it and the value that is returned.  The label [err]
    then hands the interface to [clear_interface], which writes no member
    of it; what that call hands to [free] is [clear_interface] below. *)
Fixpoint parse_altsettings (fuel : nat) (alts : list ALT.t) (mem : list byte)
    (buffer size parsed : Z) (w : world) : option (IFACE.t * Z * world) :=
  if size <? INTERFACE_DESC_LENGTH
  then Some (IFACE.Build_t alts, parsed, w)
  else
    match fuel with
    | O => None
    | S fuel =>
        match parse_altsetting alts mem buffer size parsed w with
        | None => None
        | Some (alts, Return r, w) => Some (IFACE.Build_t alts, r, w)
        | Some (alts, Continue buffer size parsed, w) =>
            parse_altsettings fuel alts mem buffer size parsed w
        end
    end.

(** [parse_interface(interface, buffer, size)] on an interface slot that
    is zeroed, as [parse_configuration] passes it.  A round that goes on
    has taken at least one byte, so [Z.to_nat size] rounds are enough.
    On a negative value the interface structure is the one the label
    [err] is reached with. *)
Definition parse_interface (mem : list byte) (buffer size : Z) (w : world)
  : option (IFACE.t * Z * world) :=
  parse_altsettings (Z.to_nat size) [] mem buffer size 0 w.

(** One round of [for (i = 0; i < config->bNumInterfaces; i++)] in
    [parse_configuration]: the interface slot [i] after the round, the
    extra blob of the configuration, how the round ends, and the world. *)
Definition parse_interface_slot (mem : list byte) (buffer size : Z)
    (extra : blob) (extra_length : Z) (w : world)
  : option (IFACE.t * blob * Z * slot_end * world) :=
  let begin := buffer in
  match skip_descriptors LConfigExtra true (Z.to_nat size) mem
          buffer size 0 w with
  | None => None
  | Some (ScanBad w) =>
      Some (IFACE.zero, extra, extra_length, SlotFail LIBUSB_ERROR_IO, w)
  | Some (ScanStop buffer size _ w) =>
      let len := buffer - begin in
      let w := note_run (memcpy mem begin len) w in
      let '(ok, extra, extra_length, w) :=
        if negb (len =? 0) && (extra_length =? 0)
        then
          let (ok, w) := malloc (AExtra len) w in
          if ok then (true, Some (memcpy mem begin len), len, w)
          else (false, None, extra_length, w)
        else (true, extra, extra_length, w) in
      if negb ok
      then Some (IFACE.zero, extra, extra_length,
                 SlotFail LIBUSB_ERROR_NO_MEM, w)
      else
        match parse_interface mem buffer size w with
        | None => None
        | Some (i, r, w) =>
            if r <? 0 then Some (i, extra, extra_length, SlotFail r, w)
            else Some (i, extra, extra_length,
                       SlotDone (buffer + r) (size - r), w)
        end
  end.

(** The loop [for (i = 0; i < config->bNumInterfaces; i++)] with [n]
    rounds to go: the interface slots from [i] on (those not reached stay
    zeroed), the extra blob of the configuration and the returned value,
    which is [size] when the loop runs to its end. *)
Fixpoint parse_interfaces (n : nat) (mem : list byte) (buffer size : Z)
    (extra : blob) (extra_length : Z) (w : world)
  : option (list IFACE.t * blob * Z * Z * world) :=
  match n with
  | O => Some ([], extra, extra_length, size, w)
  | S n =>
      match parse_interface_slot mem buffer size extra extra_length w with
      | None => None
      | Some (i, extra, extra_length, SlotFail r, w) =>
          Some (i :: repeat IFACE.zero n, extra, extra_length, r, w)
      | Some (i, extra, extra_length, SlotDone buffer size, w) =>
          match parse_interfaces n mem buffer size extra extra_length w with
          | None => None
          | Some (ifs, extra, extra_length, r, w) =>
              Some (i :: ifs, extra, extra_length, r, w)
          end
      end
  end.

(** [parse_configuration(config, buffer)], the buffer being [mem] from its
    first byte: the configuration structure, the returned value and the
    world.  On a failure raised past the allocation of the interface
    array the structure is the tree with which the label [err] is
    reached, and the value the [r] set there: the label only hands the
    tree to [clear_configuration], which writes no member of it.  The
    blocks the release routines hand to [free] are not part of the world;
    they are [clear_interface] and [clear_configuration] below.  When the
    failure comes from [parse_interface] with an [altsetting] array in
    place, that array has been through [clear_interface] once already
    when [clear_configuration] walks it, and the C program has no defined
    behaviour from there on: for such a call the value is the one the
    label is reached with, not one the caller is sure to see. *)
Definition parse_configuration (config : CFG.t) (mem : list byte) (w : world)
  : option (CFG.t * Z * world) :=
  let buffer := 0 in
  let config :=
    CFG.store (fst (usbi_parse_descriptor mem buffer "bbwbbbbb")) config in
  let size := CFG.wTotalLength config in
  if CFG.bNumInterfaces config >? USB_MAXINTERFACES
  then Some (config, LIBUSB_ERROR_IO, w)
  else
    let (ok, w) := malloc (AInterfaces (CFG.bNumInterfaces config)) w in
    if negb ok
    then Some (CFG.set_interface None config, LIBUSB_ERROR_NO_MEM, w)
    else
      let w := see LConfig (CFG.bLength config) size true w in
      let buffer := buffer + CFG.bLength config in
      let size := size - CFG.bLength config in
      match parse_interfaces (Z.to_nat (CFG.bNumInterfaces config)) mem
              buffer size None 0 w with
      | None => None
      | Some (ifs, extra, extra_length, r, w) =>
          Some (CFG.set_extra extra extra_length
                  (CFG.set_interface (Some ifs) config), r, w)
      end.

(** ** The retrieval entry points *)

(** [struct libusb_device] (libusbi.h): the member this file reads. *)
Record libusb_device : Type := {
  num_configurations : Z
}.

(** The operations of [usbi_backend] this file calls: each returns its
    result [r] and the content of the buffer it was given, from the
    buffer's first byte, after the call.  [get_config_descriptor] takes the
    configuration index and both it and [get_active_config_descriptor]
    take the length asked for. *)
Variable backend_get_device_descriptor : libusb_device -> Z * list byte.
Variable backend_get_active_config_descriptor :
  libusb_device -> Z -> Z * list byte.
Variable backend_get_config_descriptor :
  libusb_device -> Z -> Z -> Z * list byte.

(** The content of the block [malloc(sizeof( *config))] returns. *)
Variable fresh_config : CFG.t.

(** [libusb_get_device_descriptor(dev, desc)]: the returned value and
    [*desc] after the call. *)
Definition libusb_get_device_descriptor (dev : libusb_device) (desc : DEV.t)
  : Z * DEV.t :=
  let (r, raw_desc) := backend_get_device_descriptor dev in
  if r <? 0 then (r, desc)
  else
    (0, DEV.store (fst (usbi_parse_descriptor raw_desc 0 "bbWbbbbWWWbbbb"))
          desc).

(** What both configuration entry points do once the 8-byte prefix [tmp]
    is fetched into the fresh structure: [fetch len] is the second
    backend call.  [None] in the result is the [NULL] of the [err:]
    label. *)
Definition fetch_and_parse (fetch : Z -> Z * list byte) (tmp : list byte)
    (w : world) : option (option CFG.t * world) :=
  let config :=
    CFG.store (fst (usbi_parse_descriptor tmp 0 "bbw")) fresh_config in
  let (ok, w) := malloc (ABuffer (CFG.wTotalLength config)) w in
  if negb ok then Some (None, w)
  else
    let (r, buf) := fetch (CFG.wTotalLength config) in
    if r <? 0 then Some (None, w)
    else
      match parse_configuration config buf w with
      | None => None
      | Some (config, r, w) =>
          if r <? 0 then Some (None, w)
          else (* r > 0: "descriptor data still left", a warning *)
            Some (Some config, w)
      end.

Definition libusb_get_active_config_descriptor (dev : libusb_device)
    (w : world) : option (option CFG.t * world) :=
  let (ok, w) := malloc AConfig w in
  if negb ok then Some (None, w)
  else
    let (r, tmp) := backend_get_active_config_descriptor dev 8 in
    if r <? 0 then Some (None, w)
    else fetch_and_parse (backend_get_active_config_descriptor dev) tmp w.

(** [config_index] is a [uint8_t]. *)
Definition libusb_get_config_descriptor (dev : libusb_device)
    (config_index : Z) (w : world) : option (option CFG.t * world) :=
  if config_index >=? num_configurations dev then Some (None, w)
  else
    let (ok, w) := malloc AConfig w in
    if negb ok then Some (None, w)
    else
      let (r, tmp) := backend_get_config_descriptor dev config_index 8 in
      if r <? 0 then Some (None, w)
      else
        fetch_and_parse (backend_get_config_descriptor dev config_index) tmp w.

(** The loop of [libusb_get_config_descriptor_by_value] with [n] rounds to
    go: [None] when a probe fails ([return NULL]), else [found] and [i]
    as the loop leaves them. *)
Fixpoint probe_configurations (n : nat) (dev : libusb_device)
    (bConfigurationValue : Z) (i found : Z) : option (Z * Z) :=
  match n with
  | O => Some (i, found)
  | S n =>
      let (r, tmp) := backend_get_config_descriptor dev i 6 in
      if r <? 0 then None
      else if u8 (rd tmp 5) =? bConfigurationValue then Some (i, 1)
      else probe_configurations n dev bConfigurationValue (i + 1) found
  end.

(** [libusb_get_config_descriptor_by_value(dev, bConfigurationValue)];
    [i], an [int], is converted to the [uint8_t] index of
    [libusb_get_config_descriptor]. *)
Definition libusb_get_config_descriptor_by_value (dev : libusb_device)
    (bConfigurationValue : Z) (w : world) : option (option CFG.t * world) :=
  match probe_configurations (Z.to_nat (num_configurations dev)) dev
          bConfigurationValue 0 (-1) with
  | None => Some (None, w)
  | Some (i, found) =>
      if found =? 0 then Some (None, w)
      else libusb_get_config_descriptor dev (i mod 256) w
  end.

(** ** String descriptors reduced to ASCII *)

(** [libusb_get_string_descriptor(dev, desc_index, langid, tbuf, 255)],
    which is not in this file: the returned value and the content of
    [tbuf] after the call, given its content before. *)
Variable libusb_device_handle : Type.
Variable libusb_get_string_descriptor :
  libusb_device_handle -> Z -> Z -> list byte -> Z * list byte.

(** The caller's buffer [data] is the memory at [data], byte by byte. *)
Definition store (data : Z -> byte) (i : Z) (v : byte) : Z -> byte :=
  fun j => if j =? i then v else data j.

(** The loop [for (di = 0, si = 2; si < tbuf[0]; si += 2)]; each round
    adds 2 to [si], so [Z.to_nat (tbuf[0] - si)] rounds are enough, and
    [None] is a loop cut short by [fuel]. *)
Fixpoint reduce_to_ascii (fuel : nat) (tbuf : list byte) (length : Z)
    (data : Z -> byte) (di si : Z) : option ((Z -> byte) * Z) :=
  if si <? u8 (rd tbuf 0) then
    match fuel with
    | O => None
    | S fuel =>
        if di >=? length - 1 then Some (data, di)
        else if negb (u8 (rd tbuf (si + 1)) =? 0)
        then reduce_to_ascii fuel tbuf length (store data di "?"%byte)
               (di + 1) (si + 2)
        else reduce_to_ascii fuel tbuf length (store data di (rd tbuf si))
               (di + 1) (si + 2)
    end
  else Some (data, di).

(** [libusb_get_string_descriptor_ascii(dev, desc_index, data, length)],
    with [tbuf] the content of the local buffer at entry: the memory at
    [data] after the call and the returned value. *)
Definition libusb_get_string_descriptor_ascii (dev : libusb_device_handle)
    (desc_index : Z) (tbuf : list byte) (data : Z -> byte) (length : Z)
  : option ((Z -> byte) * Z) :=
  let (r, tbuf) := libusb_get_string_descriptor dev 0 0 tbuf in
  if r <? 0 then Some (data, r)
  else if r <? 4 then Some (data, LIBUSB_ERROR_IO)
  else
    let langid := Z.lor (u8 (rd tbuf 2)) (Z.shiftl (u8 (rd tbuf 3)) 8) in
    let (r, tbuf) := libusb_get_string_descriptor dev desc_index langid tbuf in
    if r <? 0 then Some (data, r)
    else if negb (u8 (rd tbuf 1) =? LIBUSB_DT_STRING)
    then Some (data, LIBUSB_ERROR_IO)
    else if u8 (rd tbuf 0) >? r then Some (data, LIBUSB_ERROR_IO)
    else
      match reduce_to_ascii (Z.to_nat (u8 (rd tbuf 0) - 2)) tbuf length data
              0 2 with
      | None => None
      | Some (data, di) => Some (store data di x00, di)
      end.

(** ** What the statements speak about *)

(** A blob pointer agrees with its recorded length. *)
Definition blob_ok (x : blob) (n : Z) : Prop :=
  match x with
  | None => n = 0
  | Some l => n <> 0 /\ n = Z.of_nat (length l)
  end.

Definition ep_ok (e : EP.t) : Prop := blob_ok (EP.extra e) (EP.extra_length e).

Definition alt_ok (a : ALT.t) : Prop :=
  blob_ok (ALT.extra a) (ALT.extra_length a) /\
  match ALT.endpoint a with
  | None => True
  | Some eps => Forall ep_ok eps
  end.

Definition iface_ok (i : IFACE.t) : Prop := Forall alt_ok (IFACE.altsetting i).

Definition cfg_ok (c : CFG.t) : Prop :=
  blob_ok (CFG.extra c) (CFG.extra_length c) /\
  match CFG.interface c with
  | None => True
  | Some ifs => Forall iface_ok ifs
  end.

(** The bytes of the descriptors the cursor was advanced over. *)
Definition taken_bytes (l : list met) : Z :=
  fold_right (fun e a => (if m_taken e then m_bLength e else 0) + a) 0 l.

(** A position where a scan may stop: fewer than two bytes remain, or a
    proper descriptor of declared length at least 2 comes next. *)
Definition settled (mem : list byte) (buffer size : Z) : Prop :=
  size < DESC_HEADER_LENGTH \/
  (2 <= h_bLength (read_header mem buffer) /\
   proper (h_bDescriptorType (read_header mem buffer)) = true).

(** A descriptor taken in a parse whose count of remaining bytes ends at
    [s] or below: the count went through [m_remaining e - m_bLength e],
    and but for the configuration header the declared length is at least
    2 whenever two bytes remained. *)
Definition taken_ok (s : Z) (e : met) : Prop :=
  m_taken e = true /\
  s <= m_remaining e - m_bLength e /\
  (m_level e = LConfig \/ m_remaining e < 2 \/ 2 <= m_bLength e).

(** The first run that is not empty. *)
Fixpoint first_run (rs : list (list byte)) : blob :=
  match rs with
  | [] => None
  | [] :: rs => first_run rs
  | r :: _ => Some r
  end.

(** The run of class or vendor descriptors at cursor [buffer] with
    [size] bytes remaining, as the specification words it (4.2 step 4 and
    4.4 step 4), its length: descriptors are consumed until one matches
    a top-level type (endpoint, interface, configuration, device) or the
    input runs out, each of a length of at least 2 and within what
    remains.  Where a length is not so, decoding fails and there is no
    run to speak of. *)
Fixpoint spec_run_length (fuel : nat) (mem : list byte) (buffer size : Z)
  : Z :=
  match fuel with
  | O => 0
  | S fuel =>
      let header := read_header mem buffer in
      if size <? DESC_HEADER_LENGTH then 0
      else if proper (h_bDescriptorType header) then 0
      else if (h_bLength header <? 2) || (h_bLength header >? size) then 0
      else h_bLength header
           + spec_run_length fuel mem (buffer + h_bLength header)
               (size - h_bLength header)
  end.

(** The first run of a configuration, as the specification words it (3
    and 4.4 step 4): the class or vendor descriptors found before the
    first interface, from the end of the header within what remains of
    [wTotalLength]; [c] gives the header.  A configuration that declares
    no interface has none. *)
Definition spec_first_run (mem : list byte) (c : CFG.t) : list byte :=
  if CFG.bNumInterfaces c =? 0 then []
  else
    memcpy mem (CFG.bLength c)
      (spec_run_length (Z.to_nat (CFG.wTotalLength c - CFG.bLength c)) mem
         (CFG.bLength c) (CFG.wTotalLength c - CFG.bLength c)).

(** From cursor [buffer] with [size] bytes remaining in world [w] the
    decoder got to cursor [b] with [s] bytes remaining in world [w']: the
    position is settled, and the descriptors recorded in between were all
    taken and add up to the bytes gone. *)
Definition advanced (mem : list byte) (w w' : world) (buffer size b s : Z)
  : Prop :=
  settled mem b s /\ b - buffer = size - s /\ 0 <= size - s /\
  exists evs,
    seen w' = seen w ++ evs /\ Forall (taken_ok s) evs /\
    taken_bytes evs = size - s.

(** What a round of the alternate-setting loop that started at cursor
    [buffer] with [size] bytes and [parsed] bytes counted ends with. *)
Definition round_end (mem : list byte) (w w' : world)
    (buffer size parsed : Z) (f : flow) : Prop :=
  match f with
  | Return r =>
      r < 0 \/ exists b s, advanced mem w w' buffer size b s /\
                           r - parsed = size - s
  | Continue b s p =>
      advanced mem w w' buffer size b s /\ p - parsed = size - s /\ 9 <= s
  end.

(** The fields of an interface structure returned with value [r]. *)
Definition interface_end (mem : list byte) (w w' : world) (buffer size : Z)
    (parsed r : Z) : Prop :=
  r < 0 \/ exists b s, advanced mem w w' buffer size b s /\
                       r - parsed = size - s.

(** The blob kept once a run is met: the one already there, or else the
    run when it is not empty. *)
Definition keep_first (extra : blob) (rs : list (list byte)) : blob :=
  match extra with
  | Some _ => extra
  | None => first_run rs
  end.

Definition all_empty (rs : list (list byte)) : Prop :=
  Forall (fun r => r = []) rs.

(** What the interface loop of the configuration returns when it runs to
    its end from [size] bytes: the returned count [r], the descriptors
    taken, and the runs stepped over. *)
Definition loop_end (mem : list byte) (n : nat) (w w' : world)
    (buffer size : Z) (extra x : blob) (r : Z) : Prop :=
  r <= size /\
  (exists evs, seen w' = seen w ++ evs /\ Forall (taken_ok r) evs /\
               taken_bytes evs = size - r) /\
  exists rs, runs w' = runs w ++ rs /\ x = keep_first extra rs /\
             all_empty (tl rs) /\ length rs = n /\
             (settled mem buffer size -> all_empty rs).

(** The character a code unit at offset [si] is reduced to. *)
Definition ascii_of (tbuf : list byte) (si : Z) : byte :=
  if u8 (rd tbuf (si + 1)) =? 0 then rd tbuf si else "?"%byte.

(** The probe of index [i] succeeds and reads the configuration value
    [v]. *)
Definition probes (dev : libusb_device) (i v : Z) : Prop :=
  0 <= fst (backend_get_config_descriptor dev i 6) /\
  u8 (rd (snd (backend_get_config_descriptor dev i 6)) 5) = v.

(** ** Well-formed configuration streams

    The descriptors of a configuration as the USB specification lays
    them out, the bytes they are sent as, and the tree the decoder is
    meant to build from them.  These definitions follow the layout tables;
    the theorems below compare them with [parse_configuration]. *)

(** A class or vendor descriptor: its type and the bytes after its
    two-byte header. *)
Record Unknown : Type := {
  u_type : byte;
  u_body : list byte
}.

(** An endpoint descriptor: the bytes after its header, and the class or
    vendor descriptors that follow it. *)
Record Endpoint : Type := {
  e_body : list byte;
  e_extra : list Unknown
}.

(** An alternate setting: the members of its interface descriptor, the
    class or vendor descriptors that follow the header, its endpoints. *)
Record Alt : Type := {
  a_number : byte;
  a_alternate : byte;
  a_class : byte;
  a_subclass : byte;
  a_protocol : byte;
  a_string : byte;
  a_extra : list Unknown;
  a_endpoints : list Endpoint
}.

(** A configuration: the members of its header, the class or vendor
    descriptors in front of the first interface, and its interfaces, each
    the list of its alternate settings. *)
Record Config : Type := {
  c_value : byte;
  c_string : byte;
  c_attributes : byte;
  c_power : byte;
  c_extra : list Unknown;
  c_interfaces : list (list Alt)
}.

Definition len {A : Type} (l : list A) : Z := Z.of_nat (length l).

Definition unknown_bytes (u : Unknown) : list byte :=
  to_u8 (2 + len (u_body u)) :: u_type u :: u_body u.

Definition unknowns_bytes (us : list Unknown) : list byte :=
  flat_map unknown_bytes us.

Definition endpoint_header (e : Endpoint) : list byte :=
  to_u8 (2 + len (e_body e)) :: x05 :: e_body e.

Definition endpoint_bytes (e : Endpoint) : list byte :=
  endpoint_header e ++ unknowns_bytes (e_extra e).

Definition alt_header (a : Alt) : list byte :=
  [x09; x04; a_number a; a_alternate a; to_u8 (len (a_endpoints a));
   a_class a; a_subclass a; a_protocol a; a_string a].

Definition alt_bytes (a : Alt) : list byte :=
  alt_header a ++ unknowns_bytes (a_extra a)
  ++ flat_map endpoint_bytes (a_endpoints a).

Definition interface_bytes (i : list Alt) : list byte := flat_map alt_bytes i.

Definition config_body (c : Config) : list byte :=
  unknowns_bytes (c_extra c) ++ flat_map interface_bytes (c_interfaces c).

Definition config_total (c : Config) : Z := 9 + len (config_body c).

Definition config_bytes (c : Config) : list byte :=
  [x09; x02; to_u8 (config_total c); to_u8 (Z.shiftr (config_total c) 8);
   to_u8 (len (c_interfaces c)); c_value c; c_string c; c_attributes c;
   c_power c] ++ config_body c.

(** Well-formed descriptors: lengths that fit their fields, class or
    vendor descriptors of a type that is not a proper one, endpoint
    descriptors of at least 7 bytes, counts within the limits, in each
    interface a first alternate setting numbered 0 and others numbered
    otherwise, and no class or vendor descriptor without an interface to
    precede. *)
Definition wf_unknown (u : Unknown) : Prop :=
  len (u_body u) <= 253 /\ proper (u8 (u_type u)) = false.

Definition wf_endpoint (e : Endpoint) : Prop :=
  5 <= len (e_body e) <= 253 /\ Forall wf_unknown (e_extra e).

Definition wf_alt (a : Alt) : Prop :=
  len (a_endpoints a) <= USB_MAXENDPOINTS /\ len (a_endpoints a) <= 255 /\
  Forall wf_unknown (a_extra a) /\ Forall wf_endpoint (a_endpoints a).

Definition wf_interface (i : list Alt) : Prop :=
  Forall wf_alt i /\
  match i with
  | [] => False
  | a :: more =>
      a_alternate a = x00 /\ Forall (fun a' => a_alternate a' <> x00) more
  end.

Definition wf_config (c : Config) : Prop :=
  len (c_interfaces c) <= USB_MAXINTERFACES /\ len (c_interfaces c) <= 255 /\
  config_total c <= 65535 /\
  Forall wf_unknown (c_extra c) /\ Forall wf_interface (c_interfaces c) /\
  (c_interfaces c = [] -> c_extra c = []).

(** The tree of a well-formed configuration. *)
Definition blob_of (l : list byte) : blob :=
  match l with
  | [] => None
  | _ => Some l
  end.

Definition byte_at (l : list byte) (i : nat) : Z := u8 (nth i l x00).

Definition endpoint_tree (e : Endpoint) : EP.t :=
  let h := endpoint_header e in
  let x := unknowns_bytes (e_extra e) in
  EP.Build_t (len h) LIBUSB_DT_ENDPOINT (byte_at h 2) (byte_at h 3)
    (Z.lor (Z.shiftl (byte_at h 5) 8) (byte_at h 4)) (byte_at h 6)
    (if len h >=? ENDPOINT_AUDIO_DESC_LENGTH then byte_at h 7 else 0)
    (if len h >=? ENDPOINT_AUDIO_DESC_LENGTH then byte_at h 8 else 0)
    (blob_of x) (len x).

Definition alt_tree (a : Alt) : ALT.t :=
  let x := unknowns_bytes (a_extra a) in
  ALT.Build_t INTERFACE_DESC_LENGTH LIBUSB_DT_INTERFACE (u8 (a_number a))
    (u8 (a_alternate a)) (len (a_endpoints a)) (u8 (a_class a))
    (u8 (a_subclass a)) (u8 (a_protocol a)) (u8 (a_string a))
    (match a_endpoints a with
     | [] => None
     | es => Some (map endpoint_tree es)
     end)
    (blob_of x) (len x).

Definition interface_tree (i : list Alt) : IFACE.t :=
  IFACE.Build_t (map alt_tree i).

Definition config_tree (c : Config) : CFG.t :=
  let x := unknowns_bytes (c_extra c) in
  CFG.Build_t CONFIG_DESC_LENGTH LIBUSB_DT_CONFIG (config_total c)
    (len (c_interfaces c)) (u8 (c_value c)) (u8 (c_string c))
    (u8 (c_attributes c)) (u8 (c_power c))
    (Some (map interface_tree (c_interfaces c))) (blob_of x) (len x).

(** The memory at [mem + b] holds the bytes [l]. *)
Definition follows (mem : list byte) (b : Z) (l : list byte) : Prop :=
  forall i, (i < length l)%nat -> rd mem (b + Z.of_nat i) = nth i l x00.

(** What may come after a run of class or vendor descriptors: nothing, a
    single byte, or a proper descriptor whose declared length is at least
    2 and within the bytes there are. *)
Definition proper_head (rest : list byte) : Prop :=
  match rest with
  | x0 :: x1 :: _ => 2 <= u8 x0 <= len rest /\ proper (u8 x1) = true
  | _ => True
  end.

(** What may come after an alternate setting: the end of the stream, or
    another alternate setting. *)
Inductive after_alt : list byte -> option Alt -> Prop :=
| after_alt_end : after_alt [] None
| after_alt_next (a : Alt) (rest : list byte) :
    after_alt (alt_bytes a ++ rest) (Some a).

(** How the round of a well-formed alternate setting ends, by what
    comes next. *)
Definition round_flow (next : option Alt) (b s p : Z) : flow :=
  match next with
  | Some a => if u8 (a_alternate a) =? 0 then Return p else Continue b s p
  | None => Return p
  end.

(** The alternate settings that follow an alternate setting in its
    interface, and then what follows the interface. *)
Definition next_of (more : list Alt) (next : option Alt) : option Alt :=
  match more with
  | [] => next
  | a :: _ => Some a
  end.

(** The first alternate setting of the next interface is numbered 0. *)
Definition starts_interface (next : option Alt) : Prop :=
  match next with
  | Some a => a_alternate a = x00
  | None => True
  end.

(** What may come after an interface: the end of the stream, or the
    first alternate setting of another interface. *)
Definition after_interface (rest : list byte) : Prop :=
  exists next, after_alt rest next /\ starts_interface next.

(** ** What the further statements speak about *)

(** The count of source bytes a format makes the codec consume: what each
    character adds to [sp]. *)
Fixpoint format_width (descriptor : string) : Z :=
  match descriptor with
  | EmptyString => 0
  | String c cp =>
      (if Ascii.eqb c "b" then 1
       else if Ascii.eqb c "w" then 2
       else if Ascii.eqb c "d" then 4
       else if Ascii.eqb c "W" then 2
       else if Ascii.eqb c "D" then 4
       else 0) + format_width cp
  end.

(** The count of destination bytes a store covers. *)
Definition field_size (f : field) : Z :=
  match f with
  | F8 _ => 1
  | F16 _ | R16 _ _ => 2
  | F32 _ | R32 _ _ _ _ => 4
  end.

(** Where the alignment steps of the codec put a store: a 16-bit store on
    an even address; a 32-bit store ([dp += dp & 2]) on an address that
    is 0 or 1 modulo 4. *)
Definition store_aligned (s : Z * field) : Prop :=
  match snd s with
  | F8 _ => True
  | F16 _ | R16 _ _ => fst s mod 2 = 0
  | F32 _ | R32 _ _ _ _ => fst s mod 4 = 0 \/ fst s mod 4 = 1
  end.

(** The alignment a format asks of its destination: 4 when it has a
    32-bit field, else 2 when it has a 16-bit field, else 1. *)
Fixpoint format_alignment (descriptor : string) : Z :=
  match descriptor with
  | EmptyString => 1
  | String c cp =>
      Z.max (if Ascii.eqb c "d" || Ascii.eqb c "D" then 4
             else if Ascii.eqb c "w" || Ascii.eqb c "W" then 2
             else 1)
            (format_alignment cp)
  end.

(** A store recorded by its offset, at the destination [dest]. *)
Definition at_address (dest : Z) (s : Z * field) : Z * field :=
  (dest + fst s, snd s).

(** ** The release routines

    The release routines change no member of the tree; what they do is
    call [free].  A block handed to [free] is named here as the request
    that made it, with the size of what it holds.  [None] is a routine
    that indexes an array past its end. *)

(** The block a blob pointer points to, if any: what [if (p) free(p)]
    releases, and what [malloc(len)] made. *)
Definition blob_block (x : blob) : list alloc :=
  match x with
  | Some l => [AExtra (Z.of_nat (length l))]
  | None => []
  end.

(** [clear_endpoint(endpoint)]. *)
Definition clear_endpoint (endpoint : EP.t) : list alloc :=
  blob_block (EP.extra endpoint).

(** The loop [for (j = 0; j < ifp->bNumEndpoints; j++)] of
    [clear_interface] over the array [ifp->endpoint], with [n] rounds to
    go. *)
Fixpoint clear_endpoints (n : nat) (endpoint : list EP.t) (j : nat)
  : option (list alloc) :=
  match n with
  | O => Some []
  | S n =>
      match nth_error endpoint j with
      | None => None
      | Some e =>
          match clear_endpoints n endpoint (S j) with
          | None => None
          | Some l => Some (clear_endpoint e ++ l)
          end
      end
  end.

(** One round of [for (i = 0; i < interface->num_altsetting; i++)] in
    [clear_interface], on the slot [ifp]. *)
Definition clear_altsetting (ifp : ALT.t) : option (list alloc) :=
  match ALT.endpoint ifp with
  | None => Some (blob_block (ALT.extra ifp))
  | Some eps =>
      match clear_endpoints (Z.to_nat (ALT.bNumEndpoints ifp)) eps 0 with
      | None => None
      | Some l =>
          Some (blob_block (ALT.extra ifp) ++ l
                ++ [AEndpoints (Z.of_nat (length eps))])
      end
  end.

Fixpoint clear_altsettings (altsetting : list ALT.t) : option (list alloc) :=
  match altsetting with
  | [] => Some []
  | ifp :: altsetting =>
      match clear_altsetting ifp, clear_altsettings altsetting with
      | Some l, Some l' => Some (l ++ l')
      | _, _ => None
      end
  end.

(** [clear_interface(interface)]; the [altsetting] pointer is [NULL]
    exactly when the array has no entry. *)
Definition clear_interface (interface : IFACE.t) : option (list alloc) :=
  match IFACE.altsetting interface with
  | [] => Some []
  | altsetting =>
      match clear_altsettings altsetting with
      | None => None
      | Some l => Some (l ++ [AAltsetting (Z.of_nat (length altsetting))])
      end
  end.

(** The loop [for (i = 0; i < config->bNumInterfaces; i++)] of
    [clear_configuration] over the array [config->interface], with [n]
    rounds to go. *)
Fixpoint clear_interfaces (n : nat) (interface : list IFACE.t) (i : nat)
  : option (list alloc) :=
  match n with
  | O => Some []
  | S n =>
      match nth_error interface i with
      | None => None
      | Some ifc =>
          match clear_interface ifc, clear_interfaces n interface (S i) with
          | Some l, Some l' => Some (l ++ l')
          | _, _ => None
          end
      end
  end.

(** [clear_configuration(config)]. *)
Definition clear_configuration (config : CFG.t) : option (list alloc) :=
  match
    match CFG.interface config with
    | None => Some []
    | Some ifs =>
        match clear_interfaces (Z.to_nat (CFG.bNumInterfaces config)) ifs 0 with
        | None => None
        | Some l => Some (l ++ [AInterfaces (Z.of_nat (length ifs))])
        end
    end
  with
  | None => None
  | Some l => Some (l ++ blob_block (CFG.extra config))
  end.

(** [libusb_free_config_descriptor(config)]; [None] as argument is
    [NULL]. *)
Definition libusb_free_config_descriptor (config : option CFG.t)
  : option (list alloc) :=
  match config with
  | None => Some []
  | Some c =>
      match clear_configuration c with
      | None => None
      | Some l => Some (l ++ [AConfig])
      end
  end.

(** ** The blocks of a tree *)

(** The requests for memory that made a tree, in the order the decoders
    make them: [k] is the size the [altsetting] array is grown to. *)
Definition altsetting_requests (k : Z) (a : ALT.t) : list alloc :=
  AAltsetting k :: blob_block (ALT.extra a) ++
  match ALT.endpoint a with
  | Some eps =>
      AEndpoints (ALT.bNumEndpoints a) :: flat_map clear_endpoint eps
  | None => []
  end.

Fixpoint altsettings_requests (k : Z) (alts : list ALT.t) : list alloc :=
  match alts with
  | [] => []
  | a :: alts => altsetting_requests k a ++ altsettings_requests (k + 1) alts
  end.

Definition interface_requests (i : IFACE.t) : list alloc :=
  altsettings_requests 1 (IFACE.altsetting i).

Definition configuration_requests (c : CFG.t) : list alloc :=
  match CFG.interface c with
  | Some ifs =>
      AInterfaces (CFG.bNumInterfaces c) :: blob_block (CFG.extra c)
      ++ flat_map interface_requests ifs
  | None => []
  end.

(** The arrays of a tree have the sizes its counts say: an endpoint array
    that is there has [bNumEndpoints] slots, a count within the limit, and
    the interface array has [bNumInterfaces] slots. *)
Definition alt_shape (a : ALT.t) : Prop :=
  match ALT.endpoint a with
  | None => True
  | Some eps =>
      0 < ALT.bNumEndpoints a <= USB_MAXENDPOINTS /\
      Z.of_nat (length eps) = ALT.bNumEndpoints a
  end.

Definition iface_shape (i : IFACE.t) : Prop :=
  Forall alt_shape (IFACE.altsetting i).

Definition cfg_shape (c : CFG.t) : Prop :=
  match CFG.interface c with
  | None => True
  | Some ifs =>
      0 <= CFG.bNumInterfaces c <= USB_MAXINTERFACES /\
      Z.of_nat (length ifs) = CFG.bNumInterfaces c /\
      Forall iface_shape ifs
  end.

(** A request that is not for an [altsetting] array, which [realloc]
    grows in place of making a new block. *)
Definition not_altsetting (a : alloc) : bool :=
  match a with
  | AAltsetting _ => false
  | _ => true
  end.

(** A request that makes an [altsetting] array: [realloc] of the [NULL]
    pointer to one slot. *)
Definition new_array (a : alloc) : bool :=
  match a with
  | AAltsetting n => n =? 1
  | _ => false
  end.

Definition is_altsetting (a : alloc) : bool := negb (not_altsetting a).

(** Lists without requests for [altsetting] arrays. *)
Definition plain (l : list alloc) : Prop :=
  Forall (fun a => not_altsetting a = true) l.

(** The blocks [frees] handed to [free] are the blocks the requests
    [news] made, but for one, the transfer buffer: block for block apart
    from the [altsetting] arrays, and as many [altsetting] arrays are
    released as were made. *)
Definition all_but_the_buffer (news frees : list alloc) : Prop :=
  exists n,
    Permutation (ABuffer n :: filter not_altsetting frees)
      (filter not_altsetting news) /\
    length (filter is_altsetting frees) = length (filter new_array news).

(** Between the worlds [w] and [w'] every request for memory was
    granted. *)
Definition granted (w w' : world) : Prop :=
  exists g, oracle w = g ++ oracle w' /\ Forall (fun b => b = true) g.

(** Between the worlds [w] and [w'] the requests for memory were granted
    up to the last one made, which was refused. *)
Definition refused (w w' : world) : Prop :=
  exists g, oracle w = g ++ false :: oracle w' /\ Forall (fun b => b = true) g.

(** A decoder that returns [r] in world [w'] has had all its requests
    granted, or has returned [LIBUSB_ERROR_NO_MEM] at the one refused. *)
Definition reported (w w' : world) (r : Z) : Prop :=
  granted w w' \/ (refused w w' /\ r = LIBUSB_ERROR_NO_MEM).

Definition reported_flow (w w' : world) (f : flow) : Prop :=
  granted w w' \/ (refused w w' /\ f = Return LIBUSB_ERROR_NO_MEM).

(** ** Sample devices and streams *)

Definition zero_config : CFG.t := CFG.Build_t 0 0 0 0 0 0 0 0 None None 0.

Definition zero_device : DEV.t :=
  DEV.Build_t 0 0 (x00, x00) 0 0 0 0 (x00, x00) (x00, x00) (x00, x00) 0 0 0 0.

(** A configuration of one vendor-specific interface without endpoints. *)
Definition vendor_config : Config :=
  Build_Config x01 x00 x80 x32 []
    [[Build_Alt x00 x00 xff x00 x00 x00 [] []]].

(** A configuration with a class descriptor in front of its interface,
    which has two alternate settings: the first bare, the second with a
    class descriptor and an interrupt endpoint. *)
Definition two_alternates : Config :=
  Build_Config x01 x00 x80 x32
    [Build_Unknown x0b [x00; x01; xff; x00; x00; x00]]
    [[Build_Alt x00 x00 xff x00 x00 x00 [] [];
      Build_Alt x00 x01 xff x00 x00 x00
        [Build_Unknown x21 [x10; x01; x00; x01; x22; x1d; x00]]
        [Build_Endpoint [x81; x03; x08; x00; x0a] []]]].

(** An interface header that declares 255 endpoints, followed by a
    descriptor of configuration type. *)
Definition over_limit : list byte :=
  [x09; x04; x00; x00; xff; x00; x00; x00; x00; x02; x02].

(** A device of two configurations. *)
Definition two_configurations : libusb_device := Build_libusb_device 2.

(** A device descriptor (USB 2.0, vendor 0x1d6b, product 0x0002). *)
Definition hub_descriptor : list byte :=
  [x12; x01; x00; x02; x09; x00; x01; x40; x6b; x1d; x02; x00; x06; x04;
   x03; x02; x01; x01].

Definition hub_backend (_ : libusb_device) : Z * list byte :=
  (0, hub_descriptor).

(** A device whose language list is English (US) and whose other string
    descriptors all hold the bytes [t]. *)
Definition strings (t : list byte) (_ : unit) (desc_index langid : Z)
    (tbuf : list byte) : Z * list byte :=
  if desc_index =? 0 then (4, [x04; x03; x09; x04])
  else (Z.of_nat (length t), t).

(** The configurations of this device have the values 1 and 2: the
    backend answers every request for configuration [i] with the bytes of
    the scenario above, the configuration value set to [i + 1]. *)
Definition two_backend (_ : libusb_device) (i len : Z) : Z * list byte :=
  (len,
   [x09; x02; x12; x00; x01; to_u8 (i + 1); x00; x80; x32;
    x09; x04; x00; x00; x00; xff; x00; x00; x00]).

(** The active configuration of this device is the first. *)
Definition active_backend (dev : libusb_device) (len : Z) : Z * list byte :=
  two_backend dev 0 len.

(** A configuration header alone: [wTotalLength] is 9 and two interfaces
    are declared. *)
Definition lone_header : list byte :=
  [x09; x02; x09; x00; x02; x01; x00; x80; x32].

(** An endpoint descriptor of declared length 3, in front of an interface
    descriptor. *)
Definition short_endpoint : list byte := [x03; x05; x81; x09; x04].

(** What [malloc] may have left in a fresh structure. *)
Definition stale_config : CFG.t :=
  CFG.Build_t 1 2 3 4 5 6 7 8 None (Some [xff]) 1.

(** A backend that answers every request with the same bytes. *)
Definition serve (bytes : list byte) (_ : libusb_device) (_ len : Z)
    : Z * list byte :=
  (len, bytes).

(** A configuration header that declares a length of 1: [wTotalLength]
    is 4 and one interface is declared. *)
Definition short_header : list byte :=
  [x01; x02; x04; x00; x01; x01; x00; x80; x32].

(** The same header with a [wTotalLength] of 516, in front of as many
    bytes as it declares. *)
Definition short_header_served : list byte :=
  [x01; x02; x04; x02; x01; x01; x00; x80; x32] ++ repeat x00 507.

(** A configuration of one interface whose second alternate setting is
    cut short: [wTotalLength] is 23 and leaves 5 of its 9 bytes. *)
Definition truncated_alternate : list byte :=
  [x09; x02; x17; x00; x01; x01; x00; x80; x32;
   x09; x04; x00; x00; x00; xff; x00; x00; x00;
   x09; x04; x00; x01; x00].

(** A configuration whose interface is followed by a class descriptor
    that declares 5 bytes where [wTotalLength], 21, leaves 3. *)
Definition overlong_class : list byte :=
  [x09; x02; x15; x00; x01; x01; x00; x80; x32;
   x09; x04; x00; x00; x00; xff; x00; x00; x00;
   x05; x24; x01].

(** What [malloc] may have left in a fresh structure: a recorded length
    next to a [NULL] blob. *)
Definition stale_length : CFG.t :=
  CFG.Build_t 0 0 0 0 0 0 0 0 None None 5.

(** A configuration header that declares 33 interfaces. *)
Definition too_many_interfaces : list byte :=
  [x09; x02; x09; x00; x21; x01; x00; x80; x32].

(** A configuration of two interfaces, each with an interface
    association descriptor in front of it; the first interface has an
    interrupt endpoint, which the second of these descriptors follows in
    the stream. *)
Definition two_runs : Config :=
  Build_Config x01 x00 x80 x32
    [Build_Unknown x0b [x00; x01; xff; x00; x00; x00]]
    [[Build_Alt x00 x00 xff x00 x00 x00 []
        [Build_Endpoint [x81; x03; x08; x00; x0a]
           [Build_Unknown x0b [x01; x01; xff; x00; x00; x00]]]];
     [Build_Alt x01 x00 xff x00 x00 x00 [] []]].

(** A stream cut short: [wTotalLength] is 21 and leaves 3 of the 7 bytes
    of the endpoint descriptor. *)
Definition cut_short : list byte :=
  [x09; x02; x15; x00; x01; x01; x00; x80; x32;
   x09; x04; x00; x00; x01; xff; x00; x00; x00;
   x07; x05; x81].

Hypothesis IO_negative : LIBUSB_ERROR_IO < 0.
Hypothesis NO_MEM_negative : LIBUSB_ERROR_NO_MEM < 0.

(** ** Basic facts on bytes *)

Lemma u8_range (b : byte) : 0 <= u8 b < 256.
Proof.
  unfold u8. pose proof (Byte.to_N_bounded b). lia.
Qed.

Lemma to_u8_u8 (b : byte) : to_u8 (u8 b) = b.
Proof.
  unfold to_u8. rewrite Z.mod_small by apply u8_range.
  unfold u8. rewrite N2Z.id, Byte.of_to_N. reflexivity.
Qed.

Lemma to_u8_mod (z : Z) : to_u8 (z mod 256) = to_u8 z.
Proof.
  unfold to_u8. rewrite Z.mod_mod by lia. reflexivity.
Qed.

(** ** Elementary lemmas *)

Lemma read_header_eq (mem : list byte) (p : Z) :
  read_header mem p
  = Build_usb_descriptor_header (u8 (rd mem p)) (u8 (rd mem (p + 1))).
Proof. reflexivity. Qed.

Lemma h_bLength_range (mem : list byte) (p : Z) :
  0 <= h_bLength (read_header mem p) < 256.
Proof. rewrite read_header_eq. apply u8_range. Qed.

Lemma taken_bytes_app (l1 l2 : list met) :
  taken_bytes (l1 ++ l2) = taken_bytes l1 + taken_bytes l2.
Proof.
  induction l1 as [|e l1 IH]; simpl; [reflexivity|]. rewrite IH. lia.
Qed.

Lemma taken_ok_le (s s' : Z) (e : met) :
  s' <= s -> taken_ok s e -> taken_ok s' e.
Proof. unfold taken_ok. intuition lia. Qed.

Lemma Forall_taken_ok_le (s s' : Z) (l : list met) :
  s' <= s -> Forall (taken_ok s) l -> Forall (taken_ok s') l.
Proof.
  intros Hle H. eapply Forall_impl; [|exact H].
  intros e. now apply taken_ok_le.
Qed.

Lemma memcpy_length (mem : list byte) (begin len : Z) :
  length (memcpy mem begin len) = Z.to_nat len.
Proof. unfold memcpy. now rewrite length_map, length_seq. Qed.

Lemma memcpy_nil (mem : list byte) (begin : Z) : memcpy mem begin 0 = [].
Proof. reflexivity. Qed.

Lemma malloc_frame (a : alloc) (w : world) :
  seen (snd (malloc a w)) = seen w /\ runs (snd (malloc a w)) = runs w.
Proof. unfold malloc. destruct (oracle w) as [|[] o]; simpl; auto. Qed.

Lemma malloc_allocs (a : alloc) (w : world) :
  allocs (snd (malloc a w))
  = if fst (malloc a w) then allocs w ++ [a] else allocs w.
Proof. unfold malloc. destruct (oracle w) as [|[] o]; reflexivity. Qed.

(** ** The scan over class or vendor descriptors *)

Arguments read_header : simpl never.
Arguments usbi_parse_descriptor : simpl never.
Arguments proper : simpl never.
Arguments memcpy : simpl never.
Arguments malloc : simpl never.
Arguments see : simpl never.
Arguments note_run : simpl never.

Ltac scan_stops :=
  split; [reflexivity|]; split; [reflexivity|]; split; [reflexivity|];
  split; [first [left; unfold DESC_HEADER_LENGTH; lia | right; auto]|];
  split; [intros; auto; lia|];
  exists []; rewrite app_nil_r; simpl; repeat split; auto; lia.

Lemma skip_descriptors_spec (lvl : level) (bounded : bool) (mem : list byte) :
  lvl <> LConfig ->
  forall (fuel : nat) (buffer size parsed : Z) (w : world),
  match skip_descriptors lvl bounded fuel mem buffer size parsed w with
  | None => (fuel < Z.to_nat size)%nat
  | Some (ScanStop b s p w') =>
      oracle w' = oracle w /\ allocs w' = allocs w /\ runs w' = runs w /\
      settled mem b s /\
      (bounded = true -> 2 <= s -> h_bLength (read_header mem b) <= s) /\
      exists evs,
        seen w' = seen w ++ evs /\ Forall (taken_ok s) evs /\
        taken_bytes evs = b - buffer /\ b - buffer = size - s /\
        b - buffer = p - parsed /\ 0 <= b - buffer
  | Some (ScanBad w') =>
      oracle w' = oracle w /\ allocs w' = allocs w /\ runs w' = runs w
  end.
Proof.
  intros Hlvl fuel.
  induction fuel as [|fuel IH]; intros buffer size parsed w; cbn [skip_descriptors];
    unfold DESC_HEADER_LENGTH.
  - destruct (size <? 2) eqn:Hs.
    + apply Z.ltb_lt in Hs. scan_stops.
    + apply Z.ltb_ge in Hs. lia.
  - destruct (size <? 2) eqn:Hs.
    + apply Z.ltb_lt in Hs. scan_stops.
    + apply Z.ltb_ge in Hs.
      set (len := h_bLength (read_header mem buffer)).
      destruct ((bounded && (len >? size)) || (len <? 2)) eqn:Hbad.
      * unfold see; cbn; repeat split; reflexivity.
      * apply orb_false_iff in Hbad. destruct Hbad as [Hup Hlow].
        apply Z.ltb_ge in Hlow.
        destruct (proper (h_bDescriptorType (read_header mem buffer))) eqn:Hp.
        -- assert (bounded = true -> len <= size)
             by (intros ->; simpl in Hup; lia).
           scan_stops.
        -- specialize (IH (buffer + len) (size - len) (parsed + len)
                          (see lvl len size true w)).
           destruct (skip_descriptors lvl bounded fuel mem (buffer + len)
                       (size - len) (parsed + len) (see lvl len size true w))
             as [[b s p w'|w']|] eqn:Hrec.
           ++ destruct IH as (Ho & Ha & Hr & Hset & Hbd & evs & Hseen & Hok
                               & Hsum & Hsz & Hp' & Hge).
              unfold see in Ho, Ha, Hr, Hseen; simpl in Ho, Ha, Hr, Hseen.
              split; [auto|]. split; [auto|]. split; [auto|].
              split; [auto|]. split; [auto|].
              exists (Build_met lvl len size true :: evs).
              rewrite Hseen, <- app_assoc. simpl.
              repeat split; auto; try lia.
              constructor; [|exact Hok].
              unfold taken_ok. simpl. repeat split; auto; lia.
           ++ simpl in IH. exact IH.
           ++ lia.
Qed.

(** At a settled position the scan does not move. *)
Lemma skip_descriptors_settled (lvl : level) (bounded : bool)
    (mem : list byte) (buffer size parsed : Z) (w : world) :
  settled mem buffer size ->
  match skip_descriptors lvl bounded (Z.to_nat size) mem buffer size parsed w
  with
  | None => False
  | Some (ScanStop b s p w') => b = buffer /\ s = size /\ p = parsed /\ w' = w
  | Some (ScanBad w') => bounded = true
  end.
Proof.
  intros Hset.
  destruct (Z.to_nat size) as [|fuel] eqn:Hf; cbn [skip_descriptors];
    unfold DESC_HEADER_LENGTH.
  - destruct (size <? 2) eqn:Hs; [auto|]. apply Z.ltb_ge in Hs. lia.
  - destruct (size <? 2) eqn:Hs; [auto|]. apply Z.ltb_ge in Hs.
    destruct Hset as [Hlt|[Hlen Hp]]; [unfold DESC_HEADER_LENGTH in Hlt; lia|].
    rewrite Hp.
    destruct (h_bLength (read_header mem buffer) <? 2) eqn:Hlow;
      [apply Z.ltb_lt in Hlow; lia|].
    rewrite orb_false_r.
    destruct bounded; cbn; [|auto].
    destruct (h_bLength (read_header mem buffer) >? size); auto.
Qed.

(** ** The decoders advance over well-accounted bytes *)

(** Boolean tests of the code, as propositions. *)
Ltac zb :=
  repeat match goal with
  | H : (_ >? _) = _ |- _ => rewrite Z.gtb_ltb in H
  | H : (_ >=? _) = _ |- _ => rewrite Z.geb_leb in H
  | H : (_ <? _) = true |- _ => apply Z.ltb_lt in H
  | H : (_ <? _) = false |- _ => apply Z.ltb_ge in H
  | H : (_ <=? _) = true |- _ => apply Z.leb_le in H
  | H : (_ <=? _) = false |- _ => apply Z.leb_gt in H
  | H : (_ =? _) = true |- _ => apply Z.eqb_eq in H
  | H : (_ =? _) = false |- _ => apply Z.eqb_neq in H
  | H : negb _ = true |- _ => apply negb_true_iff in H
  | H : negb _ = false |- _ => apply negb_false_iff in H
  | H : (_ && _) = true |- _ => apply andb_true_iff in H; destruct H
  | H : (_ || _) = false |- _ => apply orb_false_iff in H; destruct H
  end.

Lemma advanced_refl (mem : list byte) (w : world) (buffer size : Z) :
  settled mem buffer size -> advanced mem w w buffer size buffer size.
Proof.
  intros H. split; [exact H|]. split; [lia|]. split; [lia|].
  exists []. rewrite app_nil_r. simpl. repeat split; auto; lia.
Qed.

Lemma advanced_trans (mem : list byte) (w1 w2 w3 : world)
    (b1 s1 b2 s2 b3 s3 : Z) :
  advanced mem w1 w2 b1 s1 b2 s2 -> advanced mem w2 w3 b2 s2 b3 s3 ->
  advanced mem w1 w3 b1 s1 b3 s3.
Proof.
  intros (_ & Hb1 & Hs1 & e1 & Hw1 & Hok1 & Ht1)
         (Hset & Hb2 & Hs2 & e2 & Hw2 & Hok2 & Ht2).
  split; [exact Hset|]. split; [lia|]. split; [lia|].
  exists (e1 ++ e2). rewrite Hw2, Hw1, app_assoc.
  split; [reflexivity|]. split.
  - apply Forall_app. split; [|exact Hok2].
    apply Forall_taken_ok_le with (s := s2); [lia | exact Hok1].
  - rewrite taken_bytes_app. lia.
Qed.

(** One more taken descriptor in front of an advance. *)
Lemma advanced_see (mem : list byte) (w w' : world) (lvl : level)
    (len buffer size b s : Z) :
  0 <= len ->
  (lvl = LConfig \/ size < 2 \/ 2 <= len) ->
  advanced mem (see lvl len size true w) w' (buffer + len) (size - len) b s ->
  advanced mem w w' buffer size b s.
Proof.
  intros Hlen Hlow (Hset & Hb & Hs & evs & Hw & Hok & Ht).
  split; [exact Hset|]. split; [lia|]. split; [lia|].
  exists (Build_met lvl len size true :: evs).
  rewrite Hw. unfold see. cbn [seen]. rewrite <- app_assoc.
  split; [reflexivity|]. split.
  - constructor; [|exact Hok]. unfold taken_ok. cbn. repeat split; auto. lia.
  - change (len + taken_bytes evs = size - s). lia.
Qed.

Lemma skip_descriptors_advanced (lvl : level) (bounded : bool)
    (mem : list byte) (fuel : nat) (buffer size parsed b s p : Z)
    (w w' : world) :
  lvl <> LConfig ->
  skip_descriptors lvl bounded fuel mem buffer size parsed w
  = Some (ScanStop b s p w') ->
  advanced mem w w' buffer size b s /\ p - parsed = size - s /\
  runs w' = runs w /\ oracle w' = oracle w /\ allocs w' = allocs w /\
  (bounded = true -> 2 <= s -> h_bLength (read_header mem b) <= s).
Proof.
  intros Hlvl H.
  pose proof (skip_descriptors_spec lvl bounded mem Hlvl fuel buffer size
                parsed w) as S.
  rewrite H in S.
  destruct S as (Ho & Ha & Hr & Hset & Hbd & evs & Hw & Hok & Ht & Hb & Hp & Hge).
  split; [|repeat split; auto; lia].
  split; [exact Hset|]. split; [lia|]. split; [lia|].
  exists evs. repeat split; auto; lia.
Qed.

Lemma ep_ok_store (fs : list (Z * field)) (e : EP.t) :
  ep_ok e -> ep_ok (EP.store fs e).
Proof. intros H. exact H. Qed.

Lemma ep_ok_set_extra (x : blob) (n : Z) (e : EP.t) :
  blob_ok x n -> ep_ok (EP.set_extra x n e).
Proof. intros H. exact H. Qed.

Lemma blob_ok_memcpy (mem : list byte) (begin len : Z) :
  0 <= len -> len <> 0 -> blob_ok (Some (memcpy mem begin len)) len.
Proof.
  intros H0 Hn. split; [exact Hn|]. rewrite memcpy_length. lia.
Qed.

Lemma parse_endpoint_spec (endpoint : EP.t) (mem : list byte)
    (buffer size : Z) (w : world) :
  ep_ok endpoint -> settled mem buffer size ->
  match parse_endpoint endpoint mem buffer size w with
  | None => False
  | Some (ep, r, w') =>
      ep_ok ep /\ runs w' = runs w /\
      (r < 0 \/ (0 <= r /\ advanced mem w w' buffer size (buffer + r) (size - r)))
  end.
Proof.
  intros Hep Hset. unfold parse_endpoint.
  set (len := h_bLength (read_header mem buffer)).
  pose proof (h_bLength_range mem buffer) as Hlen. fold len in Hlen.
  destruct (len >? size) eqn:Hgt.
  { split; [exact Hep|]. split; [reflexivity|]. left. lia. }
  zb.
  destruct (negb (h_bDescriptorType (read_header mem buffer) =? LIBUSB_DT_ENDPOINT)).
  { split; [exact Hep|]. split; [reflexivity|]. right. split; [lia|].
    replace (buffer + 0) with buffer by lia.
    replace (size - 0) with size by lia. now apply advanced_refl. }
  set (endpoint' := if len >=? ENDPOINT_AUDIO_DESC_LENGTH then _ else _).
  assert (Hep' : ep_ok endpoint').
  { subst endpoint'.
    destruct (len >=? ENDPOINT_AUDIO_DESC_LENGTH);
      [|destruct (len >=? ENDPOINT_DESC_LENGTH)]; auto using ep_ok_store. }
  clearbody endpoint'.
  assert (Hfuel := skip_descriptors_spec LEndpointExtra false mem
            ltac:(discriminate) (Z.to_nat (size - len)) (buffer + len)
            (size - len) (0 + len) (see LEndpoint len size true w)).
  destruct (skip_descriptors LEndpointExtra false (Z.to_nat (size - len)) mem
              (buffer + len) (size - len) (0 + len)
              (see LEndpoint len size true w)) as [[b s p w1|w1]|] eqn:Hscan;
    [clear Hfuel| |lia].
  - apply skip_descriptors_advanced in Hscan; [|discriminate].
    destruct Hscan as (Hadv & Hp & Hr & Ho & Ha & _).
    change (runs w1 = runs w) in Hr.
    assert (Hlow : LEndpoint = LConfig \/ size < 2 \/ 2 <= len).
    { destruct Hset as [Hs|[Hl _]]; [unfold DESC_HEADER_LENGTH in Hs|]; auto. }
    pose proof (advanced_see _ _ _ _ _ _ _ _ _ (proj1 Hlen) Hlow Hadv) as Hadv'.
    pose proof Hadv as (_ & Hb & Hs & _).
    assert (Hbp : b = buffer + p) by lia.
    assert (Hsp : s = size - p) by lia.
    destruct (b - (buffer + len) =? 0) eqn:Hz.
    + split; [now apply ep_ok_set_extra|]. split; [exact Hr|].
      right. split; [lia|]. rewrite <- Hbp, <- Hsp. exact Hadv'.
    + zb.
      destruct (malloc (AExtra (b - (buffer + len))) w1) as [ok w2] eqn:Hm.
      pose proof (malloc_frame (AExtra (b - (buffer + len))) w1) as [Hms Hmr].
      rewrite Hm in Hms, Hmr. cbn [snd] in Hms, Hmr.
      destruct ok.
      * split; [apply ep_ok_set_extra, blob_ok_memcpy; lia|].
        split; [congruence|].
        right. split; [lia|]. rewrite <- Hbp, <- Hsp.
        destruct Hadv' as (A1 & A2 & A3 & evs & A4 & A5).
        split; [exact A1|]. split; [exact A2|]. split; [exact A3|].
        exists evs. rewrite Hms. split; [exact A4 | exact A5].
      * split; [now apply ep_ok_set_extra|]. split; [congruence|].
        left. exact NO_MEM_negative.
  - destruct Hfuel as (_ & _ & Hr). split; [exact Hep'|]. split; [exact Hr|].
    left. lia.
Qed.

Lemma advanced_seen (mem : list byte) (w1 w2 w1' w2' : world)
    (buffer size b s : Z) :
  seen w1' = seen w1 -> seen w2' = seen w2 ->
  advanced mem w1 w2 buffer size b s -> advanced mem w1' w2' buffer size b s.
Proof.
  intros H1 H2 (A1 & A2 & A3 & evs & A4 & A5).
  split; [exact A1|]. split; [exact A2|]. split; [exact A3|].
  exists evs. rewrite H1, H2. split; [exact A4 | exact A5].
Qed.

Lemma malloc_seen (a : alloc) (w w' : world) (ok : bool) :
  malloc a w = (ok, w') -> seen w' = seen w /\ runs w' = runs w.
Proof.
  intros H. pose proof (malloc_frame a w) as F. now rewrite H in F.
Qed.

Lemma ep_ok_zero : ep_ok EP.zero.
Proof. reflexivity. Qed.

Lemma Forall_repeat {A : Type} (P : A -> Prop) (x : A) (n : nat) :
  P x -> Forall P (repeat x n).
Proof. intros H. induction n; simpl; auto. Qed.

Lemma parse_endpoints_spec (mem : list byte) :
  forall (n : nat) (buffer size parsed : Z) (w : world),
  settled mem buffer size ->
  match parse_endpoints n mem buffer size parsed w with
  | None => False
  | Some (eps, f, w') =>
      Forall ep_ok eps /\ length eps = n /\ runs w' = runs w /\
      match f with
      | Return r => r < 0
      | Continue b s p =>
          advanced mem w w' buffer size b s /\ p - parsed = size - s
      end
  end.
Proof.
  induction n as [|n IH]; intros buffer size parsed w Hset;
    cbn [parse_endpoints].
  - split; [constructor|]. split; [reflexivity|]. split; [reflexivity|].
    split; [now apply advanced_refl | lia].
  - destruct (h_bLength (read_header mem buffer) >? size).
    { split; [apply Forall_repeat, ep_ok_zero|].
      split; [apply repeat_length|]. split; [reflexivity|]. exact IO_negative. }
    pose proof (parse_endpoint_spec EP.zero mem buffer size w ep_ok_zero Hset)
      as Hep.
    destruct (parse_endpoint EP.zero mem buffer size w) as [[[ep r] w1]|];
      [|contradiction].
    destruct Hep as (Hok & Hr & Hadv).
    destruct (r <? 0) eqn:Hneg; zb.
    { split; [constructor; [exact Hok | apply Forall_repeat, ep_ok_zero]|].
      split; [cbn; now rewrite repeat_length|]. split; [exact Hr | exact Hneg]. }
    destruct Hadv as [?|[_ Hadv]]; [lia|].
    pose proof Hadv as (Hset1 & _).
    specialize (IH (buffer + r) (size - r) (parsed + r) w1 Hset1).
    destruct (parse_endpoints n mem (buffer + r) (size - r) (parsed + r) w1)
      as [[[eps f] w2]|]; [|contradiction].
    destruct IH as (Hoks & Hlen & Hr2 & Hf).
    split; [constructor; assumption|]. split; [cbn; congruence|].
    split; [congruence|].
    destruct f as [b s p|r']; [|exact Hf].
    destruct Hf as [Hadv2 Hp]. split; [|lia].
    eapply advanced_trans; eassumption.
Qed.

Lemma new_altsetting_bLength (mem : list byte) (buffer : Z) :
  ALT.bLength (new_altsetting mem buffer) = h_bLength (read_header mem buffer).
Proof. reflexivity. Qed.

Lemma alt_ok_new (mem : list byte) (buffer : Z) :
  alt_ok (new_altsetting mem buffer).
Proof. split; reflexivity + exact I. Qed.

Lemma alt_ok_set_extra (x : blob) (n : Z) (a : ALT.t) :
  blob_ok x n -> alt_ok a -> alt_ok (ALT.set_extra x n a).
Proof. intros Hx [_ He]. split; [exact Hx | exact He]. Qed.

Lemma alt_ok_set_endpoint (eps : list EP.t) (a : ALT.t) :
  Forall ep_ok eps -> alt_ok a -> alt_ok (ALT.set_endpoint (Some eps) a).
Proof. intros He [Hx _]. split; [exact Hx | exact He]. Qed.

Lemma Forall_snoc {A : Type} (P : A -> Prop) (l : list A) (x : A) :
  Forall P l -> P x -> Forall P (l ++ [x]).
Proof. intros Hl Hx. apply Forall_app. split; [exact Hl | now constructor]. Qed.

(** What the end of a round of the alternate-setting loop says. *)
Lemma next_alternate_spec (mem : list byte) (w w' : world)
    (buffer size parsed b s p : Z) :
  advanced mem w w' buffer size b s -> p - parsed = size - s ->
  match next_alternate mem b s p with
  | Return r =>
      r < 0 \/ exists b s, advanced mem w w' buffer size b s /\
                           r - parsed = size - s
  | Continue b s p =>
      advanced mem w w' buffer size b s /\ p - parsed = size - s /\ 9 <= s
  end.
Proof.
  intros Hadv Hp. unfold next_alternate.
  destruct (s <? LIBUSB_DT_INTERFACE_SIZE) eqn:Hs; cbn [orb].
  { right. exists b, s. auto. }
  unfold LIBUSB_DT_INTERFACE_SIZE in Hs. zb.
  destruct (negb (u8 (rd mem (b + 1)) =? LIBUSB_DT_INTERFACE) ||
            (u8 (rd mem (b + 3)) =? 0)).
  { right. exists b, s. auto. }
  split; [exact Hadv|]. split; [exact Hp|]. lia.
Qed.

Lemma round_end_seen (mem : list byte) (w1 w1' w2 w2' : world)
    (buffer size parsed : Z) (f : flow) :
  seen w1' = seen w1 -> seen w2' = seen w2 ->
  round_end mem w1 w2 buffer size parsed f ->
  round_end mem w1' w2' buffer size parsed f.
Proof.
  intros H1 H2. destruct f as [b s p|r]; cbn.
  - intros (A & B & C). split; [|auto]. now apply (advanced_seen mem w1 w2).
  - intros [A|(b & s & A & B)]; [now left|]. right. exists b, s.
    split; [|exact B]. now apply (advanced_seen mem w1 w2).
Qed.

Lemma round_end_trans (mem : list byte) (w1 w2 w3 : world)
    (b1 s1 p1 b2 s2 p2 : Z) (f : flow) :
  advanced mem w1 w2 b1 s1 b2 s2 -> p2 - p1 = s1 - s2 ->
  round_end mem w2 w3 b2 s2 p2 f -> round_end mem w1 w3 b1 s1 p1 f.
Proof.
  intros Hadv Hp. destruct f as [b s p|r]; cbn.
  - intros (A & B & C). split; [eapply advanced_trans; eassumption|].
    split; lia.
  - intros [A|(b & s & A & B)]; [now left|]. right. exists b, s.
    split; [eapply advanced_trans; eassumption | lia].
Qed.

Lemma finish_altsetting_spec (alts : list ALT.t) (ifp : ALT.t)
    (mem : list byte) (buffer size parsed : Z) (w : world) :
  Forall alt_ok alts -> alt_ok ifp -> settled mem buffer size ->
  match finish_altsetting alts ifp mem buffer size parsed w with
  | None => False
  | Some (alts', f, w') =>
      Forall alt_ok alts' /\ runs w' = runs w /\
      round_end mem w w' buffer size parsed f
  end.
Proof.
  intros Halts Hifp Hset. unfold finish_altsetting.
  pose proof (advanced_refl mem w buffer size Hset) as Hrefl.
  destruct ((size >=? DESC_HEADER_LENGTH) && _).
  { split; [now apply Forall_snoc|]. split; [reflexivity|].
    right. exists buffer, size. split; [exact Hrefl | lia]. }
  destruct (ALT.bNumEndpoints ifp >? USB_MAXENDPOINTS).
  { split; [now apply Forall_snoc|]. split; [reflexivity|].
    left. exact IO_negative. }
  destruct (ALT.bNumEndpoints ifp >? 0).
  - destruct (malloc (AEndpoints (ALT.bNumEndpoints ifp)) w) as [ok w0] eqn:Hm.
    apply malloc_seen in Hm as [Hs0 Hr0].
    destruct ok; cbn [negb].
    2: { split; [now apply Forall_snoc|]. split; [exact Hr0|].
         left. exact NO_MEM_negative. }
    pose proof (parse_endpoints_spec mem (Z.to_nat (ALT.bNumEndpoints ifp))
                  buffer size parsed w0 Hset) as Hep.
    destruct (parse_endpoints (Z.to_nat (ALT.bNumEndpoints ifp)) mem buffer
                size parsed w0) as [[[eps f] w1]|]; [|contradiction].
    destruct Hep as (Heps & _ & Hr1 & Hf).
    assert (Hnew : Forall alt_ok (alts ++ [ALT.set_endpoint (Some eps) ifp]))
      by (apply Forall_snoc; [assumption | now apply alt_ok_set_endpoint]).
    destruct f as [b s p|r].
    + destruct Hf as [Hadv Hp].
      split; [exact Hnew|]. split; [congruence|].
      apply (round_end_seen mem w0 w w1 w1); [congruence | reflexivity |].
      apply next_alternate_spec; assumption.
    + split; [exact Hnew|]. split; [congruence|]. left. exact Hf.
  - split; [now apply Forall_snoc|]. split; [reflexivity|].
    apply next_alternate_spec; [exact Hrefl | lia].
Qed.

Lemma parse_altsetting_spec (alts : list ALT.t) (mem : list byte)
    (buffer size parsed : Z) (w : world) :
  Forall alt_ok alts -> settled mem buffer size -> 9 <= size ->
  match parse_altsetting alts mem buffer size parsed w with
  | None => False
  | Some (alts', f, w') =>
      Forall alt_ok alts' /\ runs w' = runs w /\
      round_end mem w w' buffer size parsed f /\
      match f with Continue _ s _ => s < size | Return _ => True end
  end.
Proof.
  intros Halts Hset H9. unfold parse_altsetting.
  destruct (malloc (AAltsetting _) w) as [ok w0] eqn:Hm0.
  apply malloc_seen in Hm0 as [Hs0 Hr0].
  destruct ok; cbn [negb].
  2: { split; [exact Halts|]. split; [exact Hr0|]. split; [|exact I].
       left. exact NO_MEM_negative. }
  rewrite new_altsetting_bLength.
  set (ifp := new_altsetting mem buffer).
  set (len := h_bLength (read_header mem buffer)).
  assert (Hlen : 2 <= len < 256).
  { pose proof (h_bLength_range mem buffer). fold len in H.
    destruct Hset as [Hs|[Hl _]]; [unfold DESC_HEADER_LENGTH in Hs; lia|].
    fold len in Hl. lia. }
  pose proof (alt_ok_new mem buffer) as Hifp. fold ifp in Hifp.
  assert (Hfuel := skip_descriptors_spec LInterfaceExtra false mem
            ltac:(discriminate) (Z.to_nat (size - len)) (buffer + len)
            (size - len) (parsed + len) (see LInterface len size true w0)).
  destruct (skip_descriptors LInterfaceExtra false (Z.to_nat (size - len)) mem
              (buffer + len) (size - len) (parsed + len)
              (see LInterface len size true w0)) as [[b s p w1|w1]|] eqn:Hscan;
    [clear Hfuel| |lia].
  2: { destruct Hfuel as (_ & _ & Hr). change (runs w1 = runs w0) in Hr.
       split; [now apply Forall_snoc|]. split; [congruence|].
       split; [|exact I]. left. exact IO_negative. }
  apply skip_descriptors_advanced in Hscan; [|discriminate].
  destruct Hscan as (Hadv & Hp & Hr & _).
  change (runs w1 = runs w0) in Hr.
  pose proof Hadv as (_ & _ & Hscan & _).
  apply advanced_see in Hadv; [|lia|right; right; lia].
  apply (advanced_seen mem w0 w1 w w1) in Hadv; [|now symmetry|reflexivity].
  pose proof Hadv as (Hset1 & Hb1 & Hs1 & _).
  assert (Hdone : forall ifp' w2, alt_ok ifp' -> seen w2 = seen w1 ->
            runs w2 = runs w1 ->
            match finish_altsetting alts ifp' mem b s p w2 with
            | None => False
            | Some (alts', f, w') =>
                Forall alt_ok alts' /\ runs w' = runs w /\
                round_end mem w w' buffer size parsed f /\
                match f with Continue _ s _ => s < size | Return _ => True end
            end).
  { intros ifp' w2 Hifp' Hs2 Hr2.
    pose proof (finish_altsetting_spec alts ifp' mem b s p w2 Halts Hifp' Hset1)
      as Hfin.
    destruct (finish_altsetting alts ifp' mem b s p w2) as [[[alts' f] w3]|];
      [|contradiction].
    destruct Hfin as (Hok & Hr3 & Hend).
    split; [exact Hok|]. split; [congruence|]. split.
    - apply (round_end_trans mem w w2 w3 buffer size parsed b s p).
      + now apply (advanced_seen mem w w1 w w2).
      + lia.
      + exact Hend.
    - destruct f as [b' s' p'|r]; [|exact I].
      destruct Hend as ((_ & _ & Hge & _) & _). lia. }
  destruct (b - (buffer + len) =? 0) eqn:Hz.
  { now apply Hdone. }
  zb.
  destruct (malloc (AExtra (b - (buffer + len))) w1) as [ok w2] eqn:Hm.
  apply malloc_seen in Hm as [Hs2 Hr2].
  destruct ok; cbn [negb].
  - apply Hdone; auto.
    apply alt_ok_set_extra; [apply blob_ok_memcpy; lia | exact Hifp].
  - split; [now apply Forall_snoc|]. split; [congruence|]. split; [|exact I].
    left. exact NO_MEM_negative.
Qed.

Lemma parse_altsettings_spec (mem : list byte) :
  forall (fuel : nat) (alts : list ALT.t) (buffer size parsed : Z) (w : world),
  Forall alt_ok alts -> settled mem buffer size ->
  match parse_altsettings fuel alts mem buffer size parsed w with
  | None => (fuel < Z.to_nat size)%nat
  | Some (i, r, w') =>
      iface_ok i /\ runs w' = runs w /\
      interface_end mem w w' buffer size parsed r
  end.
Proof.
  induction fuel as [|fuel IH]; intros alts buffer size parsed w Halts Hset;
    cbn [parse_altsettings]; unfold INTERFACE_DESC_LENGTH.
  - destruct (size <? 9) eqn:H9; zb; [|lia].
    split; [exact Halts|]. split; [reflexivity|]. right.
    exists buffer, size. split; [now apply advanced_refl | lia].
  - destruct (size <? 9) eqn:H9; zb.
    { split; [exact Halts|]. split; [reflexivity|]. right.
      exists buffer, size. split; [now apply advanced_refl | lia]. }
    pose proof (parse_altsetting_spec alts mem buffer size parsed w Halts
                  Hset H9) as Hround.
    destruct (parse_altsetting alts mem buffer size parsed w)
      as [[[alts' f] w1]|]; [|contradiction].
    destruct Hround as (Hok & Hr & Hend & Hlt).
    destruct f as [b s p|r].
    + destruct Hend as (Hadv & Hp & Hs9).
      pose proof Hadv as (Hset1 & _).
      specialize (IH alts' b s p w1 Hok Hset1).
      destruct (parse_altsettings fuel alts' mem b s p w1) as [[[i r] w2]|].
      * destruct IH as (Hi & Hr2 & Hend2).
        split; [exact Hi|]. split; [congruence|].
        destruct Hend2 as [Hneg|(b' & s' & Hadv2 & Hp2)]; [now left|].
        right. exists b', s'.
        split; [eapply advanced_trans; eassumption | lia].
      * lia.
    + split; [exact Hok|]. split; [exact Hr|]. exact Hend.
Qed.

Lemma parse_interface_spec (mem : list byte) (buffer size : Z) (w : world) :
  settled mem buffer size ->
  match parse_interface mem buffer size w with
  | None => False
  | Some (i, r, w') =>
      iface_ok i /\ runs w' = runs w /\
      (r < 0 \/ advanced mem w w' buffer size (buffer + r) (size - r))
  end.
Proof.
  intros Hset. unfold parse_interface.
  pose proof (parse_altsettings_spec mem (Z.to_nat size) [] buffer size 0 w
                (Forall_nil _) Hset) as H.
  destruct (parse_altsettings (Z.to_nat size) [] mem buffer size 0 w)
    as [[[i r] w']|]; [|lia].
  destruct H as (Hi & Hr & Hend).
  split; [exact Hi|]. split; [exact Hr|].
  destruct Hend as [Hneg|(b & s & Hadv & Hp)]; [now left|]. right.
  pose proof Hadv as (_ & Hb & _).
  replace (buffer + r) with b by lia. replace (size - r) with s by lia.
  exact Hadv.
Qed.

(** ** The configuration decoder *)


Lemma memcpy_empty_iff (mem : list byte) (begin len : Z) :
  0 <= len -> (memcpy mem begin len = [] <-> len = 0).
Proof.
  intros H. split.
  - intros E. apply (f_equal (@length byte)) in E.
    rewrite memcpy_length in E. cbn in E. lia.
  - intros ->. reflexivity.
Qed.

Lemma blob_ok_zero (x : blob) : blob_ok x 0 -> x = None.
Proof. destruct x as [l|]; cbn; [intros [H _]; congruence | reflexivity]. Qed.

Lemma iface_ok_zero : iface_ok IFACE.zero.
Proof. constructor. Qed.

Lemma parse_interface_slot_spec (mem : list byte) (buffer size : Z)
    (extra : blob) (extra_length : Z) (w : world) :
  blob_ok extra extra_length ->
  match parse_interface_slot mem buffer size extra extra_length w with
  | None => False
  | Some (i, x, xl, e, w') =>
      iface_ok i /\ blob_ok x xl /\
      match e with
      | SlotFail r => r < 0
      | SlotDone b s =>
          advanced mem w w' buffer size b s /\
          exists run, runs w' = runs w ++ [run] /\
                      x = keep_first extra [run] /\
                      (settled mem buffer size -> run = [])
      end
  end.
Proof.
  intros Hx. unfold parse_interface_slot.
  assert (Hfuel := skip_descriptors_spec LConfigExtra true mem
            ltac:(discriminate) (Z.to_nat size) buffer size 0 w).
  pose proof (skip_descriptors_settled LConfigExtra true mem buffer size 0 w)
    as Hstay.
  destruct (skip_descriptors LConfigExtra true (Z.to_nat size) mem buffer
              size 0 w) as [[b s p w1|w1]|] eqn:Hscan; [clear Hfuel| |lia].
  2: { split; [exact iface_ok_zero|]. split; [exact Hx | exact IO_negative]. }
  apply skip_descriptors_advanced in Hscan; [|discriminate].
  destruct Hscan as (Hadv & _ & Hr1 & _).
  pose proof Hadv as (Hset1 & Hb1 & Hs1 & _).
  set (len := b - buffer). set (run := memcpy mem buffer len).
  assert (Hlen : 0 <= len) by (subst len; lia).
  assert (Hrun : settled mem buffer size -> run = []).
  { intros Hs. destruct (Hstay Hs) as (-> & _). subst run len.
    now replace (buffer - buffer) with 0 by lia. }
  assert (Hdone : forall x xl w2, blob_ok x xl -> x = keep_first extra [run] ->
            seen w2 = seen w1 -> runs w2 = runs w ++ [run] ->
            match
              match parse_interface mem b s w2 with
              | Some (i, r, w3) =>
                  if r <? 0 then Some (i, x, xl, SlotFail r, w3)
                  else Some (i, x, xl, SlotDone (b + r) (s - r), w3)
              | None => None
              end
            with
            | None => False
            | Some (i, x', xl', e, w') =>
                iface_ok i /\ blob_ok x' xl' /\
                match e with
                | SlotFail r => r < 0
                | SlotDone b s =>
                    advanced mem w w' buffer size b s /\
                    exists run, runs w' = runs w ++ [run] /\
                                x' = keep_first extra [run] /\
                                (settled mem buffer size -> run = [])
                end
            end).
  { intros x xl w2 Hx2 Hkeep Hs2 Hr2.
    pose proof (parse_interface_spec mem b s w2 Hset1) as Hi.
    destruct (parse_interface mem b s w2) as [[[i r] w3]|]; [|contradiction].
    destruct Hi as (Hi & Hr3 & Hend).
    destruct (r <? 0) eqn:Hneg; zb.
    { split; [exact Hi|]. split; [exact Hx2 | exact Hneg]. }
    destruct Hend as [?|Hadv2]; [lia|].
    split; [exact Hi|]. split; [exact Hx2|]. split.
    - apply (advanced_trans mem w w2 w3 buffer size b s); [|exact Hadv2].
      now apply (advanced_seen mem w w1 w w2).
    - exists run. split; [congruence|]. split; [exact Hkeep | exact Hrun]. }
  fold len. fold run.
  destruct (negb (len =? 0) && (extra_length =? 0)) eqn:Hnew.
  - zb. destruct (malloc (AExtra len) (note_run run w1)) as [ok w2] eqn:Hm.
    apply malloc_seen in Hm as [Hs2 Hr2].
    change (seen w2 = seen w1) in Hs2.
    change (runs w2 = runs w1 ++ [run]) in Hr2.
    assert (extra = None) by (subst extra_length; now apply blob_ok_zero).
    subst extra.
    destruct ok; cbn [negb].
    + apply Hdone; auto; [apply blob_ok_memcpy; lia| |congruence].
      cbn. destruct run eqn:E; [|reflexivity].
      apply memcpy_empty_iff in E; [lia | exact Hlen].
    + split; [exact iface_ok_zero|]. split; [|exact NO_MEM_negative].
      cbn. congruence.
  - cbn [negb]. apply Hdone; auto.
    + destruct extra as [l|]; [reflexivity|]. cbn.
      destruct (len =? 0) eqn:Hz; zb.
      * subst run. rewrite Hz. reflexivity.
      * cbn in Hnew. cbn in Hx. zb. lia.
    + change (runs w1 ++ [run] = runs w ++ [run]). congruence.
Qed.

Lemma parse_interfaces_spec (mem : list byte) :
  forall (n : nat) (buffer size : Z) (extra : blob) (extra_length : Z)
         (w : world),
  blob_ok extra extra_length ->
  match parse_interfaces n mem buffer size extra extra_length w with
  | None => False
  | Some (ifs, x, xl, r, w') =>
      Forall iface_ok ifs /\ length ifs = n /\ blob_ok x xl /\
      (r < 0 \/ loop_end mem n w w' buffer size extra x r)
  end.
Proof.
  induction n as [|n IH]; intros buffer size extra extra_length w Hx;
    cbn [parse_interfaces].
  - split; [constructor|]. split; [reflexivity|]. split; [exact Hx|].
    right. split; [lia|]. split.
    + exists []. rewrite app_nil_r. cbn. repeat split; auto. lia.
    + exists []. rewrite app_nil_r. split; [reflexivity|].
      split; [now destruct extra|]. split; [constructor|].
      split; [reflexivity | constructor].
  - pose proof (parse_interface_slot_spec mem buffer size extra extra_length w
                  Hx) as Hslot.
    destruct (parse_interface_slot mem buffer size extra extra_length w)
      as [[[[[i x1] xl1] e] w1]|]; [|contradiction].
    destruct Hslot as (Hi & Hx1 & He).
    destruct e as [b s|r].
    2: { split; [constructor; [exact Hi|apply Forall_repeat, iface_ok_zero]|].
         split; [cbn; now rewrite repeat_length|]. split; [exact Hx1|].
         left. exact He. }
    destruct He as (Hadv & run & Hr1 & Hkeep & Hrun).
    specialize (IH b s x1 xl1 w1 Hx1).
    destruct (parse_interfaces n mem b s x1 xl1 w1)
      as [[[[[ifs x] xl] r] w2]|]; [|contradiction].
    destruct IH as (Hifs & Hlen & Hx2 & Hend).
    split; [constructor; assumption|]. split; [cbn; congruence|].
    split; [exact Hx2|].
    destruct Hend as [Hneg|(Hle & (evs2 & Hs2 & Hok2 & Ht2)
                            & rs & Hr2 & Hk2 & _ & Hn2 & Hempty)]; [now left|].
    right. destruct Hadv as (Hset1 & Hb1 & Hs1 & evs1 & Hw1 & Hok1 & Ht1).
    specialize (Hempty Hset1).
    split; [lia|]. split.
    + exists (evs1 ++ evs2). rewrite Hs2, Hw1, app_assoc.
      split; [reflexivity|]. split.
      * apply Forall_app. split; [|exact Hok2].
        apply Forall_taken_ok_le with (s := s); [lia | exact Hok1].
      * rewrite taken_bytes_app. lia.
    + exists (run :: rs). rewrite Hr2, Hr1, <- app_assoc.
      split; [reflexivity|]. split; [|split; [|split]].
      * subst x x1. destruct extra as [l|]; [reflexivity|]. cbn.
        destruct run; [|reflexivity]. reflexivity.
      * exact Hempty.
      * cbn. congruence.
      * intros Hset. constructor; [now apply Hrun | exact Hempty].
Qed.

Lemma cfg_store_wTotalLength_range (mem : list byte) (config : CFG.t) :
  0 <= CFG.bLength
         (CFG.store (fst (usbi_parse_descriptor mem 0 "bbwbbbbb")) config)
    < 256.
Proof. apply u8_range. Qed.

(** [parse_configuration] always returns, and what it returns: the tree
    is consistent unless the call failed before the interface array was
    there, and a non-negative result is the count of bytes of
    [wTotalLength] not taken. *)
Lemma parse_configuration_spec (config : CFG.t) (mem : list byte) (w : world) :
  match parse_configuration config mem w with
  | None => False
  | Some (c, r, w') =>
      (cfg_ok c \/
       (r < 0 /\ allocs w' = allocs w /\ CFG.extra c = CFG.extra config /\
        CFG.extra_length c = CFG.extra_length config)) /\
      (0 <= r ->
       (exists evs, seen w' = seen w ++ evs /\ Forall (taken_ok r) evs /\
                    taken_bytes evs = CFG.wTotalLength c - r) /\
       exists rs, runs w' = runs w ++ rs /\ CFG.extra c = first_run rs /\
                  all_empty (tl rs) /\
                  length rs = Z.to_nat (CFG.bNumInterfaces c))
  end.
Proof.
  unfold parse_configuration.
  set (c0 := CFG.store (fst (usbi_parse_descriptor mem 0 "bbwbbbbb")) config).
  destruct (CFG.bNumInterfaces c0 >? USB_MAXINTERFACES).
  { split; [right; repeat split; auto|]. intros. lia. }
  destruct (malloc (AInterfaces (CFG.bNumInterfaces c0)) w) as [ok w0] eqn:Hm.
  pose proof (malloc_allocs (AInterfaces (CFG.bNumInterfaces c0)) w) as Ha.
  rewrite Hm in Ha. cbn [fst snd] in Ha.
  apply malloc_seen in Hm as [Hs0 Hr0].
  destruct ok; cbn [negb].
  2: { split; [right; repeat split; auto|]. intros. lia. }
  pose proof (cfg_store_wTotalLength_range mem config) as Hlen. fold c0 in Hlen.
  pose proof (parse_interfaces_spec mem (Z.to_nat (CFG.bNumInterfaces c0))
                (0 + CFG.bLength c0) (CFG.wTotalLength c0 - CFG.bLength c0)
                None 0 (see LConfig (CFG.bLength c0) (CFG.wTotalLength c0)
                          true w0) eq_refl) as Hloop.
  destruct (parse_interfaces (Z.to_nat (CFG.bNumInterfaces c0)) mem
              (0 + CFG.bLength c0) (CFG.wTotalLength c0 - CFG.bLength c0)
              None 0 (see LConfig (CFG.bLength c0) (CFG.wTotalLength c0)
                        true w0)) as [[[[[ifs x] xl] r] w1]|]; [|contradiction].
  destruct Hloop as (Hifs & Hn & Hx & Hend).
  split; [left; split; assumption|].
  intros Hr.
  destruct Hend as [?|(Hle & (evs & Hs1 & Hok & Ht) & rs & Hr1 & Hk & Htl
                       & Hnr & _)]; [lia|].
  split.
  - exists (Build_met LConfig (CFG.bLength c0) (CFG.wTotalLength c0) true
              :: evs).
    rewrite Hs1. unfold see. cbn [seen]. rewrite Hs0, <- app_assoc.
    split; [reflexivity|]. split.
    + constructor; [|exact Hok]. unfold taken_ok.
      cbn [m_taken m_remaining m_bLength m_level].
      split; [reflexivity|]. split; [lia | now left].
    + change (CFG.bLength c0 + taken_bytes evs = CFG.wTotalLength c0 - r). lia.
  - exists rs. change (runs w1 = runs w0 ++ rs) in Hr1.
    split; [congruence|]. split; [exact Hk|]. split; [exact Htl|].
    exact Hnr.
Qed.

(** Past the first interface slot the configuration-level scan finds
    nothing to step over: the decoders of the slot before have taken
    every class or vendor descriptor up to the next proper one. *)
Lemma later_runs_empty (config : CFG.t) (mem : list byte) (w : world) :
  exists c r w',
    parse_configuration config mem w = Some (c, r, w') /\
    (0 <= r -> exists rs, runs w' = runs w ++ rs /\ all_empty (tl rs)).
Proof.
  pose proof (parse_configuration_spec config mem w) as H.
  destruct (parse_configuration config mem w) as [[[c r] w']|];
    [|contradiction].
  exists c, r, w'. split; [reflexivity|]. intros Hr.
  destruct H as [_ H]. destruct (H Hr) as [_ (rs & Hrs & _ & He & _)].
  exists rs. auto.
Qed.

Lemma finish_altsetting_over_limit (alts : list ALT.t) (ifp : ALT.t)
    (mem : list byte) (buffer size parsed : Z) (w : world) :
  ALT.bNumEndpoints ifp > USB_MAXENDPOINTS ->
  exists r,
    finish_altsetting alts ifp mem buffer size parsed w
    = Some (alts ++ [ifp], Return r, w) /\
    (r = LIBUSB_ERROR_IO \/
     (r = parsed /\ DESC_HEADER_LENGTH <= size /\
      (h_bDescriptorType (read_header mem buffer) = LIBUSB_DT_CONFIG \/
       h_bDescriptorType (read_header mem buffer) = LIBUSB_DT_DEVICE))).
Proof.
  intros Hover. unfold finish_altsetting.
  destruct (size >=? DESC_HEADER_LENGTH) eqn:Hs; cbn [andb].
  - destruct (h_bDescriptorType (read_header mem buffer) =? LIBUSB_DT_CONFIG)
      eqn:Hc; cbn [orb].
    + exists parsed. split; [reflexivity|]. right. zb. intuition lia.
    + destruct (h_bDescriptorType (read_header mem buffer) =? LIBUSB_DT_DEVICE)
        eqn:Hd.
      * exists parsed. split; [reflexivity|]. right. zb. intuition lia.
      * exists LIBUSB_ERROR_IO.
        destruct (ALT.bNumEndpoints ifp >? USB_MAXENDPOINTS) eqn:E; zb;
          [auto | lia].
  - exists LIBUSB_ERROR_IO.
    destruct (ALT.bNumEndpoints ifp >? USB_MAXENDPOINTS) eqn:E; zb;
      [auto | lia].
Qed.

(** ** Round trip of the field codec *)

Lemma to_u8_lor_low (h l : Z) :
  to_u8 (Z.lor (Z.shiftl h 8) l) = to_u8 l.
Proof.
  rewrite <- to_u8_mod, <- (to_u8_mod l). f_equal.
  change 256 with (2 ^ 8). rewrite <- !Z.land_ones by lia.
  rewrite Z.land_lor_distr_l.
  rewrite (Z.land_ones (Z.shiftl h 8)) by lia.
  rewrite Z.shiftl_mul_pow2 by lia. rewrite Z.mod_mul by lia.
  apply Z.lor_0_l.
Qed.

Lemma shiftr_lor_high (h l : Z) :
  0 <= l < 256 -> Z.shiftr (Z.lor (Z.shiftl h 8) l) 8 = h.
Proof.
  intros Hl. rewrite Z.shiftr_lor.
  rewrite Z.shiftr_shiftl_l by lia. change (8 - 8) with 0.
  rewrite Z.shiftl_0_r.
  rewrite (Z.shiftr_div_pow2 l) by lia. change (2 ^ 8) with 256.
  rewrite Z.div_small by lia. apply Z.lor_0_r.
Qed.

Lemma map_seq_from {A : Type} (f : nat -> A) (a n : nat) :
  map f (seq a n) = map (fun i => f (a + i)%nat) (seq 0 n).
Proof.
  revert f. induction a as [|a IH]; intros f; [reflexivity|].
  rewrite <- seq_shift, map_map, IH. reflexivity.
Qed.

Lemma memcpy_app (mem : list byte) (b n1 n2 : Z) :
  0 <= n1 -> 0 <= n2 ->
  memcpy mem b (n1 + n2) = memcpy mem b n1 ++ memcpy mem (b + n1) n2.
Proof.
  intros H1 H2. unfold memcpy.
  rewrite Z2Nat.inj_add by lia. rewrite seq_app, map_app. f_equal.
  cbn [Nat.add]. rewrite map_seq_from. apply map_ext. intros i.
  f_equal. lia.
Qed.

Lemma memcpy_1 (mem : list byte) (b : Z) : memcpy mem b 1 = [rd mem b].
Proof.
  unfold memcpy. change (Z.to_nat 1) with 1%nat. cbn [seq map].
  change (Z.of_nat 0) with 0. now rewrite Z.add_0_r.
Qed.

Lemma memcpy_cons (mem : list byte) (b n : Z) :
  0 <= n -> memcpy mem b (1 + n) = rd mem b :: memcpy mem (b + 1) n.
Proof.
  intros H. rewrite memcpy_app by lia. now rewrite memcpy_1.
Qed.

Lemma memcpy_2 (mem : list byte) (b n : Z) :
  0 <= n ->
  memcpy mem b (2 + n) = rd mem b :: rd mem (b + 1) :: memcpy mem (b + 2) n.
Proof.
  intros H. replace (2 + n) with (1 + (1 + n)) by lia.
  rewrite !memcpy_cons by lia. now replace (b + 1 + 1) with (b + 2) by lia.
Qed.

Lemma memcpy_4 (mem : list byte) (b n : Z) :
  0 <= n ->
  memcpy mem b (4 + n)
  = rd mem b :: rd mem (b + 1) :: rd mem (b + 2) :: rd mem (b + 3)
    :: memcpy mem (b + 4) n.
Proof.
  intros H. replace (4 + n) with (2 + (2 + n)) by lia.
  rewrite !memcpy_2 by lia.
  replace (b + 2 + 1) with (b + 3) by lia.
  now replace (b + 2 + 2) with (b + 4) by lia.
Qed.

(** A buffer read from its first byte to its last is the buffer. *)
Lemma memcpy_all (mem : list byte) :
  memcpy mem 0 (Z.of_nat (length mem)) = mem.
Proof.
  unfold memcpy. rewrite Nat2Z.id.
  apply nth_ext with (d := x00) (d' := x00).
  - now rewrite length_map, length_seq.
  - intros n Hn. rewrite length_map, length_seq in Hn.
    rewrite (nth_indep _ x00 (rd mem 0)) by (now rewrite length_map, length_seq).
    rewrite (map_nth (fun i => rd mem (0 + Z.of_nat i)) (seq 0 (length mem)) 0%nat).
    rewrite seq_nth by exact Hn. unfold rd. cbn [Nat.add Z.add].
    now rewrite Nat2Z.id.
Qed.

(** Re-encoding what the codec stored gives back the source bytes it
    consumed, whatever the format. *)
Lemma parse_fields_encode (mem : list byte) :
  forall (descriptor : string) (sp dp : Z),
    sp <= snd (parse_fields mem descriptor sp dp) /\
    encode_fields (fst (parse_fields mem descriptor sp dp))
    = memcpy mem sp (snd (parse_fields mem descriptor sp dp) - sp).
Proof.
  induction descriptor as [|c cp IH]; intros sp dp; cbn [parse_fields].
  - cbn. split; [lia|]. now rewrite Z.sub_diag.
  - repeat match goal with
           | |- context [if ?b then _ else _] => destruct b
           end;
      try match goal with
          | |- context [parse_fields mem cp ?s ?d] =>
              specialize (IH s d); destruct (parse_fields mem cp s d) as [fs e];
              cbn [fst snd] in *; destruct IH as [Hle IH]; split; [lia|];
              unfold encode_fields in *; cbn [flat_map snd encode_field];
              rewrite IH
          end.
    + replace (e - sp) with (1 + (e - (sp + 1))) by lia.
      now rewrite memcpy_cons by lia.
    + replace (e - sp) with (2 + (e - (sp + 2))) by lia.
      rewrite memcpy_2 by lia.
      rewrite to_u8_lor_low, shiftr_lor_high by apply u8_range.
      rewrite !to_u8_u8. reflexivity.
    + replace (e - sp) with (4 + (e - (sp + 4))) by lia.
      rewrite memcpy_4 by lia.
      set (b0 := u8 (rd mem sp)). set (b1 := u8 (rd mem (sp + 1))).
      set (b2 := u8 (rd mem (sp + 2))). set (b3 := u8 (rd mem (sp + 3))).
      assert (E : Z.lor (Z.lor (Z.lor (Z.shiftl b3 24) (Z.shiftl b2 16))
                               (Z.shiftl b1 8)) b0
                  = Z.lor (Z.shiftl (Z.lor (Z.shiftl (Z.lor (Z.shiftl b3 8) b2)
                                                     8) b1) 8) b0).
      { rewrite !Z.shiftl_lor, !Z.shiftl_shiftl by lia. reflexivity. }
      rewrite E. clear E.
      change 24 with (8 + (8 + 8)). change 16 with (8 + 8).
      rewrite <- !Z.shiftr_shiftr by lia.
      rewrite to_u8_lor_low.
      rewrite !shiftr_lor_high by apply u8_range.
      rewrite !to_u8_lor_low. subst b0 b1 b2 b3. rewrite !to_u8_u8.
      reflexivity.
    + replace (e - sp) with (2 + (e - (sp + 2))) by lia.
      now rewrite memcpy_2 by lia.
    + replace (e - sp) with (4 + (e - (sp + 4))) by lia.
      now rewrite memcpy_4 by lia.
    + reflexivity.
Qed.

(** ** The loop of the ASCII reduction *)

Lemma store_same (data : Z -> byte) (i : Z) (v : byte) : store data i v i = v.
Proof. unfold store. now rewrite Z.eqb_refl. Qed.

Lemma store_other (data : Z -> byte) (i j : Z) (v : byte) :
  j <> i -> store data i v j = data j.
Proof. unfold store. intros H. apply Z.eqb_neq in H. now rewrite H. Qed.

Lemma reduce_to_ascii_spec (tbuf : list byte) (length : Z) :
  forall (fuel : nat) (data : Z -> byte) (di si : Z),
  di <= length - 1 ->
  match reduce_to_ascii fuel tbuf length data di si with
  | None => (fuel < Z.to_nat (u8 (rd tbuf 0) - si))%nat
  | Some (data', di') =>
      di <= di' <= length - 1 /\
      (forall j, j < di \/ di' <= j -> data' j = data j) /\
      (forall k, 0 <= k < di' - di ->
                 si + 2 * k < u8 (rd tbuf 0) /\
                 data' (di + k) = ascii_of tbuf (si + 2 * k)) /\
      (di' = length - 1 \/ u8 (rd tbuf 0) <= si + 2 * (di' - di))
  end.
Proof.
  induction fuel as [|fuel IH]; intros data di si Hdi; cbn [reduce_to_ascii].
  - destruct (si <? u8 (rd tbuf 0)) eqn:Hsi; zb; [lia|].
    split; [lia|]. split; [reflexivity|]. split; [intros; lia | right; lia].
  - destruct (si <? u8 (rd tbuf 0)) eqn:Hsi; zb.
    2: { split; [lia|]. split; [reflexivity|].
         split; [intros; lia | right; lia]. }
    destruct (di >=? length - 1) eqn:Hcap; zb.
    { split; [lia|]. split; [reflexivity|].
      split; [intros; lia | left; lia]. }
    set (c := if negb (u8 (rd tbuf (si + 1)) =? 0) then "?"%byte
              else rd tbuf si).
    assert (Hc : c = ascii_of tbuf si).
    { unfold c, ascii_of. now destruct (u8 (rd tbuf (si + 1)) =? 0). }
    assert (Hstep :
      match reduce_to_ascii fuel tbuf length (store data di c) (di + 1)
              (si + 2) with
      | None => (S fuel < Z.to_nat (u8 (rd tbuf 0) - si))%nat
      | Some (data', di') =>
          di <= di' <= length - 1 /\
          (forall j, j < di \/ di' <= j -> data' j = data j) /\
          (forall k, 0 <= k < di' - di ->
                     si + 2 * k < u8 (rd tbuf 0) /\
                     data' (di + k) = ascii_of tbuf (si + 2 * k)) /\
          (di' = length - 1 \/ u8 (rd tbuf 0) <= si + 2 * (di' - di))
      end).
    { specialize (IH (store data di c) (di + 1) (si + 2) ltac:(lia)).
      destruct (reduce_to_ascii fuel tbuf length (store data di c) (di + 1)
                  (si + 2)) as [[data' di']|]; [|lia].
      destruct IH as (Hr & Hframe & Hchars & Hend).
      split; [lia|]. split; [|split].
      - intros j Hj. rewrite Hframe by lia. apply store_other. lia.
      - intros k Hk. destruct (Z.eq_dec k 0) as [->|Hk0].
        + replace (si + 2 * 0) with si by lia.
          replace (di + 0) with di by lia. split; [lia|].
          rewrite Hframe by lia. now rewrite store_same.
        + destruct (Hchars (k - 1) ltac:(lia)) as [H1 H2].
          replace (di + 1 + (k - 1)) with (di + k) in H2 by lia.
          replace (si + 2 + 2 * (k - 1)) with (si + 2 * k) in * by lia.
          auto.
      - destruct Hend as [?|?]; [now left | right; lia]. }
    unfold c in Hstep.
    destruct (negb (u8 (rd tbuf (si + 1)) =? 0)); exact Hstep.
Qed.

(** ** Lookup by configuration value *)

Lemma probe_configurations_spec (dev : libusb_device) (value found : Z) :
  forall (n : nat) (i : Z),
  (forall j, i <= j < i + Z.of_nat n ->
             exists v, probes dev j v /\ v <> value) ->
  probe_configurations n dev value i found = Some (i + Z.of_nat n, found).
Proof.
  induction n as [|n IH]; intros i Hall; cbn [probe_configurations].
  - do 2 f_equal. cbn. lia.
  - destruct (Hall i ltac:(lia)) as (v & [Hr Hv] & Hne).
    destruct (backend_get_config_descriptor dev i 6) as [r tmp].
    cbn [fst snd] in Hr, Hv.
    destruct (r <? 0) eqn:E; zb; [lia|].
    rewrite Hv. destruct (v =? value) eqn:E'; zb; [contradiction|].
    rewrite IH by (intros j Hj; apply Hall; lia).
    do 2 f_equal. lia.
Qed.

Lemma probe_configurations_found (dev : libusb_device) (value found : Z) :
  forall (n : nat) (i k : Z),
  i <= k < i + Z.of_nat n ->
  (forall j, i <= j < k -> exists v, probes dev j v /\ v <> value) ->
  probes dev k value ->
  probe_configurations n dev value i found = Some (k, 1).
Proof.
  induction n as [|n IH]; intros i k Hk Hall Hhit; cbn [probe_configurations].
  - lia.
  - destruct (Z.eq_dec i k) as [->|Hne].
    + destruct Hhit as [Hr Hv].
      destruct (backend_get_config_descriptor dev k 6) as [r tmp].
      cbn [fst snd] in Hr, Hv.
      destruct (r <? 0) eqn:E; zb; [lia|].
      now rewrite Hv, Z.eqb_refl.
    + destruct (Hall i ltac:(lia)) as (v & [Hr Hv] & Hv').
      destruct (backend_get_config_descriptor dev i 6) as [r tmp].
      cbn [fst snd] in Hr, Hv.
      destruct (r <? 0) eqn:E; zb; [lia|].
      rewrite Hv. destruct (v =? value) eqn:E'; zb; [contradiction|].
      apply IH; [lia| |exact Hhit]. intros j Hj. apply Hall. lia.
Qed.

Lemma u8_to_u8 (z : Z) : 0 <= z < 256 -> u8 (to_u8 z) = z.
Proof.
  intros Hz. unfold u8, to_u8. rewrite Z.mod_small by exact Hz.
  destruct (Byte.of_N (Z.to_N z)) as [b|] eqn:E.
  - apply Byte.to_of_N in E. rewrite E. lia.
  - apply Byte.of_N_None_iff in E. lia.
Qed.

Lemma len_nonneg {A : Type} (l : list A) : 0 <= len l.
Proof. unfold len. lia. Qed.

Lemma len_app {A : Type} (l1 l2 : list A) : len (l1 ++ l2) = len l1 + len l2.
Proof. unfold len. rewrite length_app. lia. Qed.

Lemma len_cons {A : Type} (x : A) (l : list A) : len (x :: l) = 1 + len l.
Proof. unfold len. cbn [length]. lia. Qed.

Lemma len_nil {A : Type} : len (@nil A) = 0.
Proof. reflexivity. Qed.

Lemma follows_app_l (mem : list byte) (b : Z) (l1 l2 : list byte) :
  follows mem b (l1 ++ l2) -> follows mem b l1.
Proof.
  intros H i Hi. rewrite H by (rewrite length_app; lia).
  now apply app_nth1.
Qed.

Lemma follows_app_r (mem : list byte) (b : Z) (l1 l2 : list byte) :
  follows mem b (l1 ++ l2) -> follows mem (b + len l1) l2.
Proof.
  intros H i Hi. unfold len.
  replace (b + Z.of_nat (length l1) + Z.of_nat i)
    with (b + Z.of_nat (length l1 + i)) by lia.
  rewrite H by (rewrite length_app; lia).
  rewrite app_nth2 by lia. f_equal. lia.
Qed.

Lemma follows_start (l tail : list byte) : follows (l ++ tail) 0 l.
Proof.
  intros i Hi. unfold rd. cbn [Z.add]. rewrite Nat2Z.id.
  now apply app_nth1.
Qed.

Lemma follows_rd (mem : list byte) (b : Z) (l : list byte) (i : nat) :
  follows mem b l -> (i < length l)%nat ->
  u8 (rd mem (b + Z.of_nat i)) = byte_at l i.
Proof. intros H Hi. unfold byte_at. now rewrite H. Qed.

Lemma follows_memcpy (mem : list byte) (b : Z) (l : list byte) :
  follows mem b l -> memcpy mem b (len l) = l.
Proof.
  intros H. apply nth_ext with (d := x00) (d' := x00).
  - rewrite memcpy_length. unfold len. lia.
  - intros n Hn. rewrite memcpy_length in Hn. unfold len in Hn.
    rewrite Nat2Z.id in Hn. rewrite <- H by exact Hn.
    unfold memcpy, len. rewrite Nat2Z.id.
    rewrite (nth_indep _ x00 (rd mem (b + Z.of_nat 0)))
      by (now rewrite length_map, length_seq).
    rewrite (map_nth (fun i => rd mem (b + Z.of_nat i)) (seq 0 (length l))
               0%nat).
    now rewrite seq_nth by exact Hn.
Qed.

Lemma follows_header (mem : list byte) (b : Z) (x0 x1 : byte)
    (l : list byte) :
  follows mem b (x0 :: x1 :: l) ->
  read_header mem b = Build_usb_descriptor_header (u8 x0) (u8 x1).
Proof.
  intros H. rewrite read_header_eq.
  pose proof (H 0%nat ltac:(cbn; lia)) as H0.
  pose proof (H 1%nat ltac:(cbn; lia)) as H1.
  cbn [nth Z.of_nat Pos.of_succ_nat] in H0, H1.
  rewrite Z.add_0_r in H0. now rewrite H0, H1.
Qed.

(** ** What the codec stores for the formats of the decoders *)

Ltac offsets b :=
  replace (b + 1 + 1) with (b + 2) by lia;
  replace (b + 2 + 1) with (b + 3) by lia;
  replace (b + 3 + 1) with (b + 4) by lia;
  replace (b + 4 + 1) with (b + 5) by lia;
  replace (b + 4 + 2) with (b + 6) by lia;
  replace (b + 5 + 1) with (b + 6) by lia;
  replace (b + 6 + 1) with (b + 7) by lia;
  replace (b + 7 + 1) with (b + 8) by lia.

Lemma endpoint_store_audio (mem : list byte) (b : Z) :
  EP.store (fst (usbi_parse_descriptor mem b "bbbbwbbb")) EP.zero
  = EP.Build_t (u8 (rd mem b)) (u8 (rd mem (b + 1))) (u8 (rd mem (b + 2)))
      (u8 (rd mem (b + 3)))
      (Z.lor (Z.shiftl (u8 (rd mem (b + 5))) 8) (u8 (rd mem (b + 4))))
      (u8 (rd mem (b + 6))) (u8 (rd mem (b + 7))) (u8 (rd mem (b + 8)))
      None 0.
Proof.
  transitivity
    (EP.Build_t (u8 (rd mem b)) (u8 (rd mem (b + 1)))
       (u8 (rd mem (b + 1 + 1))) (u8 (rd mem (b + 1 + 1 + 1)))
       (Z.lor (Z.shiftl (u8 (rd mem (b + 1 + 1 + 1 + 1 + 1))) 8)
              (u8 (rd mem (b + 1 + 1 + 1 + 1))))
       (u8 (rd mem (b + 1 + 1 + 1 + 1 + 2)))
       (u8 (rd mem (b + 1 + 1 + 1 + 1 + 2 + 1)))
       (u8 (rd mem (b + 1 + 1 + 1 + 1 + 2 + 1 + 1))) None 0);
    [reflexivity|].
  now offsets b.
Qed.

Lemma endpoint_store_plain (mem : list byte) (b : Z) :
  EP.store (fst (usbi_parse_descriptor mem b "bbbbwb")) EP.zero
  = EP.Build_t (u8 (rd mem b)) (u8 (rd mem (b + 1))) (u8 (rd mem (b + 2)))
      (u8 (rd mem (b + 3)))
      (Z.lor (Z.shiftl (u8 (rd mem (b + 5))) 8) (u8 (rd mem (b + 4))))
      (u8 (rd mem (b + 6))) 0 0 None 0.
Proof.
  transitivity
    (EP.Build_t (u8 (rd mem b)) (u8 (rd mem (b + 1)))
       (u8 (rd mem (b + 1 + 1))) (u8 (rd mem (b + 1 + 1 + 1)))
       (Z.lor (Z.shiftl (u8 (rd mem (b + 1 + 1 + 1 + 1 + 1))) 8)
              (u8 (rd mem (b + 1 + 1 + 1 + 1))))
       (u8 (rd mem (b + 1 + 1 + 1 + 1 + 2))) 0 0 None 0);
    [reflexivity|].
  now offsets b.
Qed.

Lemma new_altsetting_eq (mem : list byte) (b : Z) :
  new_altsetting mem b
  = ALT.Build_t (u8 (rd mem b)) (u8 (rd mem (b + 1))) (u8 (rd mem (b + 2)))
      (u8 (rd mem (b + 3))) (u8 (rd mem (b + 4))) (u8 (rd mem (b + 5)))
      (u8 (rd mem (b + 6))) (u8 (rd mem (b + 7))) (u8 (rd mem (b + 8)))
      None None 0.
Proof.
  transitivity
    (ALT.Build_t (u8 (rd mem b)) (u8 (rd mem (b + 1)))
       (u8 (rd mem (b + 1 + 1))) (u8 (rd mem (b + 1 + 1 + 1)))
       (u8 (rd mem (b + 1 + 1 + 1 + 1)))
       (u8 (rd mem (b + 1 + 1 + 1 + 1 + 1)))
       (u8 (rd mem (b + 1 + 1 + 1 + 1 + 1 + 1)))
       (u8 (rd mem (b + 1 + 1 + 1 + 1 + 1 + 1 + 1)))
       (u8 (rd mem (b + 1 + 1 + 1 + 1 + 1 + 1 + 1 + 1))) None None 0);
    [reflexivity|].
  now offsets b.
Qed.

Lemma config_store_eq (mem : list byte) (config : CFG.t) :
  CFG.store (fst (usbi_parse_descriptor mem 0 "bbwbbbbb")) config
  = CFG.Build_t (u8 (rd mem 0)) (u8 (rd mem 1))
      (Z.lor (Z.shiftl (u8 (rd mem 3)) 8) (u8 (rd mem 2)))
      (u8 (rd mem 4)) (u8 (rd mem 5)) (u8 (rd mem 6)) (u8 (rd mem 7))
      (u8 (rd mem 8)) (CFG.interface config) (CFG.extra config)
      (CFG.extra_length config).
Proof. reflexivity. Qed.

Lemma unknown_bytes_len (u : Unknown) :
  len (unknown_bytes u) = 2 + len (u_body u).
Proof. unfold unknown_bytes. rewrite !len_cons. lia. Qed.

Lemma unknowns_bytes_cons (u : Unknown) (us : list Unknown) :
  unknowns_bytes (u :: us) = unknown_bytes u ++ unknowns_bytes us.
Proof. reflexivity. Qed.

(** The scan steps over a run of well-formed class or vendor descriptors
    and stops right behind it. *)
Lemma skip_unknowns (lvl : level) (bounded : bool) (mem : list byte)
    (rest : list byte) :
  proper_head rest ->
  forall (us : list Unknown) (fuel : nat) (b size parsed : Z) (w : world),
  Forall wf_unknown us ->
  follows mem b (unknowns_bytes us ++ rest) ->
  size = len (unknowns_bytes us ++ rest) ->
  (Z.to_nat size <= fuel)%nat ->
  exists b' s' p' w',
    skip_descriptors lvl bounded fuel mem b size parsed w
    = Some (ScanStop b' s' p' w') /\
    b' = b + len (unknowns_bytes us) /\ s' = len rest /\
    p' = parsed + len (unknowns_bytes us) /\
    oracle w' = oracle w /\ allocs w' = allocs w.
Proof.
  intros Hrest. induction us as [|u us IH];
    intros fuel b size parsed w Hwf Hmem Hsize Hfuel.
  - cbn [unknowns_bytes flat_map app] in *. rewrite len_nil.
    exists b, size, parsed, w.
    split; [|repeat split; auto; lia].
    destruct fuel as [|fuel]; cbn [skip_descriptors];
      unfold DESC_HEADER_LENGTH;
      destruct (size <? 2) eqn:E; zb; try reflexivity; [lia|].
    destruct rest as [|x0 [|x1 rest]];
      [rewrite len_nil in Hsize; lia
      |rewrite len_cons, len_nil in Hsize; lia|].
    rewrite (follows_header _ _ _ _ _ Hmem). cbn [h_bLength h_bDescriptorType].
    destruct Hrest as [Hl Hp]. rewrite Hp.
    destruct (u8 x0 >? size) eqn:E1; zb; [lia|].
    destruct (u8 x0 <? 2) eqn:E2; zb; [lia|].
    now rewrite andb_false_r.
  - rewrite unknowns_bytes_cons, <- app_assoc in Hmem, Hsize.
    apply Forall_cons_iff in Hwf. destruct Hwf as [[Hb Ht] Hwf].
    pose proof (len_nonneg (u_body u)) as Hb0.
    pose proof (len_nonneg (unknowns_bytes us ++ rest)) as Hr0.
    rewrite len_app, unknown_bytes_len in Hsize.
    destruct fuel as [|fuel]; [lia|].
    cbn [skip_descriptors]. unfold DESC_HEADER_LENGTH.
    destruct (size <? 2) eqn:E; zb; [lia|].
    pose proof Hmem as Hhead. unfold unknown_bytes in Hhead.
    cbn [app] in Hhead.
    rewrite (follows_header _ _ _ _ _ Hhead).
    cbn [h_bLength h_bDescriptorType].
    rewrite u8_to_u8 by lia. rewrite Ht.
    destruct (2 + len (u_body u) >? size) eqn:E1; zb; [lia|].
    destruct (2 + len (u_body u) <? 2) eqn:E2; zb; [lia|].
    rewrite andb_false_r. cbn [orb].
    apply follows_app_r in Hmem. rewrite unknown_bytes_len in Hmem.
    destruct (IH fuel (b + (2 + len (u_body u))) (size - (2 + len (u_body u)))
                (parsed + (2 + len (u_body u)))
                (see lvl (2 + len (u_body u)) size true w) Hwf Hmem
                ltac:(lia) ltac:(lia))
      as (b' & s' & p' & w' & Hs & Hb' & Hs' & Hp' & Ho & Ha).
    exists b', s', p', w'. split; [exact Hs|].
    rewrite unknowns_bytes_cons, len_app, unknown_bytes_len.
    repeat split; auto; lia.
Qed.

Lemma blob_of_len (l : list byte) : len l = 0 -> blob_of l = None.
Proof. destruct l; [reflexivity|]. rewrite len_cons. pose proof (len_nonneg l). lia. Qed.

Lemma blob_of_some (l : list byte) : len l <> 0 -> blob_of l = Some l.
Proof. destruct l; [rewrite len_nil; lia | reflexivity]. Qed.

Lemma malloc_ok (a : alloc) (w : world) :
  oracle w = [] ->
  exists w', malloc a w = (true, w') /\ oracle w' = [].
Proof.
  intros H. unfold malloc. rewrite H. eexists. split; reflexivity.
Qed.

Lemma endpoint_header_len (e : Endpoint) :
  len (endpoint_header e) = 2 + len (e_body e).
Proof. unfold endpoint_header. rewrite !len_cons. lia. Qed.

Lemma endpoint_bytes_len (e : Endpoint) :
  len (endpoint_bytes e)
  = 2 + len (e_body e) + len (unknowns_bytes (e_extra e)).
Proof. unfold endpoint_bytes. now rewrite len_app, endpoint_header_len. Qed.

Lemma proper_head_endpoint (e : Endpoint) (rest : list byte) :
  wf_endpoint e -> proper_head (endpoint_bytes e ++ rest).
Proof.
  intros [Hb _]. unfold endpoint_bytes, endpoint_header.
  cbn [app proper_head]. rewrite u8_to_u8 by lia.
  rewrite !len_cons, !len_app.
  pose proof (len_nonneg (unknowns_bytes (e_extra e))).
  pose proof (len_nonneg rest). split; [lia | reflexivity].
Qed.

(** [parse_endpoint] on a well-formed endpoint descriptor. *)
Lemma parse_endpoint_wf (mem : list byte) (e : Endpoint) (rest : list byte)
    (b size : Z) (w : world) :
  wf_endpoint e -> proper_head rest ->
  follows mem b (endpoint_bytes e ++ rest) ->
  size = len (endpoint_bytes e ++ rest) ->
  oracle w = [] ->
  exists w',
    parse_endpoint EP.zero mem b size w
    = Some (endpoint_tree e, len (endpoint_bytes e), w') /\
    oracle w' = [].
Proof.
  intros [Hb Hx] Hrest Hmem Hsize Ho.
  pose proof (len_nonneg (unknowns_bytes (e_extra e))) as Hx0.
  pose proof (len_nonneg rest) as Hr0.
  rewrite len_app, endpoint_bytes_len in Hsize.
  unfold parse_endpoint.
  pose proof Hmem as Hhead. unfold endpoint_bytes, endpoint_header in Hhead.
  cbn [app] in Hhead. rewrite (follows_header _ _ _ _ _ Hhead).
  cbn [h_bLength h_bDescriptorType]. rewrite u8_to_u8 by lia.
  destruct (2 + len (e_body e) >? size) eqn:E1; zb; [lia|]. clear E1.
  change (negb (u8 x05 =? LIBUSB_DT_ENDPOINT)) with false. cbn iota.
  unfold endpoint_bytes in Hmem. rewrite <- app_assoc in Hmem.
  pose proof (follows_app_l _ _ _ _ Hmem) as Hh.
  apply follows_app_r in Hmem. rewrite endpoint_header_len in Hmem.
  destruct (skip_unknowns LEndpointExtra false mem rest Hrest (e_extra e)
              (Z.to_nat (size - (2 + len (e_body e))))
              (b + (2 + len (e_body e))) (size - (2 + len (e_body e)))
              (0 + (2 + len (e_body e)))
              (see LEndpoint (2 + len (e_body e)) size true w) Hx Hmem
              ltac:(rewrite len_app; lia) ltac:(lia))
    as (b' & s' & p' & w1 & Hs & -> & -> & -> & Ho1 & _).
  rewrite Hs. change (oracle w1 = oracle w) in Ho1. rewrite Ho in Ho1.
  replace (b + (2 + len (e_body e)) + len (unknowns_bytes (e_extra e))
           - (b + (2 + len (e_body e))))
    with (len (unknowns_bytes (e_extra e))) by lia.
  assert (Hfields :
    (if 2 + len (e_body e) >=? ENDPOINT_AUDIO_DESC_LENGTH
     then EP.store (fst (usbi_parse_descriptor mem b "bbbbwbbb")) EP.zero
     else if 2 + len (e_body e) >=? ENDPOINT_DESC_LENGTH
          then EP.store (fst (usbi_parse_descriptor mem b "bbbbwb")) EP.zero
          else EP.zero)
    = EP.set_extra None 0 (endpoint_tree e)).
  { assert (R : forall i, (i < length (endpoint_header e))%nat ->
                  u8 (rd mem (b + Z.of_nat i)) = byte_at (endpoint_header e) i)
      by (intros i Hi; now apply follows_rd).
    pose proof (endpoint_header_len e) as Hl. unfold len in Hl, Hb.
    pose proof (R 0%nat ltac:(lia)) as R0. pose proof (R 1%nat ltac:(lia)) as R1.
    pose proof (R 2%nat ltac:(lia)) as R2. pose proof (R 3%nat ltac:(lia)) as R3.
    pose proof (R 4%nat ltac:(lia)) as R4. pose proof (R 5%nat ltac:(lia)) as R5.
    pose proof (R 6%nat ltac:(lia)) as R6.
    cbn [Z.of_nat Pos.of_succ_nat Pos.succ] in R0, R1, R2, R3, R4, R5, R6.
    rewrite Z.add_0_r in R0.
    assert (B0 : byte_at (endpoint_header e) 0 = 2 + len (e_body e)).
    { unfold byte_at, endpoint_header. cbn [nth]. apply u8_to_u8.
      unfold len. lia. }
    assert (B1 : byte_at (endpoint_header e) 1 = LIBUSB_DT_ENDPOINT)
      by reflexivity.
    unfold endpoint_tree. rewrite endpoint_header_len.
    destruct (2 + len (e_body e) >=? ENDPOINT_AUDIO_DESC_LENGTH) eqn:E9.
    - unfold ENDPOINT_AUDIO_DESC_LENGTH in E9. zb. unfold len in E9.
      pose proof (R 7%nat ltac:(lia)) as R7.
      pose proof (R 8%nat ltac:(lia)) as R8.
      cbn [Z.of_nat Pos.of_succ_nat Pos.succ] in R7, R8.
      rewrite endpoint_store_audio.
      rewrite R0, R1, R2, R3, R4, R5, R6, R7, R8, B0, B1. reflexivity.
    - destruct (2 + len (e_body e) >=? ENDPOINT_DESC_LENGTH) eqn:E7.
      + rewrite endpoint_store_plain.
        rewrite R0, R1, R2, R3, R4, R5, R6, B0, B1. reflexivity.
      + unfold ENDPOINT_DESC_LENGTH in E7. zb. unfold len in E7. lia. }
  rewrite Hfields.
  destruct (len (unknowns_bytes (e_extra e)) =? 0) eqn:Ez; zb.
  - exists w1. split; [|exact Ho1]. do 3 f_equal.
    + unfold EP.set_extra, endpoint_tree. cbn [EP.bLength EP.bDescriptorType
        EP.bEndpointAddress EP.bmAttributes EP.wMaxPacketSize EP.bInterval
        EP.bRefresh EP.bSynchAddress].
      now rewrite blob_of_len, Ez.
    + rewrite endpoint_bytes_len. lia.
  - destruct (malloc_ok (AExtra (len (unknowns_bytes (e_extra e)))) w1 Ho1)
      as (w2 & Hm & Ho2).
    rewrite Hm. exists w2. split; [|exact Ho2]. do 3 f_equal.
    + rewrite (follows_memcpy mem _ (unknowns_bytes (e_extra e)))
        by (now apply follows_app_l in Hmem).
      unfold EP.set_extra, endpoint_tree. cbn [EP.bLength EP.bDescriptorType
        EP.bEndpointAddress EP.bmAttributes EP.wMaxPacketSize EP.bInterval
        EP.bRefresh EP.bSynchAddress].
      now rewrite blob_of_some.
    + rewrite endpoint_bytes_len. lia.
Qed.

Lemma proper_head_endpoints (es : list Endpoint) (rest : list byte) :
  Forall wf_endpoint es -> proper_head rest ->
  proper_head (flat_map endpoint_bytes es ++ rest).
Proof.
  intros Hes Hrest. destruct Hes as [|e es He _]; [exact Hrest|].
  cbn [flat_map]. rewrite <- app_assoc. now apply proper_head_endpoint.
Qed.

(** The endpoint loop on well-formed endpoint descriptors. *)
Lemma parse_endpoints_wf (mem : list byte) (rest : list byte) :
  proper_head rest ->
  forall (es : list Endpoint) (b size parsed : Z) (w : world),
  Forall wf_endpoint es ->
  follows mem b (flat_map endpoint_bytes es ++ rest) ->
  size = len (flat_map endpoint_bytes es ++ rest) ->
  oracle w = [] ->
  exists b' p' w',
    parse_endpoints (length es) mem b size parsed w
    = Some (map endpoint_tree es, Continue b' (len rest) p', w') /\
    b' = b + len (flat_map endpoint_bytes es) /\
    p' = parsed + len (flat_map endpoint_bytes es) /\
    oracle w' = [].
Proof.
  intros Hrest. induction es as [|e es IH]; intros b size parsed w Hes Hmem
    Hsize Ho.
  - cbn [flat_map app length parse_endpoints map] in *. rewrite len_nil.
    exists b, parsed, w. subst size. repeat split; auto; lia.
  - apply Forall_cons_iff in Hes. destruct Hes as [He Hes].
    cbn [flat_map] in Hmem, Hsize. rewrite <- app_assoc in Hmem, Hsize.
    pose proof (proper_head_endpoints es rest Hes Hrest) as Hnext.
    destruct (parse_endpoint_wf mem e _ b size w He Hnext Hmem Hsize Ho)
      as (w1 & Hp & Ho1).
    pose proof (len_nonneg (flat_map endpoint_bytes es ++ rest)) as Hr0.
    pose proof (len_nonneg (unknowns_bytes (e_extra e))) as Hx0.
    pose proof (len_nonneg (e_body e)) as Hb0.
    rewrite len_app in Hsize. pose proof (endpoint_bytes_len e) as Hl.
    cbn [length parse_endpoints].
    pose proof Hmem as Hhead. unfold endpoint_bytes at 1 in Hhead.
    unfold endpoint_header in Hhead. cbn [app] in Hhead.
    rewrite (follows_header _ _ _ _ _ Hhead). cbn [h_bLength].
    destruct He as [Hb _]. rewrite u8_to_u8 by lia.
    destruct (2 + len (e_body e) >? size) eqn:E1; zb; [lia|]. clear E1.
    rewrite Hp.
    destruct (len (endpoint_bytes e) <? 0) eqn:E2; zb; [lia|]. clear E2.
    apply follows_app_r in Hmem.
    destruct (IH (b + len (endpoint_bytes e)) (size - len (endpoint_bytes e))
                (parsed + len (endpoint_bytes e)) w1 Hes Hmem ltac:(lia) Ho1)
      as (b' & p' & w2 & Hrec & -> & -> & Ho2).
    rewrite Hrec. cbn [map flat_map]. rewrite len_app.
    eexists _, _, w2. split; [reflexivity|]. repeat split; auto; lia.
Qed.

Lemma alt_header_len (a : Alt) : len (alt_header a) = 9.
Proof. reflexivity. Qed.

Lemma alt_bytes_len (a : Alt) :
  len (alt_bytes a)
  = 9 + len (unknowns_bytes (a_extra a))
    + len (flat_map endpoint_bytes (a_endpoints a)).
Proof. unfold alt_bytes. rewrite !len_app, alt_header_len. lia. Qed.

Lemma proper_head_alt (a : Alt) (rest : list byte) :
  proper_head (alt_bytes a ++ rest).
Proof.
  assert (H : forall l tl, l = x09 :: x04 :: tl -> 9 <= len l -> proper_head l).
  { intros l tl -> Hl. cbn [proper_head]. change (u8 x09) with 9.
    split; [lia | reflexivity]. }
  eapply H; [reflexivity|]. rewrite len_app, alt_bytes_len.
  pose proof (len_nonneg (unknowns_bytes (a_extra a))).
  pose proof (len_nonneg (flat_map endpoint_bytes (a_endpoints a))).
  pose proof (len_nonneg rest). lia.
Qed.

Lemma after_alt_proper (rest : list byte) (next : option Alt) :
  after_alt rest next -> proper_head rest.
Proof. intros [|a r]; [exact I | apply proper_head_alt]. Qed.

Lemma next_alternate_wf (mem : list byte) (rest : list byte)
    (next : option Alt) (b p : Z) :
  after_alt rest next -> follows mem b rest ->
  next_alternate mem b (len rest) p = round_flow next b (len rest) p.
Proof.
  intros Hnext Hmem. unfold next_alternate, round_flow.
  destruct Hnext as [|a r].
  - reflexivity.
  - rewrite len_app, alt_bytes_len.
    pose proof (len_nonneg (unknowns_bytes (a_extra a))).
    pose proof (len_nonneg (flat_map endpoint_bytes (a_endpoints a))).
    pose proof (len_nonneg r).
    destruct (_ <? LIBUSB_DT_INTERFACE_SIZE) eqn:E;
      unfold LIBUSB_DT_INTERFACE_SIZE in E; zb; [lia|]. clear E.
    unfold alt_bytes in Hmem. rewrite <- app_assoc in Hmem.
    apply follows_app_l in Hmem.
    pose proof (Hmem 1%nat ltac:(cbn; lia)) as Ht.
    pose proof (Hmem 3%nat ltac:(cbn; lia)) as Ha.
    cbn [Z.of_nat Pos.of_succ_nat Pos.succ nth alt_header] in Ht, Ha.
    rewrite Ht, Ha. cbn [orb negb].
    change (u8 x04 =? LIBUSB_DT_INTERFACE) with true. cbn [negb orb].
    now destruct (u8 (a_alternate a) =? 0).
Qed.

Lemma not_unexpected (mem : list byte) (rest : list byte) (b : Z) :
  follows mem b rest ->
  (rest = [] \/ exists x0 x1 tl, rest = x0 :: x1 :: tl /\
                 (x1 = x04 \/ x1 = x05)) ->
  (len rest >=? DESC_HEADER_LENGTH)
  && ((h_bDescriptorType (read_header mem b) =? LIBUSB_DT_CONFIG)
      || (h_bDescriptorType (read_header mem b) =? LIBUSB_DT_DEVICE))
  = false.
Proof.
  intros Hmem [->|(x0 & x1 & tl & -> & Hx)]; [reflexivity|].
  rewrite (follows_header _ _ _ _ _ Hmem). cbn [h_bDescriptorType].
  destruct Hx as [->| ->]; apply andb_false_r.
Qed.

(** A round of the alternate-setting loop on a well-formed alternate
    setting. *)
Lemma parse_altsetting_wf (mem : list byte) (a : Alt) (rest : list byte)
    (next : option Alt) (alts : list ALT.t) (b size parsed : Z) (w : world) :
  wf_alt a -> after_alt rest next ->
  follows mem b (alt_bytes a ++ rest) ->
  size = len (alt_bytes a ++ rest) ->
  oracle w = [] ->
  exists w',
    parse_altsetting alts mem b size parsed w
    = Some (alts ++ [alt_tree a],
            round_flow next (b + len (alt_bytes a)) (len rest)
              (parsed + len (alt_bytes a)), w') /\
    oracle w' = [].
Proof.
  intros (Hmax & H255 & Hx & Hes) Hnext Hmem Hsize Ho.
  pose proof (len_nonneg (unknowns_bytes (a_extra a))) as Hx0.
  pose proof (len_nonneg (flat_map endpoint_bytes (a_endpoints a))) as He0.
  pose proof (len_nonneg (a_endpoints a)) as Hn0.
  pose proof (len_nonneg rest) as Hr0.
  pose proof (alt_bytes_len a) as Hla.
  rewrite len_app in Hsize.
  unfold parse_altsetting.
  destruct (malloc_ok (AAltsetting (Z.of_nat (length alts) + 1)) w Ho)
    as (w0 & Hm0 & Ho0).
  rewrite Hm0. cbn [negb].
  (* the header *)
  unfold alt_bytes in Hmem. rewrite <- !app_assoc in Hmem.
  pose proof (follows_app_l _ _ _ _ Hmem) as Hh.
  assert (R : forall i, (i < 9)%nat ->
                u8 (rd mem (b + Z.of_nat i)) = byte_at (alt_header a) i)
    by (intros i Hi; now apply follows_rd).
  pose proof (R 0%nat ltac:(lia)) as R0. pose proof (R 1%nat ltac:(lia)) as R1.
  pose proof (R 2%nat ltac:(lia)) as R2. pose proof (R 3%nat ltac:(lia)) as R3.
  pose proof (R 4%nat ltac:(lia)) as R4. pose proof (R 5%nat ltac:(lia)) as R5.
  pose proof (R 6%nat ltac:(lia)) as R6. pose proof (R 7%nat ltac:(lia)) as R7.
  pose proof (R 8%nat ltac:(lia)) as R8.
  cbn [Z.of_nat Pos.of_succ_nat Pos.succ]
    in R0, R1, R2, R3, R4, R5, R6, R7, R8.
  unfold byte_at, alt_header in R0, R1, R2, R3, R4, R5, R6, R7, R8.
  cbn [nth] in R0, R1, R2, R3, R4, R5, R6, R7, R8.
  rewrite Z.add_0_r in R0. rewrite u8_to_u8 in R4 by lia.
  rewrite new_altsetting_eq, R0, R1, R2, R3, R4, R5, R6, R7, R8.
  change (u8 x09) with 9. change (u8 x04) with 4.
  cbn [ALT.bLength].
  set (ifp := ALT.Build_t 9 4 _ _ _ _ _ _ _ None None 0).
  (* the class or vendor descriptors *)
  apply follows_app_r in Hmem. rewrite alt_header_len in Hmem.
  assert (Hrest1 : proper_head (flat_map endpoint_bytes (a_endpoints a)
                                ++ rest))
    by (apply proper_head_endpoints;
        [exact Hes | eapply after_alt_proper; eassumption]).
  destruct (skip_unknowns LInterfaceExtra false mem _ Hrest1 (a_extra a)
              (Z.to_nat (size - 9)) (b + 9) (size - 9) (parsed + 9)
              (see LInterface 9 size true w0) Hx Hmem
              ltac:(rewrite !len_app; lia) ltac:(lia))
    as (b1 & s1 & p1 & w1 & Hs & -> & -> & -> & Ho1 & _).
  rewrite Hs. change (oracle w1 = oracle w0) in Ho1. rewrite Ho0 in Ho1.
  pose proof (follows_app_l _ _ _ _ Hmem) as Hxm.
  apply follows_app_r in Hmem.
  replace (b + 9 + len (unknowns_bytes (a_extra a)) - (b + 9))
    with (len (unknowns_bytes (a_extra a))) by lia.
  (* the rest of the round, whatever the blob *)
  set (x := unknowns_bytes (a_extra a)) in *.
  assert (Hfin : forall w2, oracle w2 = [] ->
            exists w',
              finish_altsetting alts (ALT.set_extra (blob_of x) (len x) ifp)
                mem (b + 9 + len x)
                (len (flat_map endpoint_bytes (a_endpoints a) ++ rest))
                (parsed + 9 + len x) w2
              = Some (alts ++ [alt_tree a],
                      round_flow next (b + len (alt_bytes a)) (len rest)
                        (parsed + len (alt_bytes a)), w') /\
              oracle w' = []).
  { intros w2 Ho2. unfold finish_altsetting.
    rewrite (not_unexpected mem _ _ Hmem).
    2: { destruct (a_endpoints a) as [|e es].
         - cbn [flat_map app]. destruct Hnext as [|a' r]; [now left|].
           right. unfold alt_bytes, alt_header. cbn [app]. eauto 8.
         - right. cbn [flat_map]. unfold endpoint_bytes at 1, endpoint_header.
           cbn [app]. eauto 8. }
    cbn [ALT.bNumEndpoints ALT.set_extra ifp].
    destruct (len (a_endpoints a) >? USB_MAXENDPOINTS) eqn:E; zb; [lia|].
    clear E.
    destruct (len (a_endpoints a) >? 0) eqn:E; zb.
    - destruct (malloc_ok (AEndpoints (len (a_endpoints a))) w2 Ho2)
        as (w3 & Hm3 & Ho3).
      rewrite Hm3. cbn [negb].
      destruct (parse_endpoints_wf mem rest
                  (after_alt_proper _ _ Hnext) (a_endpoints a)
                  (b + 9 + len x) _ (parsed + 9 + len x) w3 Hes Hmem eq_refl
                  Ho3)
        as (b' & p' & w4 & Hpe & -> & -> & Ho4).
      unfold len at 1. rewrite Nat2Z.id. rewrite Hpe.
      exists w4. split; [|exact Ho4].
      apply follows_app_r in Hmem.
      rewrite (next_alternate_wf mem rest next _ _ Hnext Hmem).
      do 3 f_equal.
      + f_equal. f_equal. unfold alt_tree, ALT.set_endpoint, ALT.set_extra.
        cbn [ALT.bLength ALT.bDescriptorType ALT.bInterfaceNumber
             ALT.bAlternateSetting ALT.bNumEndpoints ALT.bInterfaceClass
             ALT.bInterfaceSubClass ALT.bInterfaceProtocol ALT.iInterface
             ALT.endpoint ALT.extra ALT.extra_length ifp].
        fold x. destruct (a_endpoints a) eqn:Ee;
          [unfold len in E; try rewrite Ee in E; cbn in E; lia | reflexivity].
      + f_equal; fold x in Hla; lia.
    - assert (Hnil : a_endpoints a = []).
      { destruct (a_endpoints a); [reflexivity|]. rewrite len_cons in E.
        pose proof (len_nonneg l). lia. }
      exists w2. split; [|exact Ho2].
      rewrite Hnil in Hmem, Hla |- *. cbn [flat_map app] in Hmem, Hla |- *.
      rewrite (@len_nil byte) in Hla.
      rewrite (next_alternate_wf mem rest next _ _ Hnext Hmem).
      do 3 f_equal.
      + f_equal. f_equal. unfold alt_tree, ALT.set_extra.
        cbn [ALT.bLength ALT.bDescriptorType ALT.bInterfaceNumber
             ALT.bAlternateSetting ALT.bNumEndpoints ALT.bInterfaceClass
             ALT.bInterfaceSubClass ALT.bInterfaceProtocol ALT.iInterface
             ALT.endpoint ALT.extra ALT.extra_length ifp].
        fold x. rewrite Hnil. reflexivity.
      + f_equal; fold x in Hla; lia. }
  destruct (len x =? 0) eqn:Ez; zb.
  - replace ifp with (ALT.set_extra (blob_of x) (len x) ifp)
      by (unfold ALT.set_extra, ifp; cbn; now rewrite blob_of_len, Ez).
    now apply Hfin.
  - destruct (malloc_ok (AExtra (len x)) w1 Ho1) as (w2 & Hm2 & Ho2).
    rewrite Hm2. cbn [negb].
    rewrite (follows_memcpy mem _ x Hxm), <- (blob_of_some x) by exact Ez.
    now apply Hfin.
Qed.

Lemma u8_zero (x : byte) : u8 x = 0 -> x = x00.
Proof. intros H. rewrite <- (to_u8_u8 x), H. reflexivity. Qed.

Lemma after_alt_more (more : list Alt) (rest : list byte) (next : option Alt) :
  after_alt rest next ->
  after_alt (flat_map alt_bytes more ++ rest) (next_of more next).
Proof.
  intros H. destruct more as [|a more]; [exact H|].
  cbn [flat_map next_of]. rewrite <- app_assoc. constructor.
Qed.

(** The alternate-setting loop on the alternate settings of a well-formed
    interface. *)
Lemma parse_altsettings_wf (mem : list byte) (rest : list byte)
    (next : option Alt) :
  after_alt rest next -> starts_interface next ->
  forall (more : list Alt) (a : Alt) (alts : list ALT.t) (fuel : nat)
         (b size parsed : Z) (w : world),
  Forall wf_alt (a :: more) ->
  Forall (fun a' => a_alternate a' <> x00) more ->
  follows mem b (flat_map alt_bytes (a :: more) ++ rest) ->
  size = len (flat_map alt_bytes (a :: more) ++ rest) ->
  (Z.to_nat size <= fuel)%nat ->
  oracle w = [] ->
  exists w',
    parse_altsettings fuel alts mem b size parsed w
    = Some (IFACE.Build_t (alts ++ map alt_tree (a :: more)),
            parsed + len (flat_map alt_bytes (a :: more)), w') /\
    oracle w' = [].
Proof.
  intros Hnext Hstart. induction more as [|a2 more IH];
    intros a alts fuel b size parsed w Hwf Halt Hmem Hsize Hfuel Ho.
  - cbn [flat_map] in *. rewrite app_nil_r in *.
    apply Forall_cons_iff in Hwf. destruct Hwf as [Ha _].
    pose proof (alt_bytes_len a) as Hla.
    pose proof (len_nonneg (unknowns_bytes (a_extra a))).
    pose proof (len_nonneg (flat_map endpoint_bytes (a_endpoints a))).
    pose proof (len_nonneg rest).
    pose proof Hsize as Hsz. rewrite len_app in Hsz.
    destruct fuel as [|fuel]; [lia|]. cbn [parse_altsettings].
    destruct (size <? INTERFACE_DESC_LENGTH) eqn:E;
      unfold INTERFACE_DESC_LENGTH in E; zb; [lia|]. clear E.
    destruct (parse_altsetting_wf mem a rest next alts b size parsed w Ha
                Hnext Hmem Hsize Ho) as (w1 & Hr & Ho1).
    rewrite Hr. exists w1. split; [|exact Ho1].
    assert (F : round_flow next (b + len (alt_bytes a)) (len rest)
                  (parsed + len (alt_bytes a))
                = Return (parsed + len (alt_bytes a))).
    { unfold round_flow. destruct next as [a'|]; [|reflexivity].
      cbn in Hstart. now rewrite Hstart. }
    rewrite F. reflexivity.
  - apply Forall_cons_iff in Hwf. destruct Hwf as [Ha Hwf].
    apply Forall_cons_iff in Halt. destruct Halt as [Ha2 Halt].
    change (flat_map alt_bytes (a :: a2 :: more))
      with (alt_bytes a ++ flat_map alt_bytes (a2 :: more)) in *.
    rewrite <- app_assoc in Hmem, Hsize.
    pose proof (alt_bytes_len a) as Hla.
    pose proof (len_nonneg (unknowns_bytes (a_extra a))).
    pose proof (len_nonneg (flat_map endpoint_bytes (a_endpoints a))).
    pose proof (len_nonneg (flat_map alt_bytes (a2 :: more) ++ rest)).
    pose proof Hsize as Hsz. rewrite len_app in Hsz.
    destruct fuel as [|fuel]; [lia|]. cbn [parse_altsettings].
    destruct (size <? INTERFACE_DESC_LENGTH) eqn:E;
      unfold INTERFACE_DESC_LENGTH in E; zb; [lia|]. clear E.
    destruct (parse_altsetting_wf mem a _ _ alts b size parsed w Ha
                (after_alt_more (a2 :: more) rest next Hnext) Hmem Hsize Ho)
      as (w1 & Hr & Ho1).
    rewrite Hr. cbn [next_of round_flow].
    destruct (u8 (a_alternate a2) =? 0) eqn:E; zb;
      [apply u8_zero in E; contradiction|]. clear E.
    apply follows_app_r in Hmem.
    destruct (IH a2 (alts ++ [alt_tree a]) fuel (b + len (alt_bytes a))
                (len (flat_map alt_bytes (a2 :: more) ++ rest))
                (parsed + len (alt_bytes a)) w1 Hwf Halt Hmem eq_refl
                ltac:(lia) Ho1) as (w2 & Hrec & Ho2).
    rewrite Hrec. exists w2. split; [|exact Ho2].
    rewrite <- app_assoc, len_app. cbn [map app]. do 3 f_equal. lia.
Qed.

Lemma interface_bytes_cons (a : Alt) (more : list Alt) :
  interface_bytes (a :: more) = alt_bytes a ++ flat_map alt_bytes more.
Proof. reflexivity. Qed.

Lemma after_interface_interfaces (ifs : list (list Alt)) :
  Forall wf_interface ifs ->
  after_interface (flat_map interface_bytes ifs).
Proof.
  intros H. destruct H as [|i ifs [_ Hi] _].
  - exists None. split; [constructor | exact I].
  - destruct i as [|a more]; [contradiction|]. destruct Hi as [Ha _].
    exists (Some a). split; [|exact Ha].
    cbn [flat_map]. rewrite interface_bytes_cons, <- app_assoc. constructor.
Qed.

(** A round of the interface loop of the configuration on a well-formed
    interface, with the class or vendor descriptors in front of it. *)
Lemma parse_interface_slot_wf (mem : list byte) (us : list Unknown)
    (i : list Alt) (rest : list byte) (b size : Z) (extra : blob)
    (extra_length : Z) (w : world) :
  Forall wf_unknown us -> wf_interface i -> after_interface rest ->
  (us = [] \/ extra_length = 0) ->
  follows mem b (unknowns_bytes us ++ interface_bytes i ++ rest) ->
  size = len (unknowns_bytes us ++ interface_bytes i ++ rest) ->
  oracle w = [] ->
  exists w',
    parse_interface_slot mem b size extra extra_length w
    = Some (interface_tree i,
            match us with [] => extra | _ => blob_of (unknowns_bytes us) end,
            match us with [] => extra_length | _ => len (unknowns_bytes us) end,
            SlotDone (b + len (unknowns_bytes us ++ interface_bytes i))
              (len rest), w') /\
    oracle w' = [].
Proof.
  intros Hus [Hwf Hi] (next & Hnext & Hstart) Hcase Hmem Hsize Ho.
  destruct i as [|a more]; [contradiction|]. destruct Hi as [_ Halt].
  pose proof (len_nonneg (unknowns_bytes us)) as Hu0.
  pose proof (len_nonneg (interface_bytes (a :: more))) as Hi0.
  pose proof (len_nonneg rest) as Hr0.
  unfold parse_interface_slot.
  destruct (skip_unknowns LConfigExtra true mem
              (interface_bytes (a :: more) ++ rest)
              ltac:(rewrite interface_bytes_cons, <- app_assoc;
                    apply proper_head_alt)
              us (Z.to_nat size) b size 0 w Hus Hmem Hsize ltac:(lia))
    as (b1 & s1 & p1 & w1 & Hs & -> & -> & -> & Ho1 & _).
  rewrite Hs. rewrite Ho in Ho1.
  replace (b + len (unknowns_bytes us) - b) with (len (unknowns_bytes us))
    by lia.
  pose proof (follows_app_l _ _ _ _ Hmem) as Hum.
  apply follows_app_r in Hmem.
  (* the interface, whatever the blob *)
  assert (Hint : forall w2, oracle w2 = [] ->
            exists w',
              parse_interface mem (b + len (unknowns_bytes us))
                (len (interface_bytes (a :: more) ++ rest)) w2
              = Some (interface_tree (a :: more),
                      len (interface_bytes (a :: more)), w') /\
              oracle w' = []).
  { intros w2 Ho2. unfold parse_interface.
    destruct (parse_altsettings_wf mem rest next Hnext Hstart more a []
                (Z.to_nat (len (interface_bytes (a :: more) ++ rest)))
                (b + len (unknowns_bytes us))
                (len (interface_bytes (a :: more) ++ rest)) 0 w2 Hwf Halt
                Hmem eq_refl ltac:(lia) Ho2) as (w3 & Hp & Ho3).
    exists w3. split; [|exact Ho3]. rewrite Hp. reflexivity. }
  assert (Hdone : forall (x : blob) (xl : Z) w2, oracle w2 = [] ->
            exists w',
              match
                parse_interface mem (b + len (unknowns_bytes us))
                  (len (interface_bytes (a :: more) ++ rest)) w2
              with
              | Some (i, r, w3) =>
                  if r <? 0 then Some (i, x, xl, SlotFail r, w3)
                  else Some (i, x, xl,
                             SlotDone (b + len (unknowns_bytes us) + r)
                               (len (interface_bytes (a :: more) ++ rest) - r),
                             w3)
              | None => None
              end
              = Some (interface_tree (a :: more), x, xl,
                      SlotDone
                        (b + len (unknowns_bytes us
                                  ++ interface_bytes (a :: more)))
                        (len rest), w') /\
              oracle w' = []).
  { intros x xl w2 Ho2. destruct (Hint w2 Ho2) as (w3 & Hp & Ho3).
    rewrite Hp. exists w3. split; [|exact Ho3].
    destruct (_ <? 0) eqn:E; zb; [lia|].
    rewrite !len_app. do 3 f_equal. f_equal; lia. }
  destruct (len (unknowns_bytes us) =? 0) eqn:Ez; zb.
  - cbn [negb andb].
    assert (us = []).
    { destruct us as [|u us']; [reflexivity|].
      rewrite unknowns_bytes_cons, len_app, unknown_bytes_len in Ez.
      pose proof (len_nonneg (u_body u)).
      pose proof (len_nonneg (unknowns_bytes us')). lia. }
    subst us. now apply Hdone.
  - cbn [negb andb].
    assert (Hne : us <> []) by (intros ->; now apply Ez).
    destruct Hcase as [?| ->]; [contradiction|].
    change (0 =? 0) with true. cbn iota.
    destruct (malloc_ok (AExtra (len (unknowns_bytes us)))
                (note_run (memcpy mem b (len (unknowns_bytes us))) w1) Ho1)
      as (w2 & Hm & Ho2).
    rewrite Hm. cbn [negb].
    rewrite (follows_memcpy mem b _ Hum).
    destruct us as [|u us']; [contradiction|].
    rewrite blob_of_some by exact Ez.
    now apply Hdone.
Qed.

(** The interface loop of the configuration on well-formed interfaces
    that come one right after the other. *)
Lemma parse_interfaces_wf (mem : list byte) :
  forall (ifs : list (list Alt)) (b size : Z) (extra : blob)
         (extra_length : Z) (w : world),
  Forall wf_interface ifs ->
  follows mem b (flat_map interface_bytes ifs) ->
  size = len (flat_map interface_bytes ifs) ->
  oracle w = [] ->
  exists w',
    parse_interfaces (length ifs) mem b size extra extra_length w
    = Some (map interface_tree ifs, extra, extra_length, 0, w') /\
    oracle w' = [].
Proof.
  induction ifs as [|i ifs IH]; intros b size extra extra_length w Hwf Hmem
    Hsize Ho.
  - cbn in Hsize. subst size. exists w. split; [reflexivity | exact Ho].
  - apply Forall_cons_iff in Hwf. destruct Hwf as [Hi Hwf].
    cbn [flat_map] in Hmem, Hsize.
    destruct (parse_interface_slot_wf mem [] i (flat_map interface_bytes ifs)
                b size extra extra_length w (Forall_nil _) Hi
                (after_interface_interfaces ifs Hwf) (or_introl eq_refl)
                Hmem Hsize Ho) as (w1 & Hs & Ho1).
    cbn [length parse_interfaces]. rewrite Hs.
    cbn [unknowns_bytes flat_map app] in Hmem |- *.
    apply follows_app_r in Hmem.
    destruct (IH (b + len (interface_bytes i))
                (len (flat_map interface_bytes ifs)) extra extra_length w1
                Hwf Hmem eq_refl Ho1) as (w2 & Hrec & Ho2).
    rewrite Hrec. exists w2. split; [reflexivity | exact Ho2].
Qed.

Lemma lor_shiftl_add (h l : Z) :
  0 <= l < 256 -> Z.lor (Z.shiftl h 8) l = h * 256 + l.
Proof.
  intros Hl.
  assert (Hland : Z.land (Z.shiftl h 8) l = 0).
  { rewrite <- (Z.mod_small l (2 ^ 8)) by (change (2 ^ 8) with 256; lia).
    rewrite <- Z.land_ones by lia. rewrite (Z.land_comm l).
    rewrite Z.land_assoc, (Z.land_ones (Z.shiftl h 8)) by lia.
    rewrite Z.shiftl_mul_pow2 by lia. rewrite Z.mod_mul by lia.
    apply Z.land_0_l. }
  rewrite <- Z.lxor_lor by exact Hland.
  rewrite <- Z.add_nocarry_lxor by exact Hland.
  rewrite Z.shiftl_mul_pow2 by lia. reflexivity.
Qed.

Lemma word_le (t : Z) :
  0 <= t <= 65535 ->
  Z.lor (Z.shiftl (u8 (to_u8 (Z.shiftr t 8))) 8) (u8 (to_u8 t)) = t.
Proof.
  intros Ht.
  rewrite Z.shiftr_div_pow2 by lia. change (2 ^ 8) with 256.
  rewrite u8_to_u8
    by (split; [apply Z.div_pos; lia | apply Z.div_lt_upper_bound; lia]).
  rewrite <- (to_u8_mod t).
  rewrite u8_to_u8 by (apply Z.mod_pos_bound; lia).
  rewrite lor_shiftl_add by (apply Z.mod_pos_bound; lia).
  rewrite (Z.div_mod t 256) at 3 by lia. lia.
Qed.

Lemma config_bytes_len (c : Config) : len (config_bytes c) = config_total c.
Proof.
  unfold config_bytes, config_total. rewrite len_app. reflexivity.
Qed.

(** [parse_configuration] on the bytes of a well-formed configuration,
    whatever the memory holds behind them and whatever the structure held
    before: every request for memory being granted, it builds the tree of
    the configuration and returns 0. *)
Lemma parse_configuration_wf (c : Config) (tail : list byte)
    (config : CFG.t) (w : world) :
  wf_config c -> oracle w = [] ->
  exists w',
    parse_configuration config (config_bytes c ++ tail) w
    = Some (config_tree c, 0, w').
Proof.
  intros (Hmax & H255 & Htot & Hx & Hifs & Hnone) Ho.
  set (mem := config_bytes c ++ tail).
  pose proof (follows_start (config_bytes c) tail) as Hmem. fold mem in Hmem.
  pose proof (len_nonneg (c_interfaces c)) as Hn0.
  pose proof (len_nonneg (config_body c)) as Hb0.
  unfold parse_configuration. rewrite config_store_eq.
  assert (R : forall i, (i < 9)%nat ->
                u8 (rd mem (Z.of_nat i)) = byte_at (config_bytes c) i).
  { intros i Hi. rewrite <- (Z.add_0_l (Z.of_nat i)). apply follows_rd.
    - exact Hmem.
    - unfold config_bytes. rewrite length_app. cbn [length]. lia. }
  pose proof (R 0%nat ltac:(lia)) as R0. pose proof (R 1%nat ltac:(lia)) as R1.
  pose proof (R 2%nat ltac:(lia)) as R2. pose proof (R 3%nat ltac:(lia)) as R3.
  pose proof (R 4%nat ltac:(lia)) as R4. pose proof (R 5%nat ltac:(lia)) as R5.
  pose proof (R 6%nat ltac:(lia)) as R6. pose proof (R 7%nat ltac:(lia)) as R7.
  pose proof (R 8%nat ltac:(lia)) as R8.
  cbn [Z.of_nat Pos.of_succ_nat Pos.succ] in R0, R1, R2, R3, R4, R5, R6, R7, R8.
  unfold byte_at, config_bytes in R0, R1, R2, R3, R4, R5, R6, R7, R8.
  cbn [nth app] in R0, R1, R2, R3, R4, R5, R6, R7, R8.
  rewrite R0, R1, R2, R3, R4, R5, R6, R7, R8.
  assert (Ht : 0 <= config_total c <= 65535)
    by (split; [unfold config_total; lia | exact Htot]).
  rewrite word_le by exact Ht.
  rewrite u8_to_u8 by lia.
  change (u8 x09) with 9. change (u8 x02) with 2.
  cbn [CFG.bNumInterfaces CFG.wTotalLength CFG.bLength].
  destruct (len (c_interfaces c) >? USB_MAXINTERFACES) eqn:E; zb; [lia|].
  clear E.
  destruct (malloc_ok (AInterfaces (len (c_interfaces c))) w Ho)
    as (w0 & Hm & Ho0).
  rewrite Hm. cbn [negb].
  unfold len at 1. rewrite Nat2Z.id.
  unfold config_bytes in Hmem. apply follows_app_r in Hmem.
  change (len [x09; x02; to_u8 (config_total c);
               to_u8 (Z.shiftr (config_total c) 8);
               to_u8 (len (c_interfaces c)); c_value c; c_string c;
               c_attributes c; c_power c]) with 9 in Hmem.
  assert (Hres : exists w',
            parse_interfaces (length (c_interfaces c)) mem (0 + 9)
              (config_total c - 9) None 0
              (see LConfig 9 (config_total c) true w0)
            = Some (map interface_tree (c_interfaces c),
                    blob_of (unknowns_bytes (c_extra c)),
                    len (unknowns_bytes (c_extra c)), 0, w')).
  { unfold config_body in Hmem. unfold config_total, config_body.
    destruct (c_interfaces c) as [|i ifs] eqn:Ei.
    - rewrite (Hnone eq_refl). cbn. eauto.
    - apply Forall_cons_iff in Hifs. destruct Hifs as [Hi Hifs].
      cbn [flat_map] in Hmem |- *.
      destruct (parse_interface_slot_wf mem (c_extra c) i
                  (flat_map interface_bytes ifs) (0 + 9)
                  (9 + len (unknowns_bytes (c_extra c)
                            ++ interface_bytes i
                            ++ flat_map interface_bytes ifs) - 9)
                  None 0 (see LConfig 9
                            (9 + len (unknowns_bytes (c_extra c)
                                      ++ interface_bytes i
                                      ++ flat_map interface_bytes ifs))
                            true w0)
                  Hx Hi (after_interface_interfaces ifs Hifs)
                  (or_intror eq_refl) Hmem ltac:(lia) Ho0)
        as (w1 & Hs & Ho1).
      cbn [length parse_interfaces]. rewrite Hs.
      rewrite app_assoc in Hmem. apply follows_app_r in Hmem.
      destruct (parse_interfaces_wf mem ifs _ _
                  match c_extra c with
                  | [] => None
                  | _ => blob_of (unknowns_bytes (c_extra c))
                  end
                  match c_extra c with
                  | [] => 0
                  | _ => len (unknowns_bytes (c_extra c))
                  end w1 Hifs Hmem eq_refl Ho1) as (w2 & Hrec & _).
      rewrite Hrec. exists w2. cbn [map].
      destruct (c_extra c); reflexivity. }
  destruct Hres as (w' & Hres). rewrite Hres. exists w'. reflexivity.
Qed.

(** ** The retrieval entry points *)


(** ** Alternate settings *)

Lemma next_alternate_continue (mem : list byte) (b s p b' s' p' : Z) :
  next_alternate mem b s p = Continue b' s' p' ->
  next_alternate mem b' s' p' = Continue b' s' p'.
Proof.
  intros H. assert (E : Continue b s p = Continue b' s' p').
  { revert H. unfold next_alternate.
    destruct (_ || _ || _); [discriminate | auto]. }
  injection E as <- <- <-. exact H.
Qed.

Lemma parse_altsetting_continue (alts alts' : list ALT.t) (mem : list byte)
    (buffer size parsed b s p : Z) (w w' : world) :
  parse_altsetting alts mem buffer size parsed w
  = Some (alts', Continue b s p, w') ->
  (exists a, alts' = alts ++ [a]) /\
  next_alternate mem b s p = Continue b s p.
Proof.
  unfold parse_altsetting, finish_altsetting.
  repeat match goal with
         | |- context [match ?x with _ => _ end] =>
             lazymatch x with
             | next_alternate _ _ _ _ => fail
             | _ => destruct x eqn:?
             end
         end;
    try discriminate; intros [= <- Hn _];
    (split; [eauto | now apply next_alternate_continue in Hn]).
Qed.

(** ** The statements of the specification *)


(** ** The first run, byte for byte *)








(** C4.  The test that ends a round of the alternate-setting loop goes on
    exactly when at least [LIBUSB_DT_INTERFACE_SIZE] bytes remain and the
    next descriptor is an interface descriptor with a non-zero alternate
    setting, and returns the count of parsed bytes otherwise; a round that
    goes on has added one slot to the [altsetting] array, and the loop
    carries on with this array, so that the next round adds its slot
    behind it.  So from the bytes of a well-formed configuration, every
    request for memory being granted, each interface comes out as one
    entry whose alternate settings are those of the stream in the order
    of the stream; an interface of two alternate settings gives one entry
    holding the two. *)
Theorem alternate_settings_accumulate :
  (forall (mem : list byte) (buffer size parsed : Z),
     next_alternate mem buffer size parsed
     = if (LIBUSB_DT_INTERFACE_SIZE <=? size)
          && (u8 (rd mem (buffer + 1)) =? LIBUSB_DT_INTERFACE)
          && negb (u8 (rd mem (buffer + 3)) =? 0)
       then Continue buffer size parsed
       else Return parsed) /\
  (forall (fuel : nat) (alts alts' : list ALT.t) (mem : list byte)
          (buffer size parsed b s p : Z) (w w' : world),
     INTERFACE_DESC_LENGTH <= size ->
     parse_altsetting alts mem buffer size parsed w
     = Some (alts', Continue b s p, w') ->
     (exists a, alts' = alts ++ [a]) /\
     next_alternate mem b s p = Continue b s p /\
     parse_altsettings (S fuel) alts mem buffer size parsed w
     = parse_altsettings fuel alts' mem b s p w') /\
  (forall (c : Config) (tail : list byte) (config : CFG.t) (w : world),
     wf_config c -> oracle w = [] ->
     exists c' w',
       parse_configuration config (config_bytes c ++ tail) w
       = Some (c', 0, w') /\
       CFG.interface c'
       = Some (map (fun i => IFACE.Build_t (map alt_tree i))
                 (c_interfaces c)) /\
       forall a1 a2, c_interfaces c = [[a1; a2]] ->
         CFG.interface c' = Some [IFACE.Build_t [alt_tree a1; alt_tree a2]]).
Proof.
  split; [|split].
  - intros mem buffer size parsed. unfold next_alternate.
    destruct (Z.ltb_spec size LIBUSB_DT_INTERFACE_SIZE),
             (Z.leb_spec LIBUSB_DT_INTERFACE_SIZE size); try lia;
      [reflexivity|].
    now destruct (u8 (rd mem (buffer + 1)) =? LIBUSB_DT_INTERFACE),
                 (u8 (rd mem (buffer + 3)) =? 0).
  - intros fuel alts alts' mem buffer size parsed b s p w w' H9 Hround.
    split; [|split].
    + now destruct (parse_altsetting_continue _ _ _ _ _ _ _ _ _ _ _ Hround).
    + now destruct (parse_altsetting_continue _ _ _ _ _ _ _ _ _ _ _ Hround).
    + cbn [parse_altsettings].
      destruct (size <? INTERFACE_DESC_LENGTH) eqn:E; zb; [lia|].
      now rewrite Hround.
  - intros c tail config w Hwf Ho.
    destruct (parse_configuration_wf c tail config w Hwf Ho) as (w' & Hp).
    exists (config_tree c), w'. split; [exact Hp|]. split; [reflexivity|].
    intros a1 a2 E. cbn [config_tree CFG.interface]. now rewrite E.
Qed.

(** C5, as the code has it.  A declared interface count above
    [USB_MAXINTERFACES] makes [parse_configuration] return
    [LIBUSB_ERROR_IO] in the world it was called in: nothing is allocated.
    In a round of [parse_interface] whose interface header declares more
    than [USB_MAXENDPOINTS] endpoints, the function returns at once and no
    endpoint slots are allocated (the [endpoint] member of the alternate
    setting stays [NULL]); what it returns is an error code, unless the
    scan over the class or vendor descriptors of the alternate setting
    has stopped in front of a configuration or device descriptor, in
    which case the count of parsed bytes is returned before the endpoint
    count is looked at. *)
Theorem counts_over_limit :
  (forall (config : CFG.t) (mem : list byte) (w : world),
     CFG.bNumInterfaces
       (CFG.store (fst (usbi_parse_descriptor mem 0 "bbwbbbbb")) config)
     > USB_MAXINTERFACES ->
     exists c, parse_configuration config mem w = Some (c, LIBUSB_ERROR_IO, w))
  /\
  (forall (fuel : nat) (alts : list ALT.t) (mem : list byte)
          (buffer size parsed : Z) (w : world),
     INTERFACE_DESC_LENGTH <= size ->
     ALT.bNumEndpoints (new_altsetting mem buffer) > USB_MAXENDPOINTS ->
     exists alts' r w',
       parse_altsettings (S fuel) alts mem buffer size parsed w
       = Some (IFACE.Build_t alts', r, w') /\
       (forall n, In (AEndpoints n) (allocs w') -> In (AEndpoints n) (allocs w))
       /\
       (alts' = alts \/
        exists a, alts' = alts ++ [a] /\ ALT.endpoint a = None /\
                  ALT.bNumEndpoints a
                  = ALT.bNumEndpoints (new_altsetting mem buffer)) /\
       (r = LIBUSB_ERROR_IO \/ r = LIBUSB_ERROR_NO_MEM \/
        exists b,
          r = parsed + (b - buffer) /\
          DESC_HEADER_LENGTH <= size - (b - buffer) /\
          (h_bDescriptorType (read_header mem b) = LIBUSB_DT_CONFIG \/
           h_bDescriptorType (read_header mem b) = LIBUSB_DT_DEVICE))).
Proof.
  split.
  - intros config mem w Hover. unfold parse_configuration.
    destruct (_ >? USB_MAXINTERFACES) eqn:E; zb; [eauto | lia].
  - intros fuel alts mem buffer size parsed w H9 Hover.
    cbn [parse_altsettings].
    destruct (size <? INTERFACE_DESC_LENGTH) eqn:E; zb; [lia|]. clear E.
    unfold parse_altsetting.
    destruct (malloc (AAltsetting _) w) as [ok w0] eqn:Hm0.
    pose proof (malloc_allocs (AAltsetting (Z.of_nat (length alts) + 1)) w)
      as Ha0.
    rewrite Hm0 in Ha0. cbn [fst snd] in Ha0.
    destruct ok; cbn [negb].
    2: { exists alts, LIBUSB_ERROR_NO_MEM, w0. split; [reflexivity|].
         rewrite Ha0. auto. }
    rewrite new_altsetting_bLength.
    set (ifp := new_altsetting mem buffer) in *.
    set (len := h_bLength (read_header mem buffer)).
    assert (Hfuel := skip_descriptors_spec LInterfaceExtra false mem
              ltac:(discriminate) (Z.to_nat (size - len)) (buffer + len)
              (size - len) (parsed + len) (see LInterface len size true w0)).
    assert (Hin : forall w1 n, allocs w1 = allocs w0 ->
                    In (AEndpoints n) (allocs w1) -> In (AEndpoints n) (allocs w)).
    { intros w1 n -> Hn. rewrite Ha0 in Hn. apply in_app_or in Hn.
      destruct Hn as [Hn|[Hn|[]]]; [exact Hn | discriminate]. }
    destruct (skip_descriptors LInterfaceExtra false (Z.to_nat (size - len)) mem
                (buffer + len) (size - len) (parsed + len)
                (see LInterface len size true w0)) as [[b s p w1|w1]|] eqn:Hscan;
      [| |lia].
    2: { destruct Hfuel as (_ & Ha1 & _).
         exists (alts ++ [ifp]), LIBUSB_ERROR_IO, w1. split; [reflexivity|].
         split; [intros n; now apply Hin|]. split; [|auto].
         right. exists ifp. auto. }
    destruct Hfuel as (_ & Ha1 & _ & _ & _ & evs & _ & _ & _ & Hb & Hp & _).
    change (allocs w1 = allocs w0) in Ha1.
    assert (Hdone : forall ifp' w2,
              ALT.bNumEndpoints ifp' = ALT.bNumEndpoints ifp ->
              ALT.endpoint ifp' = None ->
              (forall n, In (AEndpoints n) (allocs w2) ->
                         In (AEndpoints n) (allocs w)) ->
              exists alts' r w',
                match finish_altsetting alts ifp' mem b s p w2 with
                | Some (alts0, Continue buffer0 size0 parsed0, w3) =>
                    parse_altsettings fuel alts0 mem buffer0 size0 parsed0 w3
                | Some (alts0, Return r0, w3) =>
                    Some (IFACE.Build_t alts0, r0, w3)
                | None => None
                end = Some (IFACE.Build_t alts', r, w') /\
                (forall n, In (AEndpoints n) (allocs w') ->
                           In (AEndpoints n) (allocs w)) /\
                (alts' = alts \/
                 exists a, alts' = alts ++ [a] /\ ALT.endpoint a = None /\
                           ALT.bNumEndpoints a = ALT.bNumEndpoints ifp) /\
                (r = LIBUSB_ERROR_IO \/ r = LIBUSB_ERROR_NO_MEM \/
                 exists b,
                   r = parsed + (b - buffer) /\
                   DESC_HEADER_LENGTH <= size - (b - buffer) /\
                   (h_bDescriptorType (read_header mem b) = LIBUSB_DT_CONFIG \/
                    h_bDescriptorType (read_header mem b) = LIBUSB_DT_DEVICE))).
    { intros ifp' w2 Hn He Hal.
      destruct (finish_altsetting_over_limit alts ifp' mem b s p w2)
        as (r & -> & Hr); [rewrite Hn; exact Hover|].
      exists (alts ++ [ifp']), r, w2. split; [reflexivity|].
      split; [exact Hal|]. split; [right; exists ifp'; auto|].
      destruct Hr as [->|(-> & Hs & Ht)]; [auto|].
      right. right. exists b. split; [lia | split; [lia | exact Ht]]. }
    destruct (b - (buffer + len) =? 0).
    { apply Hdone; auto. intros n. now apply Hin. }
    destruct (malloc (AExtra (b - (buffer + len))) w1) as [ok w2] eqn:Hm.
    pose proof (malloc_allocs (AExtra (b - (buffer + len))) w1) as Ha2.
    rewrite Hm in Ha2. cbn [fst snd] in Ha2.
    destruct ok; cbn [negb].
    + apply Hdone; auto. intros n Hn. rewrite Ha2 in Hn.
      apply in_app_or in Hn.
      destruct Hn as [Hn|[Hn|[]]]; [now apply (Hin w1) | discriminate].
    + exists (alts ++ [ifp]), LIBUSB_ERROR_NO_MEM, w2. split; [reflexivity|].
      split; [intros n; apply Hin; congruence|]. split; [|auto].
      right. exists ifp. auto.
Qed.

(** C6, as the code has it.  In the tree of a call of
    [parse_configuration] that succeeds, and in the tree with which a
    failure is raised once a request for memory has been granted (the
    tree as the decoders have built it where the failure is raised,
    before any of it is released), the extra blob of every node (the
    configuration, every alternate setting of every interface, every
    endpoint) agrees with its recorded length: absent exactly when the
    length is 0, and of that length otherwise.  A call that fails with
    no request granted (the interface count is over the limit, or the
    interface array is refused) has not written [extra] and
    [extra_length]: they are what the caller passed. *)
Theorem extra_blobs_consistent (config : CFG.t) (mem : list byte) (w : world) :
  exists c r w',
    parse_configuration config mem w = Some (c, r, w') /\
    (0 <= r -> cfg_ok c) /\
    (cfg_ok c \/
     (r < 0 /\ allocs w' = allocs w /\
      CFG.extra c = CFG.extra config /\
      CFG.extra_length c = CFG.extra_length config)).
Proof.
  pose proof (parse_configuration_spec config mem w) as H.
  destruct (parse_configuration config mem w) as [[[c r] w']|] eqn:Hp;
    [|contradiction].
  exists c, r, w'. split; [reflexivity|].
  destruct H as [[Hok|(Hneg & Ha & Hx)] _].
  - split; [auto | now left].
  - split; [lia|]. right. auto.
Qed.

(** C7.  Decoding an 18-byte device descriptor with the format of
    [libusb_get_device_descriptor] and encoding the stored fields again
    (little endian for converted words, memory order for copied ones)
    gives back the 18 bytes; the codec reports 18 source bytes consumed;
    and the structure [libusb_get_device_descriptor] fills from these
    bytes has them as its wire image. *)
Theorem device_descriptor_round_trip (raw : list byte) (desc : DEV.t) :
  length raw = 18%nat ->
  encode_fields (fst (usbi_parse_descriptor raw 0 "bbWbbbbWWWbbbb")) = raw /\
  snd (usbi_parse_descriptor raw 0 "bbWbbbbWWWbbbb") = DEVICE_DESC_LENGTH /\
  forall (dev : libusb_device) (r : Z),
    backend_get_device_descriptor dev = (r, raw) -> 0 <= r ->
    exists d,
      libusb_get_device_descriptor dev desc = (0, d) /\ DEV.wire d = raw.
Proof.
  intros Hlen.
  pose proof (parse_fields_encode raw "bbWbbbbWWWbbbb" 0 0) as [_ Henc].
  unfold libusb_get_device_descriptor, usbi_parse_descriptor.
  destruct (parse_fields raw "bbWbbbbWWWbbbb" 0 0) as [fs e] eqn:Hp.
  cbn [fst snd] in *.
  assert (He : e = 18) by (cbn in Hp; congruence).
  subst e. split; [|split; [reflexivity|]].
  - rewrite Henc. change (18 - 0) with (Z.of_nat 18). rewrite <- Hlen.
    apply memcpy_all.
  - intros dev r Hb Hr. rewrite Hb.
    destruct (r <? 0) eqn:E; zb; [lia|]. rewrite Hp. cbn [fst].
    eexists. split; [reflexivity|].
    do 19 (destruct raw as [|? raw]; try discriminate Hlen).
    cbn in Hp. injection Hp as <-.
    unfold DEV.wire, DEV.store, st8, raw16.
    cbn -[to_u8 u8]. now rewrite !to_u8_u8.
Qed.

(** C8, as the code has it.  When both fetches succeed and the string descriptor
    passes the checks, each UTF-16 code unit from byte offset 2 up to the
    declared length [tbuf[0]] is written as its low byte when its high
    byte is zero and as ['?'] otherwise, as many as the capacity allows,
    and a zero byte follows.  So the bytes 04 03 41 00 42 20, whose
    declared length is 4, give ["A"], one byte; the code unit 42 20 lies
    past the declared length.  With the declared length 6 (06 03 41 00 42
    20) the output is ["A?"], two bytes. *)
Theorem ascii_reduction (dev : libusb_device_handle) (desc_index : Z)
    (tbuf0 t1 t2 : list byte) (data : Z -> byte) (length r1 r2 : Z) :
  libusb_get_string_descriptor dev 0 0 tbuf0 = (r1, t1) -> 4 <= r1 ->
  libusb_get_string_descriptor dev desc_index
    (Z.lor (u8 (rd t1 2)) (Z.shiftl (u8 (rd t1 3)) 8)) t1 = (r2, t2) ->
  0 <= r2 -> u8 (rd t2 1) = LIBUSB_DT_STRING -> u8 (rd t2 0) <= r2 ->
  1 <= length ->
  exists data' di,
    libusb_get_string_descriptor_ascii dev desc_index tbuf0 data length
    = Some (data', di) /\
    (forall k, 0 <= k < di ->
               2 + 2 * k < u8 (rd t2 0) /\ data' k = ascii_of t2 (2 + 2 * k)) /\
    (di = length - 1 \/ u8 (rd t2 0) <= 2 + 2 * di) /\
    0 <= di /\ data' di = x00 /\
    (3 <= length -> firstn 6 t2 = [x04; x03; x41; x00; x42; x20] ->
     di = 1 /\ data' 0 = x41 /\ data' 1 = x00) /\
    (3 <= length -> firstn 6 t2 = [x06; x03; x41; x00; x42; x20] ->
     di = 2 /\ data' 0 = x41 /\ data' 1 = x3f /\ data' 2 = x00).
Proof.
  intros H1 Hr1 H2 Hr2 Hty Hlen Hcap.
  unfold libusb_get_string_descriptor_ascii. rewrite H1.
  destruct (r1 <? 0) eqn:E1; zb; [lia|]. clear E1.
  destruct (r1 <? 4) eqn:E1; zb; [lia|]. clear E1.
  rewrite H2.
  destruct (r2 <? 0) eqn:E2; zb; [lia|]. clear E2.
  rewrite Hty, Z.eqb_refl. cbn [negb].
  destruct (u8 (rd t2 0) >? r2) eqn:E2; zb; [lia|]. clear E2.
  pose proof (reduce_to_ascii_spec t2 length (Z.to_nat (u8 (rd t2 0) - 2))
                data 0 2 ltac:(lia)) as Hloop.
  destruct (reduce_to_ascii (Z.to_nat (u8 (rd t2 0) - 2)) t2 length data 0 2)
    as [[data' di]|]; [|lia].
  destruct Hloop as (Hdi & Hframe & Hchars & Hend).
  rewrite Z.sub_0_r in Hchars, Hend.
  assert (Hc : forall k, 0 <= k < di ->
                 2 + 2 * k < u8 (rd t2 0) /\
                 store data' di x00 k = ascii_of t2 (2 + 2 * k)).
  { intros k Hk. destruct (Hchars k Hk) as [A B]. split; [exact A|].
    rewrite store_other by lia. exact B. }
  exists (store data' di x00), di. split; [reflexivity|].
  split; [exact Hc|]. split; [exact Hend|]. split; [lia|].
  split; [apply store_same|].
  assert (Hrd : forall l, firstn 6 t2 = l ->
            forall i, 0 <= i < 6 -> rd t2 i = rd l i).
  { intros l <- i Hi. unfold rd.
    assert (Hn : (Z.to_nat i < 6)%nat) by lia.
    revert Hn. generalize (Z.to_nat i). clear.
    do 6 (destruct t2 as [|? t2]; [intros [|[|[|[|[|[|i]]]]]]; cbn; auto; lia|]).
    intros [|[|[|[|[|[|i]]]]]]; cbn; auto; lia. }
  split.
  - intros Hl3 Ht. pose proof (Hrd _ Ht) as Hn.
    assert (H0 : u8 (rd t2 0) = 4) by (now rewrite Hn by lia).
    assert (Hd : di = 1).
    { destruct (Z_lt_dec 1 di) as [Hgt|Hle].
      - destruct (Hchars 1 ltac:(lia)). lia.
      - lia. }
    subst di. split; [reflexivity|]. split; [|apply store_same].
    destruct (Hc 0 ltac:(lia)) as [_ ->]. unfold ascii_of.
    rewrite !Hn by lia. reflexivity.
  - intros Hl3 Ht. pose proof (Hrd _ Ht) as Hn.
    assert (H0 : u8 (rd t2 0) = 6) by (now rewrite Hn by lia).
    assert (Hd : di = 2).
    { destruct (Z_lt_dec 2 di) as [Hgt|Hle].
      - destruct (Hchars 2 ltac:(lia)). lia.
      - lia. }
    subst di. split; [reflexivity|].
    split; [|split; [|apply store_same]].
    + destruct (Hc 0 ltac:(lia)) as [_ ->]. unfold ascii_of.
      rewrite !Hn by lia. reflexivity.
    + destruct (Hc 1 ltac:(lia)) as [_ ->]. unfold ascii_of.
      rewrite !Hn by lia. reflexivity.
Qed.

(** C9.  With [num_configurations] a [uint8_t] count: when the probes of
    the indices below [k] succeed and read other values and the probe of
    [k] reads the value asked for, the call returns what
    [libusb_get_config_descriptor] returns for [k]; when the probes of all
    indices succeed and none reads the value, the call returns [NULL];
    and so it does when a probe fails before a match. *)
Theorem config_descriptor_by_value (dev : libusb_device) (value : Z)
    (w : world) :
  0 <= num_configurations dev <= 255 ->
  (forall k, 0 <= k < num_configurations dev ->
     (forall j, 0 <= j < k -> exists v, probes dev j v /\ v <> value) ->
     probes dev k value ->
     libusb_get_config_descriptor_by_value dev value w
     = libusb_get_config_descriptor dev k w) /\
  ((forall j, 0 <= j < num_configurations dev ->
              exists v, probes dev j v /\ v <> value) ->
   libusb_get_config_descriptor_by_value dev value w = Some (None, w)) /\
  (forall k, 0 <= k < num_configurations dev ->
     (forall j, 0 <= j < k -> exists v, probes dev j v /\ v <> value) ->
     fst (backend_get_config_descriptor dev k 6) < 0 ->
     libusb_get_config_descriptor_by_value dev value w = Some (None, w)).
Proof.
  intros Hnum. unfold libusb_get_config_descriptor_by_value.
  split; [|split].
  - intros k Hk Hall Hhit.
    rewrite (probe_configurations_found dev value (-1) _ 0 k);
      [|lia|exact Hall|exact Hhit].
    change (1 =? 0) with false. cbn iota.
    now rewrite Z.mod_small by lia.
  - intros Hall.
    rewrite probe_configurations_spec by (intros j Hj; apply Hall; lia).
    change (-1 =? 0) with false. cbn iota.
    rewrite Z2Nat.id, Z.add_0_l by lia.
    rewrite Z.mod_small by lia.
    unfold libusb_get_config_descriptor.
    destruct (num_configurations dev >=? num_configurations dev) eqn:E; zb;
      [reflexivity | lia].
  - intros k Hk Hall Hfail.
    assert (H : forall n i, i <= k < i + Z.of_nat n ->
              (forall j, i <= j < k -> exists v, probes dev j v /\ v <> value) ->
              probe_configurations n dev value i (-1) = None).
    { induction n as [|n IH]; intros i Hi Hlow; cbn [probe_configurations];
        [lia|].
      destruct (Z.eq_dec i k) as [->|Hne].
      - destruct (backend_get_config_descriptor dev k 6) as [r tmp].
        cbn [fst] in Hfail. destruct (r <? 0) eqn:E; zb; [reflexivity | lia].
      - destruct (Hlow i ltac:(lia)) as (v & [Hr Hv] & Hv').
        destruct (backend_get_config_descriptor dev i 6) as [r tmp].
        cbn [fst snd] in Hr, Hv.
        destruct (r <? 0) eqn:E; zb; [lia|].
        rewrite Hv. destruct (v =? value) eqn:E'; zb; [contradiction|].
        apply IH; [lia|]. intros j Hj. apply Hlow. lia. }
    rewrite H; [reflexivity|lia|exact Hall].
Qed.

(** C10.  The call always returns.  With a capacity [length] of at least
    1, a non-negative result [di] is at most [length - 1], the byte of
    [data] at [di] is zero, and no byte outside the indices [0 .. di] is
    changed: at most [length - 1] characters and the zero that ends
    them.  A negative result leaves [data] as it was. *)
Theorem ascii_output_bounded (dev : libusb_device_handle) (desc_index : Z)
    (tbuf : list byte) (data : Z -> byte) (length : Z) :
  1 <= length ->
  exists data' di,
    libusb_get_string_descriptor_ascii dev desc_index tbuf data length
    = Some (data', di) /\
    (0 <= di ->
     di <= length - 1 /\ data' di = x00 /\
     forall j, j < 0 \/ di < j -> data' j = data j) /\
    (di < 0 -> forall j, data' j = data j).
Proof.
  intros Hcap. unfold libusb_get_string_descriptor_ascii.
  destruct (libusb_get_string_descriptor dev 0 0 tbuf) as [r1 t1].
  destruct (r1 <? 0) eqn:E1; zb.
  { exists data, r1. split; [reflexivity|]. split; [lia | reflexivity]. }
  destruct (r1 <? 4).
  { exists data, LIBUSB_ERROR_IO. split; [reflexivity|].
    split; [lia | reflexivity]. }
  destruct (libusb_get_string_descriptor dev desc_index _ t1) as [r2 t2].
  destruct (r2 <? 0) eqn:E2; zb.
  { exists data, r2. split; [reflexivity|]. split; [lia | reflexivity]. }
  destruct (negb (u8 (rd t2 1) =? LIBUSB_DT_STRING)).
  { exists data, LIBUSB_ERROR_IO. split; [reflexivity|].
    split; [lia | reflexivity]. }
  destruct (u8 (rd t2 0) >? r2).
  { exists data, LIBUSB_ERROR_IO. split; [reflexivity|].
    split; [lia | reflexivity]. }
  pose proof (reduce_to_ascii_spec t2 length (Z.to_nat (u8 (rd t2 0) - 2))
                data 0 2 ltac:(lia)) as Hloop.
  destruct (reduce_to_ascii (Z.to_nat (u8 (rd t2 0) - 2)) t2 length data 0 2)
    as [[data' di]|]; [|lia].
  destruct Hloop as (Hdi & Hframe & _).
  exists (store data' di x00), di. split; [reflexivity|]. split; [|lia].
  intros _. split; [lia|]. split; [apply store_same|].
  intros j Hj. rewrite store_other by lia. apply Hframe. lia.
Qed.

(** ** The blocks of the tree *)

Lemma allocs_see (l : level) (len size : Z) (t : bool) (w : world) :
  allocs (see l len size t w) = allocs w.
Proof. reflexivity. Qed.

Lemma allocs_note_run (r : list byte) (w : world) :
  allocs (note_run r w) = allocs w.
Proof. reflexivity. Qed.

Lemma malloc_cases (a : alloc) (w w' : world) (ok : bool) :
  malloc a w = (ok, w') ->
  allocs w' = if ok then allocs w ++ [a] else allocs w.
Proof.
  intros H. pose proof (malloc_allocs a w) as F. now rewrite H in F.
Qed.

Lemma blob_block_memcpy (mem : list byte) (begin len : Z) :
  0 <= len ->
  blob_block (Some (memcpy mem begin len)) = [AExtra len].
Proof.
  intros H. unfold blob_block. rewrite memcpy_length, Z2Nat.id by exact H.
  reflexivity.
Qed.

Lemma parse_endpoint_blocks (endpoint : EP.t) (mem : list byte)
    (buffer size : Z) (w : world) :
  EP.extra endpoint = None ->
  match parse_endpoint endpoint mem buffer size w with
  | None => True
  | Some (ep, r, w') => allocs w' = allocs w ++ clear_endpoint ep
  end.
Proof.
  intros Hx. unfold parse_endpoint, clear_endpoint.
  set (len := h_bLength (read_header mem buffer)).
  destruct (len >? size).
  { rewrite allocs_see, Hx. cbn. now rewrite app_nil_r. }
  destruct (negb (h_bDescriptorType (read_header mem buffer) =? LIBUSB_DT_ENDPOINT)).
  { rewrite Hx. cbn. now rewrite app_nil_r. }
  set (endpoint' := if len >=? ENDPOINT_AUDIO_DESC_LENGTH then _ else _).
  assert (Hx' : EP.extra endpoint' = None).
  { subst endpoint'.
    destruct (len >=? ENDPOINT_AUDIO_DESC_LENGTH);
      [|destruct (len >=? ENDPOINT_DESC_LENGTH)]; exact Hx. }
  clearbody endpoint'.
  pose proof (skip_descriptors_spec LEndpointExtra false mem
                ltac:(discriminate) (Z.to_nat (size - len)) (buffer + len)
                (size - len) (0 + len) (see LEndpoint len size true w)) as Hs.
  destruct (skip_descriptors LEndpointExtra false (Z.to_nat (size - len)) mem
              (buffer + len) (size - len) (0 + len)
              (see LEndpoint len size true w)) as [[b s p w1|w1]|];
    [| |exact I].
  - destruct Hs as (_ & Ha & _ & _ & _ & evs & _ & _ & _ & _ & _ & Hlen).
    rewrite allocs_see in Ha.
    destruct (b - (buffer + len) =? 0).
    { cbn. now rewrite app_nil_r. }
    destruct (malloc (AExtra (b - (buffer + len))) w1) as [ok w2] eqn:Hm.
    apply malloc_cases in Hm. destruct ok.
    + cbn [EP.set_extra EP.extra]. rewrite blob_block_memcpy by exact Hlen.
      congruence.
    + cbn. rewrite app_nil_r. congruence.
  - destruct Hs as (_ & Ha & _). rewrite allocs_see in Ha.
    rewrite Hx'. cbn. rewrite app_nil_r. exact Ha.
Qed.

Lemma clear_endpoint_zeros (n : nat) :
  flat_map clear_endpoint (repeat EP.zero n) = [].
Proof. induction n; [reflexivity | exact IHn]. Qed.

Lemma parse_endpoints_blocks (mem : list byte) :
  forall (n : nat) (buffer size parsed : Z) (w : world),
    match parse_endpoints n mem buffer size parsed w with
    | None => True
    | Some (eps, f, w') =>
        length eps = n /\
        allocs w' = allocs w ++ flat_map clear_endpoint eps
    end.
Proof.
  induction n as [|n IH]; intros buffer size parsed w; cbn [parse_endpoints].
  { split; [reflexivity | cbn; now rewrite app_nil_r]. }
  destruct (h_bLength (read_header mem buffer) >? size).
  { split; [apply repeat_length|].
    rewrite allocs_see, clear_endpoint_zeros. now rewrite app_nil_r. }
  pose proof (parse_endpoint_blocks EP.zero mem buffer size w eq_refl) as He.
  destruct (parse_endpoint EP.zero mem buffer size w) as [[[ep r] w1]|];
    [|exact I].
  destruct (r <? 0).
  { split; [cbn; now rewrite repeat_length|].
    cbn [flat_map]. now rewrite clear_endpoint_zeros, app_nil_r. }
  specialize (IH (buffer + r) (size - r) (parsed + r) w1).
  destruct (parse_endpoints n mem (buffer + r) (size - r) (parsed + r) w1)
    as [[[eps f] w2]|]; [|exact I].
  destruct IH as [Hn Ha]. split; [cbn; now rewrite Hn|].
  cbn [flat_map]. rewrite Ha, He. now rewrite app_assoc.
Qed.

(** The blocks of the endpoint array of an alternate setting. *)
Lemma finish_altsetting_blocks (alts : list ALT.t) (ifp : ALT.t)
    (mem : list byte) (buffer size parsed : Z) (w : world) :
  ALT.endpoint ifp = None ->
  match finish_altsetting alts ifp mem buffer size parsed w with
  | None => True
  | Some (alts', f, w') =>
      exists a, alts' = alts ++ [a] /\ ALT.extra a = ALT.extra ifp /\
                alt_shape a /\
                allocs w'
                = allocs w ++
                  match ALT.endpoint a with
                  | Some eps =>
                      AEndpoints (ALT.bNumEndpoints a)
                      :: flat_map clear_endpoint eps
                  | None => []
                  end
  end.
Proof.
  intros Hn. unfold finish_altsetting.
  assert (Hsame : exists a, alts ++ [ifp] = alts ++ [a] /\
                    ALT.extra a = ALT.extra ifp /\ alt_shape a /\
                    allocs w
                    = allocs w ++
                      match ALT.endpoint a with
                      | Some eps =>
                          AEndpoints (ALT.bNumEndpoints a)
                          :: flat_map clear_endpoint eps
                      | None => []
                      end).
  { exists ifp. unfold alt_shape. rewrite Hn, app_nil_r. auto. }
  destruct (_ && _); [exact Hsame|].
  destruct (ALT.bNumEndpoints ifp >? USB_MAXENDPOINTS) eqn:Hmax;
    [exact Hsame|].
  destruct (ALT.bNumEndpoints ifp >? 0) eqn:Hpos; [|exact Hsame].
  zb.
  destruct (malloc (AEndpoints (ALT.bNumEndpoints ifp)) w) as [ok w1] eqn:Hm.
  apply malloc_cases in Hm. destruct ok; cbn [negb].
  2: { rewrite Hm. exact Hsame. }
  pose proof (parse_endpoints_blocks mem (Z.to_nat (ALT.bNumEndpoints ifp))
                buffer size parsed w1) as He.
  destruct (parse_endpoints (Z.to_nat (ALT.bNumEndpoints ifp)) mem buffer size
              parsed w1) as [[[eps f] w2]|]; [|exact I].
  destruct He as [Hlen Ha].
  assert (Hdone : exists a,
            alts ++ [ALT.set_endpoint (Some eps) ifp] = alts ++ [a] /\
            ALT.extra a = ALT.extra ifp /\ alt_shape a /\
            allocs w2
            = allocs w ++
              match ALT.endpoint a with
              | Some eps =>
                  AEndpoints (ALT.bNumEndpoints a)
                  :: flat_map clear_endpoint eps
              | None => []
              end).
  { exists (ALT.set_endpoint (Some eps) ifp).
    split; [reflexivity|]. split; [reflexivity|].
    split; [unfold alt_shape; cbn; lia|].
    cbn. rewrite Ha, Hm. now rewrite <- app_assoc. }
  destruct f; exact Hdone.
Qed.

Lemma altsettings_requests_app (l1 l2 : list ALT.t) :
  forall k,
    altsettings_requests k (l1 ++ l2)
    = altsettings_requests k l1
      ++ altsettings_requests (k + Z.of_nat (length l1)) l2.
Proof.
  induction l1 as [|a l1 IH]; intros k.
  - cbn. now rewrite Z.add_0_r.
  - cbn [altsettings_requests app length]. rewrite IH, <- app_assoc.
    do 3 f_equal. lia.
Qed.

Lemma parse_altsetting_blocks (alts : list ALT.t) (mem : list byte)
    (buffer size parsed : Z) (w : world) :
  match parse_altsetting alts mem buffer size parsed w with
  | None => True
  | Some (alts', f, w') =>
      exists news, alts' = alts ++ news /\ Forall alt_shape news /\
                   allocs w'
                   = allocs w
                     ++ altsettings_requests (Z.of_nat (length alts) + 1) news
  end.
Proof.
  unfold parse_altsetting.
  destruct (malloc (AAltsetting _) w) as [ok w0] eqn:Hm0.
  apply malloc_cases in Hm0. destruct ok; cbn [negb].
  2: { exists []. rewrite !app_nil_r. auto. }
  set (ifp := new_altsetting mem buffer).
  set (k := Z.of_nat (length alts) + 1) in *.
  assert (Hbare : forall w1, allocs w1 = allocs w0 ->
            exists news, alts ++ [ifp] = alts ++ news /\
                         Forall alt_shape news /\
                         allocs w1 = allocs w ++ altsettings_requests k news).
  { intros w1 H1. exists [ifp]. split; [reflexivity|].
    split; [repeat constructor|].
    cbn. rewrite H1, Hm0. reflexivity. }
  set (len := ALT.bLength ifp).
  pose proof (skip_descriptors_spec LInterfaceExtra false mem
                ltac:(discriminate) (Z.to_nat (size - len)) (buffer + len)
                (size - len) (parsed + len)
                (see LInterface len size true w0)) as Hs.
  destruct (skip_descriptors LInterfaceExtra false (Z.to_nat (size - len)) mem
              (buffer + len) (size - len) (parsed + len)
              (see LInterface len size true w0)) as [[b s p w1|w1]|];
    [| |exact I].
  2: { destruct Hs as (_ & Ha & _). apply Hbare. exact Ha. }
  destruct Hs as (_ & Ha & _ & _ & _ & evs & _ & _ & _ & _ & _ & Hlen).
  rewrite allocs_see in Ha.
  assert (Hfin : forall ifp' w2 xs,
            ALT.endpoint ifp' = None ->
            blob_block (ALT.extra ifp') = xs ->
            allocs w2 = allocs w0 ++ xs ->
            match finish_altsetting alts ifp' mem b s p w2 with
            | None => True
            | Some (alts', f, w') =>
                exists news, alts' = alts ++ news /\ Forall alt_shape news /\
                             allocs w'
                             = allocs w ++ altsettings_requests k news
            end).
  { intros ifp' w2 xs Hn Hx H2.
    pose proof (finish_altsetting_blocks alts ifp' mem b s p w2 Hn) as Hf.
    destruct (finish_altsetting alts ifp' mem b s p w2) as [[[alts' f] w3]|];
      [|exact I].
    destruct Hf as (a & -> & Hxa & Hsh & Ha3).
    exists [a]. split; [reflexivity|]. split; [repeat constructor; exact Hsh|].
    cbn [altsettings_requests]. unfold altsetting_requests.
    rewrite Ha3, H2, Hm0, Hxa, Hx, app_nil_r, <- !app_assoc. reflexivity. }
  destruct (b - (buffer + len) =? 0).
  { apply (Hfin ifp w1 []); [reflexivity | reflexivity |].
    now rewrite app_nil_r. }
  destruct (malloc (AExtra (b - (buffer + len))) w1) as [ok w2] eqn:Hm.
  apply malloc_cases in Hm. destruct ok; cbn [negb].
  - apply (Hfin _ w2 [AExtra (b - (buffer + len))]); [reflexivity | |].
    + cbn [ALT.set_extra ALT.extra]. now apply blob_block_memcpy.
    + congruence.
  - apply Hbare. congruence.
Qed.

Lemma parse_altsettings_blocks (mem : list byte) :
  forall (fuel : nat) (alts : list ALT.t) (buffer size parsed : Z) (w : world),
    match parse_altsettings fuel alts mem buffer size parsed w with
    | None => True
    | Some (i, r, w') =>
        exists news, IFACE.altsetting i = alts ++ news /\
                     Forall alt_shape news /\
                     allocs w'
                     = allocs w
                       ++ altsettings_requests (Z.of_nat (length alts) + 1) news
    end.
Proof.
  induction fuel as [|fuel IH]; intros alts buffer size parsed w;
    cbn [parse_altsettings].
  - destruct (size <? INTERFACE_DESC_LENGTH); [|exact I].
    exists []. cbn. rewrite !app_nil_r. auto.
  - destruct (size <? INTERFACE_DESC_LENGTH).
    { exists []. cbn. rewrite !app_nil_r. auto. }
    pose proof (parse_altsetting_blocks alts mem buffer size parsed w) as Hr.
    destruct (parse_altsetting alts mem buffer size parsed w)
      as [[[alts1 f] w1]|]; [|exact I].
    destruct Hr as (n1 & -> & Hs1 & Ha1).
    destruct f as [b s p|r].
    + specialize (IH (alts ++ n1) b s p w1).
      destruct (parse_altsettings fuel (alts ++ n1) mem b s p w1)
        as [[[i r] w2]|]; [|exact I].
      destruct IH as (n2 & Hi & Hs2 & Ha2).
      exists (n1 ++ n2). split; [now rewrite Hi, app_assoc|].
      split; [apply Forall_app; auto|].
      rewrite Ha2, Ha1, altsettings_requests_app, length_app, <- app_assoc.
      do 3 f_equal. lia.
    + exists n1. auto.
Qed.

Lemma parse_interface_blocks (mem : list byte) (buffer size : Z) (w : world) :
  match parse_interface mem buffer size w with
  | None => True
  | Some (i, r, w') =>
      iface_shape i /\ allocs w' = allocs w ++ interface_requests i
  end.
Proof.
  unfold parse_interface.
  pose proof (parse_altsettings_blocks mem (Z.to_nat size) [] buffer size 0 w)
    as H.
  destruct (parse_altsettings (Z.to_nat size) [] mem buffer size 0 w)
    as [[[i r] w']|]; [|exact I].
  destruct H as (news & Hi & Hs & Ha). cbn in Hi.
  unfold iface_shape, interface_requests. rewrite Hi. auto.
Qed.

Lemma interface_requests_zeros (n : nat) :
  flat_map interface_requests (repeat IFACE.zero n) = [].
Proof. induction n; [reflexivity | exact IHn]. Qed.

Lemma iface_shape_zeros (n : nat) : Forall iface_shape (repeat IFACE.zero n).
Proof. apply Forall_repeat. constructor. Qed.

Lemma parse_interface_slot_blocks (mem : list byte) (buffer size : Z)
    (extra : blob) (extra_length : Z) (w : world) :
  (extra = None <-> extra_length = 0) ->
  match parse_interface_slot mem buffer size extra extra_length w with
  | None => True
  | Some (i, x, xl, e, w') =>
      iface_shape i /\ (x = None <-> xl = 0) /\
      exists news,
        allocs w' = allocs w ++ news /\
        Permutation (blob_block extra ++ news)
          (blob_block x ++ interface_requests i)
  end.
Proof.
  intros Hinv. unfold parse_interface_slot.
  pose proof (skip_descriptors_spec LConfigExtra true mem ltac:(discriminate)
                (Z.to_nat size) buffer size 0 w) as Hs.
  destruct (skip_descriptors LConfigExtra true (Z.to_nat size) mem buffer size
              0 w) as [[b s p w1|w1]|]; [| |exact I].
  2: { destruct Hs as (_ & Ha & _).
       split; [constructor|]. split; [exact Hinv|].
       exists []. rewrite !app_nil_r. auto. }
  destruct Hs as (_ & Ha & _ & _ & _ & evs & _ & _ & _ & _ & _ & Hlen).
  set (len := b - buffer) in *.
  assert (Hgo : forall x xl w2 pre,
            (x = None <-> xl = 0) ->
            allocs w2 = allocs w ++ pre ->
            Permutation (blob_block extra ++ pre) (blob_block x) ->
            match
              match parse_interface mem b s w2 with
              | Some (i, r, w3) =>
                  if r <? 0 then Some (i, x, xl, SlotFail r, w3)
                  else Some (i, x, xl, SlotDone (b + r) (s - r), w3)
              | None => None
              end
            with
            | None => True
            | Some (i, x', xl', e, w') =>
                iface_shape i /\ (x' = None <-> xl' = 0) /\
                exists news,
                  allocs w' = allocs w ++ news /\
                  Permutation (blob_block extra ++ news)
                    (blob_block x' ++ interface_requests i)
            end).
  { intros x xl w2 pre Hi H2 Hp.
    pose proof (parse_interface_blocks mem b s w2) as Hb.
    destruct (parse_interface mem b s w2) as [[[i r] w3]|]; [|exact I].
    destruct Hb as [Hsh Ha3].
    assert (Hnews : exists news,
              allocs w3 = allocs w ++ news /\
              Permutation (blob_block extra ++ news)
                (blob_block x ++ interface_requests i)).
    { exists (pre ++ interface_requests i).
      split; [rewrite Ha3, H2; now rewrite app_assoc|].
      rewrite app_assoc. now apply Permutation_app_tail. }
    destruct (r <? 0); auto. }
  destruct (negb (len =? 0) && (extra_length =? 0)) eqn:Hc.
  - zb. subst extra_length.
    assert (Hnone : extra = None) by now apply Hinv.
    destruct (malloc (AExtra len) (note_run (memcpy mem buffer len) w1))
      as [ok w2] eqn:Hm.
    apply malloc_cases in Hm. rewrite allocs_note_run, Ha in Hm.
    destruct ok; cbn [negb].
    + apply (Hgo _ _ w2 [AExtra len]).
      * split; [discriminate | lia].
      * exact Hm.
      * rewrite Hnone, blob_block_memcpy by exact Hlen. reflexivity.
    + split; [constructor|]. split; [tauto|].
      exists []. rewrite !app_nil_r. split; [exact Hm|].
      rewrite Hnone. reflexivity.
  - cbn [negb]. apply (Hgo _ _ _ []).
    + exact Hinv.
    + now rewrite allocs_note_run, Ha, app_nil_r.
    + now rewrite app_nil_r.
Qed.

Lemma parse_interfaces_blocks (mem : list byte) :
  forall (n : nat) (buffer size : Z) (extra : blob) (extra_length : Z)
         (w : world),
    (extra = None <-> extra_length = 0) ->
    match parse_interfaces n mem buffer size extra extra_length w with
    | None => True
    | Some (ifs, x, xl, r, w') =>
        length ifs = n /\ Forall iface_shape ifs /\ (x = None <-> xl = 0) /\
        exists news,
          allocs w' = allocs w ++ news /\
          Permutation (blob_block extra ++ news)
            (blob_block x ++ flat_map interface_requests ifs)
    end.
Proof.
  induction n as [|n IH]; intros buffer size extra extra_length w Hinv;
    cbn [parse_interfaces].
  { split; [reflexivity|]. split; [constructor|]. split; [exact Hinv|].
    exists []. cbn. rewrite !app_nil_r. auto. }
  pose proof (parse_interface_slot_blocks mem buffer size extra extra_length w
                Hinv) as Hslot.
  destruct (parse_interface_slot mem buffer size extra extra_length w)
    as [[[[[i x1] xl1] e] w1]|]; [|exact I].
  destruct Hslot as (Hsh & Hinv1 & n1 & Ha1 & Hp1).
  destruct e as [b s|r].
  - specialize (IH b s x1 xl1 w1 Hinv1).
    destruct (parse_interfaces n mem b s x1 xl1 w1)
      as [[[[[ifs x] xl] r] w2]|]; [|exact I].
    destruct IH as (Hlen & Hshs & Hinv2 & n2 & Ha2 & Hp2).
    split; [cbn; now rewrite Hlen|]. split; [constructor; assumption|].
    split; [exact Hinv2|].
    exists (n1 ++ n2). split; [rewrite Ha2, Ha1; now rewrite app_assoc|].
    cbn [flat_map].
    rewrite app_assoc, Hp1, <- app_assoc.
    rewrite (Permutation_app_comm (interface_requests i) n2).
    rewrite app_assoc, Hp2, <- app_assoc.
    apply Permutation_app_head, Permutation_app_comm.
  - split; [cbn; now rewrite repeat_length|].
    split; [constructor; [exact Hsh | apply iface_shape_zeros]|].
    split; [exact Hinv1|].
    exists n1. split; [exact Ha1|].
    cbn [flat_map]. now rewrite interface_requests_zeros, app_nil_r.
Qed.

(** What [parse_configuration] leaves, once the interface array is
    asked for. *)
Lemma parse_configuration_blocks (config : CFG.t) (mem : list byte)
    (w : world) :
  match parse_configuration config mem w with
  | None => True
  | Some (c, r, w') =>
      (r = LIBUSB_ERROR_IO /\ CFG.bNumInterfaces c > USB_MAXINTERFACES /\
       CFG.interface c = CFG.interface config /\ allocs w' = allocs w) \/
      (r = LIBUSB_ERROR_NO_MEM /\ CFG.interface c = None /\
       allocs w' = allocs w) \/
      (cfg_shape c /\ CFG.interface c <> None /\
       exists news, allocs w' = allocs w ++ news /\
                    Permutation news (configuration_requests c))
  end.
Proof.
  unfold parse_configuration.
  set (c0 := CFG.store (fst (usbi_parse_descriptor mem 0 "bbwbbbbb")) config).
  assert (Hn : 0 <= CFG.bNumInterfaces c0 < 256) by apply u8_range.
  destruct (CFG.bNumInterfaces c0 >? USB_MAXINTERFACES) eqn:Hmax.
  { left. zb. repeat split; auto. lia. }
  zb.
  destruct (malloc (AInterfaces (CFG.bNumInterfaces c0)) w) as [ok w0] eqn:Hm.
  apply malloc_cases in Hm. destruct ok; cbn [negb].
  2: { right. left. auto. }
  pose proof (parse_interfaces_blocks mem (Z.to_nat (CFG.bNumInterfaces c0))
                (0 + CFG.bLength c0) (CFG.wTotalLength c0 - CFG.bLength c0)
                None 0
                (see LConfig (CFG.bLength c0) (CFG.wTotalLength c0) true w0)
                ltac:(tauto)) as Hl.
  destruct (parse_interfaces (Z.to_nat (CFG.bNumInterfaces c0)) mem
              (0 + CFG.bLength c0) (CFG.wTotalLength c0 - CFG.bLength c0)
              None 0
              (see LConfig (CFG.bLength c0) (CFG.wTotalLength c0) true w0))
    as [[[[[ifs x] xl] r] w1]|]; [|exact I].
  destruct Hl as (Hlen & Hsh & _ & news & Ha & Hp).
  right. right. rewrite allocs_see in Ha.
  split; [|split; [discriminate|]].
  - unfold cfg_shape. cbn [CFG.set_extra CFG.set_interface CFG.interface
                            CFG.bNumInterfaces].
    split; [lia|]. split; [lia | exact Hsh].
  - exists (AInterfaces (CFG.bNumInterfaces c0) :: news).
    split; [rewrite Ha, Hm; now rewrite <- app_assoc|].
    unfold configuration_requests. cbn. constructor. exact Hp.
Qed.

(** X4.  In the tree of a call of [parse_configuration] that returns a
    non-negative value, the arrays have the sizes the counts of the tree
    say: the interface array is there and has [bNumInterfaces] slots, at
    most [USB_MAXINTERFACES], and every endpoint array that is there has
    the [bNumEndpoints] slots of its alternate setting, at least one and
    at most [USB_MAXENDPOINTS]. *)
Theorem tree_arrays_sized (config : CFG.t) (mem : list byte) (w : world) :
  exists c r w',
    parse_configuration config mem w = Some (c, r, w') /\
    (0 <= r -> cfg_shape c /\ CFG.interface c <> None).
Proof.
  pose proof (parse_configuration_spec config mem w) as Ht.
  pose proof (parse_configuration_blocks config mem w) as Hb.
  destruct (parse_configuration config mem w) as [[[c r] w']|];
    [|contradiction].
  exists c, r, w'. split; [reflexivity|]. intros Hr.
  destruct Hb as [(Hio & _)|[(Hmem & _)|(Hs & Hi & _)]]; [lia | lia |].
  split; [exact Hs | exact Hi].
Qed.

(** X5.  The requests for memory that [parse_configuration] is granted
    are those that made the tree it leaves, one for one, on failure as
    on success: the interface array, the extra blob of the configuration,
    and for each alternate setting the growth of the [altsetting] array
    by one slot, its extra blob, its endpoint array and the extra blobs
    of its endpoints.  Nothing is asked for and then left out of the
    tree (on a failure, the tree as it stands when the release routine
    is entered).  A call that refuses the interface count asks for
    nothing. *)
Theorem requests_are_the_tree (config : CFG.t) (mem : list byte) (w : world) :
  exists c r w' news,
    parse_configuration config mem w = Some (c, r, w') /\
    allocs w' = allocs w ++ news /\
    (Permutation news (configuration_requests c) \/
     (r = LIBUSB_ERROR_IO /\ CFG.bNumInterfaces c > USB_MAXINTERFACES /\
      news = [])).
Proof.
  pose proof (parse_configuration_spec config mem w) as Ht.
  pose proof (parse_configuration_blocks config mem w) as Hb.
  destruct (parse_configuration config mem w) as [[[c r] w']|];
    [|contradiction].
  destruct Hb as [(Hr & Hn & _ & Ha)|[(Hr & Hi & Ha)|(_ & _ & news & Ha & Hp)]].
  - exists c, r, w', []. rewrite app_nil_r.
    split; [reflexivity|]. split; [exact Ha|]. right. auto.
  - exists c, r, w', []. rewrite app_nil_r.
    split; [reflexivity|]. split; [exact Ha|]. left.
    unfold configuration_requests. now rewrite Hi.
  - exists c, r, w', news. auto.
Qed.

(** ** The release routines *)

Lemma Permutation_filter {A : Type} (f : A -> bool) (l l' : list A) :
  Permutation l l' -> Permutation (filter f l) (filter f l').
Proof.
  induction 1 as [|x l l' _ IH|x y l|l l' l'' _ IH1 _ IH2]; cbn.
  - constructor.
  - destruct (f x); [constructor|]; exact IH.
  - destruct (f x), (f y); try reflexivity. constructor.
  - now transitivity (filter f l').
Qed.

Lemma plain_filter (l : list alloc) :
  plain l ->
  filter not_altsetting l = l /\ filter is_altsetting l = [] /\
  filter new_array l = [].
Proof.
  induction 1 as [|a l Ha _ (IH1 & IH2 & IH3)]; [auto|].
  destruct a; try discriminate Ha;
    cbn [filter not_altsetting new_array is_altsetting negb];
    rewrite IH1, IH2, IH3; auto.
Qed.

Lemma plain_blob (x : blob) : plain (blob_block x).
Proof. destruct x; repeat constructor. Qed.

Lemma plain_endpoints (eps : list EP.t) : plain (flat_map clear_endpoint eps).
Proof.
  induction eps as [|e eps IH]; [constructor|].
  cbn. apply Forall_app. split; [apply plain_blob | exact IH].
Qed.

Lemma clear_endpoints_all (eps : list EP.t) :
  forall pre : list EP.t,
    clear_endpoints (length eps) (pre ++ eps) (length pre)
    = Some (flat_map clear_endpoint eps).
Proof.
  induction eps as [|e eps IH]; intros pre; cbn [length clear_endpoints].
  - reflexivity.
  - rewrite nth_error_app2, Nat.sub_diag by lia. cbn [nth_error].
    specialize (IH (pre ++ [e])).
    rewrite <- app_assoc, length_app, Nat.add_1_r in IH. cbn in IH.
    now rewrite IH.
Qed.

Lemma clear_altsetting_sized (a : ALT.t) :
  alt_shape a ->
  exists fa, clear_altsetting a = Some fa /\ plain fa /\
             forall k, Permutation (AAltsetting k :: fa)
                         (altsetting_requests k a).
Proof.
  unfold alt_shape, clear_altsetting, altsetting_requests.
  destruct (ALT.endpoint a) as [eps|].
  - intros [Hn Hlen].
    rewrite <- Hlen, Nat2Z.id.
    pose proof (clear_endpoints_all eps []) as Hc. cbn [app length] in Hc.
    rewrite Hc.
    eexists. split; [reflexivity|]. split.
    + apply Forall_app. split; [apply plain_blob|].
      apply Forall_app. split; [apply plain_endpoints | repeat constructor].
    + intros k. constructor. apply Permutation_app_head.
      symmetry. apply Permutation_cons_append.
  - intros _. eexists. split; [reflexivity|]. split; [apply plain_blob|].
    intros k. now rewrite app_nil_r.
Qed.

Lemma new_array_later (alts : list ALT.t) :
  forall k, 1 < k -> Forall alt_shape alts ->
    filter new_array (altsettings_requests k alts) = [].
Proof.
  induction alts as [|a alts IH]; intros k Hk Hs; [reflexivity|].
  inversion Hs as [|? ? Ha Hs']; subst.
  cbn [altsettings_requests]. rewrite filter_app, IH by (lia || assumption).
  rewrite app_nil_r.
  destruct (clear_altsetting_sized a Ha) as (fa & _ & Hp & Hperm).
  apply Permutation_nil. symmetry.
  rewrite <- (Permutation_filter new_array _ _ (Hperm k)).
  cbn. destruct (Z.eqb_spec k 1) as [->|_]; [lia|].
  now rewrite (proj2 (proj2 (plain_filter fa Hp))).
Qed.

Lemma clear_altsettings_sized (alts : list ALT.t) :
  Forall alt_shape alts ->
  exists fl, clear_altsettings alts = Some fl /\ plain fl /\
             forall k, Permutation fl
                         (filter not_altsetting (altsettings_requests k alts)).
Proof.
  induction 1 as [|a alts Ha _ (fl & Hc & Hp & Hperm)].
  - exists []. repeat split; constructor.
  - destruct (clear_altsetting_sized a Ha) as (fa & Hca & Hpa & Hperma).
    exists (fa ++ fl). cbn [clear_altsettings]. rewrite Hca, Hc.
    split; [reflexivity|]. split; [apply Forall_app; auto|].
    intros k. cbn [altsettings_requests]. rewrite filter_app.
    apply Permutation_app; [|apply Hperm].
    rewrite <- (Permutation_filter not_altsetting _ _ (Hperma k)).
    cbn. now rewrite (proj1 (plain_filter fa Hpa)).
Qed.

Lemma clear_interface_sized (i : IFACE.t) :
  iface_shape i ->
  exists fi, clear_interface i = Some fi /\
             Permutation (filter not_altsetting fi)
               (filter not_altsetting (interface_requests i)) /\
             length (filter is_altsetting fi)
             = length (filter new_array (interface_requests i)).
Proof.
  unfold iface_shape, clear_interface, interface_requests.
  destruct (IFACE.altsetting i) as [|a alts] eqn:E; intros Hs.
  - exists []. repeat split; constructor.
  - destruct (clear_altsettings_sized (a :: alts) Hs) as (fl & -> & Hp & Hperm).
    eexists. split; [reflexivity|].
    destruct (plain_filter fl Hp) as (F1 & F2 & F3).
    rewrite !filter_app, F1, F2. cbn [filter not_altsetting is_altsetting negb].
    split; [rewrite app_nil_r; apply Hperm|].
    inversion Hs as [|? ? Ha Hs']; subst.
    cbn [altsettings_requests]. rewrite filter_app.
    rewrite (new_array_later alts (1 + 1)) by (lia || assumption).
    destruct (clear_altsetting_sized a Ha) as (fa & _ & Hpa & Hperma).
    rewrite app_nil_r.
    rewrite <- (Permutation_length
                  (Permutation_filter new_array _ _ (Hperma 1))).
    cbn. now rewrite (proj2 (proj2 (plain_filter fa Hpa))).
Qed.

Lemma clear_interfaces_sized (ifs : list IFACE.t) :
  Forall iface_shape ifs ->
  forall pre : list IFACE.t,
  exists fl, clear_interfaces (length ifs) (pre ++ ifs) (length pre) = Some fl /\
             Permutation (filter not_altsetting fl)
               (filter not_altsetting (flat_map interface_requests ifs)) /\
             length (filter is_altsetting fl)
             = length (filter new_array (flat_map interface_requests ifs)).
Proof.
  induction 1 as [|i ifs Hi _ IH]; intros pre; cbn [length clear_interfaces].
  - exists []. repeat split; constructor.
  - rewrite nth_error_app2, Nat.sub_diag by lia. cbn [nth_error].
    destruct (clear_interface_sized i Hi) as (fi & -> & Hp1 & Hc1).
    destruct (IH (pre ++ [i])) as (fl & Hc & Hp2 & Hc2).
    rewrite <- app_assoc, length_app, Nat.add_1_r in Hc. cbn in Hc.
    rewrite Hc. exists (fi ++ fl). split; [reflexivity|].
    cbn [flat_map]. rewrite !filter_app, !length_app.
    split; [now apply Permutation_app | lia].
Qed.

Lemma clear_configuration_sized (c : CFG.t) :
  cfg_shape c -> CFG.interface c <> None ->
  exists fc, clear_configuration c = Some fc /\
             Permutation (filter not_altsetting fc)
               (filter not_altsetting (configuration_requests c)) /\
             length (filter is_altsetting fc)
             = length (filter new_array (configuration_requests c)).
Proof.
  unfold cfg_shape, clear_configuration, configuration_requests.
  destruct (CFG.interface c) as [ifs|]; [|congruence].
  intros (Hn & Hlen & Hs) _.
  rewrite <- Hlen, Nat2Z.id.
  destruct (clear_interfaces_sized ifs Hs []) as (fl & Hc & Hp & Hcount).
  cbn [app length] in Hc. rewrite Hc.
  eexists. split; [reflexivity|].
  destruct (plain_filter _ (plain_blob (CFG.extra c))) as (F1 & F2 & F3).
  rewrite !filter_app.
  cbn [filter not_altsetting is_altsetting new_array negb].
  rewrite !filter_app, !F1, !F2, !F3, !app_nil_r. cbn [app].
  split; [|exact Hcount].
  rewrite <- app_assoc. cbn [app].
  rewrite <- Permutation_middle. constructor.
  rewrite Permutation_app_comm. now apply Permutation_app_head.
Qed.

Lemma fetch_and_parse_blocks (fetch : Z -> Z * list byte) (tmp : list byte)
    (w w' : world) (c : CFG.t) :
  fetch_and_parse fetch tmp w = Some (Some c, w') ->
  cfg_shape c /\ CFG.interface c <> None /\
  exists n news, allocs w' = allocs w ++ ABuffer n :: news /\
                 Permutation news (configuration_requests c).
Proof.
  unfold fetch_and_parse.
  set (config := CFG.store _ fresh_config).
  destruct (malloc (ABuffer (CFG.wTotalLength config)) w) as [ok w1] eqn:Hm.
  apply malloc_cases in Hm. destruct ok; cbn [negb]; [|discriminate].
  destruct (fetch (CFG.wTotalLength config)) as [r0 buf].
  destruct (r0 <? 0); [discriminate|].
  pose proof (parse_configuration_blocks config buf w1) as Hb.
  destruct (parse_configuration config buf w1) as [[[c1 r] w2]|];
    [|discriminate].
  destruct (r <? 0) eqn:Hr; [discriminate|]. zb.
  intros E. injection E as -> ->.
  destruct Hb as [(Hr' & _)|[(Hr' & _)|(Hs & Hi & news & Ha & Hp)]];
    [lia | lia |].
  split; [exact Hs|]. split; [exact Hi|].
  exists (CFG.wTotalLength config), news.
  split; [rewrite Ha, Hm; now rewrite <- app_assoc | exact Hp].
Qed.

Lemma free_after_fetch (fetch : Z -> Z * list byte) (tmp : list byte)
    (w0 w w' : world) (c : CFG.t) :
  allocs w = allocs w0 ++ [AConfig] ->
  fetch_and_parse fetch tmp w = Some (Some c, w') ->
  exists frees news,
    libusb_free_config_descriptor (Some c) = Some frees /\
    allocs w' = allocs w0 ++ news /\
    all_but_the_buffer news frees.
Proof.
  intros H0 Hf. apply fetch_and_parse_blocks in Hf.
  destruct Hf as (Hs & Hi & n & news & Ha & Hp).
  destruct (clear_configuration_sized c Hs Hi) as (fc & Hc & Hperm & Hcount).
  unfold libusb_free_config_descriptor. rewrite Hc.
  exists (fc ++ [AConfig]), (AConfig :: ABuffer n :: news).
  split; [reflexivity|].
  split; [rewrite Ha, H0; now rewrite <- app_assoc|].
  exists n. rewrite !filter_app, !length_app.
  cbn [filter not_altsetting is_altsetting new_array negb length].
  split.
  - rewrite <- Permutation_cons_append, perm_swap. do 2 constructor.
    rewrite Hperm. now apply Permutation_filter.
  - rewrite Hcount, Nat.add_0_r.
    apply Permutation_length. apply Permutation_filter. now symmetry.
Qed.

(** X6.  A configuration descriptor that one of the retrieval entry
    points returns can be released: [libusb_free_config_descriptor] stays
    inside every array it walks, and the blocks it hands to [free] are the
    blocks the entry point was granted, each once, the configuration
    structure included, with one exception: the transfer buffer [buf],
    which neither the entry point nor the release routine frees.  Called
    on [NULL] the release routine frees nothing. *)
Theorem free_releases_the_tree :
  (forall (dev : libusb_device) (config_index : Z) (w w' : world) (c : CFG.t),
     libusb_get_config_descriptor dev config_index w = Some (Some c, w') ->
     exists frees news,
       libusb_free_config_descriptor (Some c) = Some frees /\
       allocs w' = allocs w ++ news /\
       all_but_the_buffer news frees) /\
  (forall (dev : libusb_device) (w w' : world) (c : CFG.t),
     libusb_get_active_config_descriptor dev w = Some (Some c, w') ->
     exists frees news,
       libusb_free_config_descriptor (Some c) = Some frees /\
       allocs w' = allocs w ++ news /\
       all_but_the_buffer news frees) /\
  libusb_free_config_descriptor None = Some [].
Proof.
  split; [|split; [|reflexivity]].
  - intros dev config_index w w' c. unfold libusb_get_config_descriptor.
    destruct (config_index >=? num_configurations dev); [discriminate|].
    destruct (malloc AConfig w) as [ok w1] eqn:Hm.
    apply malloc_cases in Hm. destruct ok; cbn [negb]; [|discriminate].
    destruct (backend_get_config_descriptor dev config_index 8) as [r tmp].
    destruct (r <? 0); [discriminate|].
    now apply free_after_fetch.
  - intros dev w w' c. unfold libusb_get_active_config_descriptor.
    destruct (malloc AConfig w) as [ok w1] eqn:Hm.
    apply malloc_cases in Hm. destruct ok; cbn [negb]; [|discriminate].
    destruct (backend_get_active_config_descriptor dev 8) as [r tmp].
    destruct (r <? 0); [discriminate|].
    now apply free_after_fetch.
Qed.

(** ** Edge cases of the decoders *)

(** X7.  A descriptor that is not an endpoint descriptor where
    [parse_interface] looks for the endpoints of an alternate setting is
    no error: as long as its declared length fits the bytes remaining,
    [parse_endpoint] returns 0 for every endpoint slot still to fill, the
    slots stay zeroed, nothing is taken from the stream and nothing is
    asked for, and the decoder goes on from the same cursor. *)
Theorem missing_endpoints_stay_zeroed (mem : list byte) (n : nat)
    (buffer size parsed : Z) (w : world) :
  h_bLength (read_header mem buffer) <= size ->
  h_bDescriptorType (read_header mem buffer) <> LIBUSB_DT_ENDPOINT ->
  parse_endpoint EP.zero mem buffer size w = Some (EP.zero, 0, w) /\
  parse_endpoints n mem buffer size parsed w
  = Some (repeat EP.zero n, Continue buffer size parsed, w).
Proof.
  intros Hlen Htype.
  assert (He : parse_endpoint EP.zero mem buffer size w = Some (EP.zero, 0, w)).
  { unfold parse_endpoint.
    destruct (h_bLength (read_header mem buffer) >? size) eqn:E; zb; [lia|].
    destruct (h_bDescriptorType (read_header mem buffer) =? LIBUSB_DT_ENDPOINT)
      eqn:E'; zb; [contradiction | reflexivity]. }
  split; [exact He|].
  revert parsed. induction n as [|n IH]; intros parsed; cbn [parse_endpoints].
  - reflexivity.
  - destruct (h_bLength (read_header mem buffer) >? size) eqn:E; zb; [lia|].
    rewrite He. cbn [Z.ltb Z.compare].
    rewrite Z.add_0_r, Z.sub_0_r, Z.add_0_r, IH. reflexivity.
Qed.

Lemma parse_interfaces_no_room (mem : list byte) :
  forall (n : nat) (buffer size : Z) (extra : blob) (extra_length : Z)
         (w : world),
    size < DESC_HEADER_LENGTH ->
    exists w',
      parse_interfaces n mem buffer size extra extra_length w
      = Some (repeat IFACE.zero n, extra, extra_length, size, w') /\
      allocs w' = allocs w /\ seen w' = seen w /\
      runs w' = runs w ++ repeat [] n.
Proof.
  induction n as [|n IH]; intros buffer size extra extra_length w Hs;
    cbn [parse_interfaces].
  { exists w. cbn. rewrite app_nil_r. auto. }
  unfold parse_interface_slot.
  assert (Hscan : skip_descriptors LConfigExtra true (Z.to_nat size) mem buffer
                    size 0 w = Some (ScanStop buffer size 0 w)).
  { destruct (Z.to_nat size); cbn [skip_descriptors];
      destruct (size <? DESC_HEADER_LENGTH) eqn:E; zb; reflexivity || lia. }
  rewrite Hscan, Z.sub_diag. cbn [Z.eqb negb andb].
  unfold parse_interface.
  assert (Halt : forall w1, parse_altsettings (Z.to_nat size) [] mem buffer
                              size 0 w1 = Some (IFACE.zero, 0, w1)).
  { intros w1. unfold DESC_HEADER_LENGTH in Hs.
    destruct (Z.to_nat size); cbn [parse_altsettings];
      destruct (size <? INTERFACE_DESC_LENGTH) eqn:E; zb;
      unfold INTERFACE_DESC_LENGTH in *; reflexivity || lia. }
  rewrite Halt. cbn [Z.ltb Z.compare]. rewrite Z.add_0_r, Z.sub_0_r.
  destruct (IH buffer size extra extra_length
              (note_run (memcpy mem buffer 0) w) Hs)
    as (w' & -> & Ha & Hseen & Hruns).
  exists w'. split; [reflexivity|].
  split; [exact Ha|]. split; [exact Hseen|].
  rewrite Hruns. unfold note_run. cbn [runs repeat].
  rewrite memcpy_nil, <- app_assoc. reflexivity.
Qed.

(** X8.  Interfaces that a configuration declares but has no room for
    are no error.  When [wTotalLength] leaves fewer than two bytes after
    the configuration header and the interface array is granted, no
    interface is looked for: all [bNumInterfaces] entries stay zeroed
    (no alternate setting), there is no extra blob, nothing else is asked
    for, and the value returned is [wTotalLength - bLength]: 0 or 1, a
    success, or a negative count when the header is longer than
    [wTotalLength]. *)
Theorem configuration_without_room (config : CFG.t) (mem : list byte)
    (w w0 : world) :
  let c0 := CFG.store (fst (usbi_parse_descriptor mem 0 "bbwbbbbb")) config in
  CFG.bNumInterfaces c0 <= USB_MAXINTERFACES ->
  malloc (AInterfaces (CFG.bNumInterfaces c0)) w = (true, w0) ->
  CFG.wTotalLength c0 - CFG.bLength c0 < DESC_HEADER_LENGTH ->
  exists w',
    parse_configuration config mem w
    = Some (CFG.set_extra None 0
              (CFG.set_interface
                 (Some (repeat IFACE.zero (Z.to_nat (CFG.bNumInterfaces c0))))
                 c0),
            CFG.wTotalLength c0 - CFG.bLength c0, w') /\
    allocs w' = allocs w ++ [AInterfaces (CFG.bNumInterfaces c0)].
Proof.
  intros c0 Hmax Hm Hroom. unfold parse_configuration. fold c0.
  destruct (CFG.bNumInterfaces c0 >? USB_MAXINTERFACES) eqn:E; zb; [lia|].
  rewrite Hm. cbn [negb].
  destruct (parse_interfaces_no_room mem (Z.to_nat (CFG.bNumInterfaces c0))
              (0 + CFG.bLength c0) (CFG.wTotalLength c0 - CFG.bLength c0)
              None 0
              (see LConfig (CFG.bLength c0) (CFG.wTotalLength c0) true w0)
              Hroom) as (w' & -> & Ha & _).
  exists w'. split; [reflexivity|].
  rewrite Ha, allocs_see. apply malloc_cases in Hm. exact Hm.
Qed.

(** X11.  The structure [parse_configuration] fills may hold anything
    beforehand (it comes from [malloc]): the value returned and the
    requests made do not depend on it, and when the call succeeds neither
    does any member of the tree. *)
Theorem garbage_is_overwritten (config1 config2 : CFG.t) (mem : list byte)
    (w w' : world) (c1 : CFG.t) (r : Z) :
  parse_configuration config1 mem w = Some (c1, r, w') ->
  exists c2,
    parse_configuration config2 mem w = Some (c2, r, w') /\
    (0 <= r -> c2 = c1).
Proof.
  unfold parse_configuration. rewrite !config_store_eq.
  cbn [CFG.bNumInterfaces CFG.wTotalLength CFG.bLength].
  destruct (u8 (rd mem 4) >? USB_MAXINTERFACES).
  { intros E. injection E as <- <- <-. eexists. split; [reflexivity|]. lia. }
  destruct (malloc (AInterfaces (u8 (rd mem 4))) w) as [ok w0].
  destruct ok; cbn [negb].
  2: { intros E. injection E as <- <- <-. eexists. split; [reflexivity|]. lia. }
  destruct (parse_interfaces _ mem _ _ None 0 _) as [[[[[ifs x] xl] r'] w1]|];
    [|discriminate].
  intros E. injection E as <- <- <-. eexists. split; reflexivity.
Qed.

(** ** The count of characters of the ASCII reduction *)

Lemma reduce_to_ascii_full (tbuf : list byte) (length : Z) (fuel : nat)
    (data : Z -> byte) (di si : Z) :
  length - 1 <= di -> (Z.to_nat (u8 (rd tbuf 0) - si) <= fuel)%nat ->
  reduce_to_ascii fuel tbuf length data di si = Some (data, di).
Proof.
  intros Hcap Hfuel.
  destruct fuel as [|fuel]; cbn [reduce_to_ascii];
    destruct (si <? u8 (rd tbuf 0)) eqn:Hsi; zb; try reflexivity; [lia|].
  destruct (di >=? length - 1) eqn:Hd; zb; [reflexivity | lia].
Qed.

(** X9.  When both fetches succeed and the string descriptor passes the
    checks, the count returned is the number of code units the declared
    length [tbuf[0]] covers from offset 2 on, half of [tbuf[0] - 1]
    rounded down (a code unit is counted as soon as its first byte lies
    within the declared length), capped at [length - 1] and never below
    0, and a zero byte is stored at that index.  With a capacity of 1 or
    less, 0 and negative values included, the call returns 0 and stores
    that zero byte at index 0 all the same. *)
Theorem ascii_count (dev : libusb_device_handle) (desc_index : Z)
    (tbuf0 t1 t2 : list byte) (data : Z -> byte) (length r1 r2 : Z) :
  libusb_get_string_descriptor dev 0 0 tbuf0 = (r1, t1) -> 4 <= r1 ->
  libusb_get_string_descriptor dev desc_index
    (Z.lor (u8 (rd t1 2)) (Z.shiftl (u8 (rd t1 3)) 8)) t1 = (r2, t2) ->
  0 <= r2 -> u8 (rd t2 1) = LIBUSB_DT_STRING -> u8 (rd t2 0) <= r2 ->
  exists data',
    libusb_get_string_descriptor_ascii dev desc_index tbuf0 data length
    = Some (data', Z.max 0 (Z.min (length - 1) ((u8 (rd t2 0) - 1) / 2))) /\
    data' (Z.max 0 (Z.min (length - 1) ((u8 (rd t2 0) - 1) / 2))) = x00 /\
    (length <= 1 -> forall j, data' j = if j =? 0 then x00 else data j).
Proof.
  intros H1 Hr1 H2 Hr2 Htype Hlen.
  unfold libusb_get_string_descriptor_ascii. rewrite H1.
  destruct (r1 <? 0) eqn:E1; zb; [lia|].
  destruct (r1 <? 4) eqn:E4; zb; [lia|].
  rewrite H2.
  destruct (r2 <? 0) eqn:E2; zb; [lia|].
  destruct (u8 (rd t2 1) =? LIBUSB_DT_STRING) eqn:Et; zb; [|contradiction].
  cbn [negb].
  destruct (u8 (rd t2 0) >? r2) eqn:Eg; zb; [lia|].
  pose proof (u8_range (rd t2 0)) as Hu.
  destruct (Z_le_gt_dec length 1) as [Hsmall|Hbig].
  - rewrite reduce_to_ascii_full by lia.
    replace (Z.max 0 (Z.min (length - 1) ((u8 (rd t2 0) - 1) / 2))) with 0
      by lia.
    eexists. split; [reflexivity|]. split; [apply store_same|].
    intros _ j. reflexivity.
  - pose proof (reduce_to_ascii_spec t2 length (Z.to_nat (u8 (rd t2 0) - 2))
                  data 0 2 ltac:(lia)) as Hloop.
    destruct (reduce_to_ascii (Z.to_nat (u8 (rd t2 0) - 2)) t2 length data 0 2)
      as [[data' di]|]; [|lia].
    destruct Hloop as (Hdi & _ & Hk & Hend).
    assert (Hin : di = 0 \/ 2 * di < u8 (rd t2 0)).
    { destruct (Z.eq_dec di 0) as [?|Hne]; [auto|]. right.
      destruct (Hk (di - 1) ltac:(lia)) as [Hlt _]. lia. }
    assert (Hdi' : di = Z.max 0 (Z.min (length - 1) ((u8 (rd t2 0) - 1) / 2))).
    { pose proof (Z.div_mod (u8 (rd t2 0) - 1) 2 ltac:(discriminate)) as Hq.
      pose proof (Z.mod_pos_bound (u8 (rd t2 0) - 1) 2 eq_refl) as Hm.
      lia. }
    rewrite <- Hdi'. eexists. split; [reflexivity|].
    split; [apply store_same | lia].
Qed.

(** ** From the bytes of a configuration to its tree, through the entry
    point *)

(** X10.  When the backend serves the bytes of a well-formed
    configuration for an index, the first four bytes in answer to the
    request for 8 and all of them (followed by anything) in answer to the
    request for [wTotalLength], [libusb_get_config_descriptor] returns the
    tree of that configuration, every request for memory being granted:
    the length it asks for in the second request is the total length of
    the configuration.  And [libusb_get_config_descriptor_by_value]
    returns this tree for the value that the probe of this index reads,
    when the probes of the indices before it succeed and read other
    values. *)
Theorem get_config_descriptor_round_trip (dev : libusb_device)
    (config_index : Z) (c : Config) (tmp tail : list byte) (r8 r0 : Z)
    (w : world) :
  wf_config c -> oracle w = [] ->
  config_index < num_configurations dev ->
  backend_get_config_descriptor dev config_index 8 = (r8, tmp) -> 0 <= r8 ->
  (forall i, 0 <= i < 4 -> rd tmp i = rd (config_bytes c) i) ->
  backend_get_config_descriptor dev config_index (len (config_bytes c))
  = (r0, config_bytes c ++ tail) ->
  0 <= r0 ->
  (exists w',
     libusb_get_config_descriptor dev config_index w
     = Some (Some (config_tree c), w')) /\
  (forall value : Z,
     0 <= config_index -> num_configurations dev <= 255 ->
     (forall j, 0 <= j < config_index ->
                exists v, probes dev j v /\ v <> value) ->
     probes dev config_index value ->
     exists w',
       libusb_get_config_descriptor_by_value dev value w
       = Some (Some (config_tree c), w')).
Proof.
  intros Hwf Ho Hidx H8 Hr8 Htmp Hfull Hr0.
  assert (Hget : exists w',
            libusb_get_config_descriptor dev config_index w
            = Some (Some (config_tree c), w')).
  { unfold libusb_get_config_descriptor.
    destruct (config_index >=? num_configurations dev) eqn:E; zb; [lia|].
    destruct (malloc_ok AConfig w Ho) as (w1 & -> & Ho1). cbn [negb].
    rewrite H8. destruct (r8 <? 0) eqn:E8; zb; [lia|].
    unfold fetch_and_parse.
    assert (Htot : CFG.wTotalLength
                     (CFG.store (fst (usbi_parse_descriptor tmp 0 "bbw"))
                        fresh_config)
                   = len (config_bytes c)).
    { transitivity (Z.lor (Z.shiftl (u8 (rd tmp 3)) 8) (u8 (rd tmp 2)));
        [reflexivity|].
      rewrite (Htmp 2), (Htmp 3) by lia.
      rewrite config_bytes_len.
      destruct Hwf as (_ & _ & Ht & _).
      pose proof (len_nonneg (config_body c)).
      change (rd (config_bytes c) 2) with (to_u8 (config_total c)).
      change (rd (config_bytes c) 3)
        with (to_u8 (Z.shiftr (config_total c) 8)).
      apply word_le. unfold config_total in *. lia. }
    rewrite Htot.
    destruct (malloc_ok (ABuffer (len (config_bytes c))) w1 Ho1)
      as (w2 & -> & Ho2).
    cbn [negb]. rewrite Hfull. destruct (r0 <? 0) eqn:E0; zb; [lia|].
    destruct (parse_configuration_wf c tail
                (CFG.store (fst (usbi_parse_descriptor tmp 0 "bbw"))
                   fresh_config)
                w2 Hwf Ho2) as (w' & ->).
    exists w'. reflexivity. }
  split; [exact Hget|].
  intros value H0 H255 Hbefore Hhit.
  unfold libusb_get_config_descriptor_by_value.
  rewrite (probe_configurations_found dev value (-1)
             (Z.to_nat (num_configurations dev)) 0 config_index)
    by (try assumption; lia).
  cbn [Z.eqb]. rewrite Z.mod_small by lia. exact Hget.
Qed.

(** ** Requests for memory that are refused *)

Lemma granted_same (w w' : world) : oracle w' = oracle w -> granted w w'.
Proof. intros H. exists []. rewrite H. split; [reflexivity | constructor]. Qed.

Lemma granted_trans (w w1 w2 : world) :
  granted w w1 -> granted w1 w2 -> granted w w2.
Proof.
  intros (g1 & H1 & F1) (g2 & H2 & F2). exists (g1 ++ g2).
  split; [rewrite H1, H2; now rewrite app_assoc | apply Forall_app; auto].
Qed.

Lemma granted_refused (w w1 w2 : world) :
  granted w w1 -> refused w1 w2 -> refused w w2.
Proof.
  intros (g1 & H1 & F1) (g2 & H2 & F2). exists (g1 ++ g2).
  split; [rewrite H1, H2; now rewrite app_assoc | apply Forall_app; auto].
Qed.

Lemma malloc_reported (a : alloc) (w w' : world) (ok : bool) :
  malloc a w = (ok, w') -> if ok then granted w w' else refused w w'.
Proof.
  unfold malloc. destruct (oracle w) as [|[] o] eqn:Ho;
    intros E; injection E as <- <-.
  - exists []. cbn [oracle]. split; [exact Ho | constructor].
  - exists [true]. cbn [oracle]. split; [exact Ho | repeat constructor].
  - exists []. cbn [oracle]. split; [exact Ho | constructor].
Qed.

Lemma reported_after (w w1 w2 : world) (r : Z) :
  granted w w1 -> reported w1 w2 r -> reported w w2 r.
Proof.
  intros Hg [H|[H Hr]]; [left | right; split; [|exact Hr]].
  - eapply granted_trans; eassumption.
  - eapply granted_refused; eassumption.
Qed.

Lemma reported_flow_after (w w1 w2 : world) (f : flow) :
  granted w w1 -> reported_flow w1 w2 f -> reported_flow w w2 f.
Proof.
  intros Hg [H|[H Hr]]; [left | right; split; [|exact Hr]].
  - eapply granted_trans; eassumption.
  - eapply granted_refused; eassumption.
Qed.

Lemma oracle_see (l : level) (len size : Z) (t : bool) (w : world) :
  oracle (see l len size t w) = oracle w.
Proof. reflexivity. Qed.

Lemma oracle_note_run (r : list byte) (w : world) :
  oracle (note_run r w) = oracle w.
Proof. reflexivity. Qed.

Lemma parse_endpoint_reports (endpoint : EP.t) (mem : list byte)
    (buffer size : Z) (w : world) :
  match parse_endpoint endpoint mem buffer size w with
  | None => True
  | Some (ep, r, w') => reported w w' r
  end.
Proof.
  unfold parse_endpoint.
  set (len := h_bLength (read_header mem buffer)).
  destruct (len >? size).
  { left. apply granted_same. apply oracle_see. }
  destruct (negb (h_bDescriptorType (read_header mem buffer) =? LIBUSB_DT_ENDPOINT)).
  { left. now apply granted_same. }
  set (endpoint' := if len >=? ENDPOINT_AUDIO_DESC_LENGTH then _ else _).
  clearbody endpoint'.
  pose proof (skip_descriptors_spec LEndpointExtra false mem
                ltac:(discriminate) (Z.to_nat (size - len)) (buffer + len)
                (size - len) (0 + len) (see LEndpoint len size true w)) as Hs.
  destruct (skip_descriptors LEndpointExtra false (Z.to_nat (size - len)) mem
              (buffer + len) (size - len) (0 + len)
              (see LEndpoint len size true w)) as [[b s p w1|w1]|];
    [| |exact I].
  - destruct Hs as (Ho & _). rewrite oracle_see in Ho.
    destruct (b - (buffer + len) =? 0).
    { left. now apply granted_same. }
    destruct (malloc (AExtra (b - (buffer + len))) w1) as [ok w2] eqn:Hm.
    apply malloc_reported in Hm.
    destruct ok; apply (reported_after w w1);
      try (now apply granted_same); [left | right]; auto.
  - destruct Hs as (Ho & _). rewrite oracle_see in Ho.
    left. now apply granted_same.
Qed.

Lemma parse_endpoints_reports (mem : list byte) :
  forall (n : nat) (buffer size parsed : Z) (w : world),
    match parse_endpoints n mem buffer size parsed w with
    | None => True
    | Some (eps, f, w') => reported_flow w w' f
    end.
Proof.
  induction n as [|n IH]; intros buffer size parsed w; cbn [parse_endpoints].
  { left. now apply granted_same. }
  destruct (h_bLength (read_header mem buffer) >? size).
  { left. apply granted_same. apply oracle_see. }
  pose proof (parse_endpoint_reports EP.zero mem buffer size w) as He.
  destruct (parse_endpoint EP.zero mem buffer size w) as [[[ep r] w1]|];
    [|exact I].
  destruct (r <? 0) eqn:Hr; zb.
  { destruct He as [H|[H ->]]; [left | right]; auto. }
  destruct He as [Hg|[_ ->]]; [|lia].
  specialize (IH (buffer + r) (size - r) (parsed + r) w1).
  destruct (parse_endpoints n mem (buffer + r) (size - r) (parsed + r) w1)
    as [[[eps f] w2]|]; [|exact I].
  eapply reported_flow_after; eassumption.
Qed.

Lemma finish_altsetting_reports (alts : list ALT.t) (ifp : ALT.t)
    (mem : list byte) (buffer size parsed : Z) (w : world) :
  match finish_altsetting alts ifp mem buffer size parsed w with
  | None => True
  | Some (alts', f, w') => reported_flow w w' f
  end.
Proof.
  unfold finish_altsetting.
  assert (Hsame : forall f, reported_flow w w f)
    by (intros f; left; now apply granted_same).
  destruct (_ && _); [apply Hsame|].
  destruct (ALT.bNumEndpoints ifp >? USB_MAXENDPOINTS); [apply Hsame|].
  destruct (ALT.bNumEndpoints ifp >? 0); [|apply Hsame].
  destruct (malloc (AEndpoints (ALT.bNumEndpoints ifp)) w) as [ok w1] eqn:Hm.
  apply malloc_reported in Hm. destruct ok; cbn [negb].
  2: { right. auto. }
  pose proof (parse_endpoints_reports mem (Z.to_nat (ALT.bNumEndpoints ifp))
                buffer size parsed w1) as He.
  destruct (parse_endpoints (Z.to_nat (ALT.bNumEndpoints ifp)) mem buffer size
              parsed w1) as [[[eps f] w2]|]; [|exact I].
  destruct f as [b s p|r].
  - destruct He as [Hg|[_ E]]; [|discriminate E].
    left. eapply granted_trans; eassumption.
  - eapply reported_flow_after; eassumption.
Qed.

Lemma parse_altsetting_reports (alts : list ALT.t) (mem : list byte)
    (buffer size parsed : Z) (w : world) :
  match parse_altsetting alts mem buffer size parsed w with
  | None => True
  | Some (alts', f, w') => reported_flow w w' f
  end.
Proof.
  unfold parse_altsetting.
  destruct (malloc (AAltsetting _) w) as [ok w0] eqn:Hm0.
  apply malloc_reported in Hm0. destruct ok; cbn [negb].
  2: { right. auto. }
  set (ifp := new_altsetting mem buffer).
  set (len := ALT.bLength ifp).
  pose proof (skip_descriptors_spec LInterfaceExtra false mem
                ltac:(discriminate) (Z.to_nat (size - len)) (buffer + len)
                (size - len) (parsed + len)
                (see LInterface len size true w0)) as Hs.
  destruct (skip_descriptors LInterfaceExtra false (Z.to_nat (size - len)) mem
              (buffer + len) (size - len) (parsed + len)
              (see LInterface len size true w0)) as [[b s p w1|w1]|];
    [| |exact I].
  2: { destruct Hs as (Ho & _). rewrite oracle_see in Ho.
       left. eapply granted_trans; [eassumption | now apply granted_same]. }
  destruct Hs as (Ho & _). rewrite oracle_see in Ho.
  assert (Hg1 : granted w w1)
    by (eapply granted_trans; [eassumption | now apply granted_same]).
  assert (Hfin : forall ifp' w2,
            granted w w2 ->
            match finish_altsetting alts ifp' mem b s p w2 with
            | None => True
            | Some (alts', f, w') => reported_flow w w' f
            end).
  { intros ifp' w2 Hg.
    pose proof (finish_altsetting_reports alts ifp' mem b s p w2) as Hf.
    destruct (finish_altsetting alts ifp' mem b s p w2) as [[[alts' f] w3]|];
      [|exact I].
    eapply reported_flow_after; eassumption. }
  destruct (b - (buffer + len) =? 0); [now apply Hfin|].
  destruct (malloc (AExtra (b - (buffer + len))) w1) as [ok w2] eqn:Hm.
  apply malloc_reported in Hm. destruct ok; cbn [negb].
  - apply Hfin. eapply granted_trans; eassumption.
  - right. split; [eapply granted_refused; eassumption | reflexivity].
Qed.

Lemma parse_altsettings_reports (mem : list byte) :
  forall (fuel : nat) (alts : list ALT.t) (buffer size parsed : Z) (w : world),
    match parse_altsettings fuel alts mem buffer size parsed w with
    | None => True
    | Some (i, r, w') => reported w w' r
    end.
Proof.
  induction fuel as [|fuel IH]; intros alts buffer size parsed w;
    cbn [parse_altsettings].
  - destruct (size <? INTERFACE_DESC_LENGTH); [|exact I].
    left. now apply granted_same.
  - destruct (size <? INTERFACE_DESC_LENGTH).
    { left. now apply granted_same. }
    pose proof (parse_altsetting_reports alts mem buffer size parsed w) as Hr.
    destruct (parse_altsetting alts mem buffer size parsed w)
      as [[[alts1 f] w1]|]; [|exact I].
    destruct f as [b s p|r].
    + destruct Hr as [Hg|[_ E]]; [|discriminate E].
      specialize (IH alts1 b s p w1).
      destruct (parse_altsettings fuel alts1 mem b s p w1)
        as [[[i r] w2]|]; [|exact I].
      eapply reported_after; eassumption.
    + destruct Hr as [Hg|[Hg E]]; [left; exact Hg|].
      right. split; [exact Hg | congruence].
Qed.

Lemma parse_interface_slot_reports (mem : list byte) (buffer size : Z)
    (extra : blob) (extra_length : Z) (w : world) :
  match parse_interface_slot mem buffer size extra extra_length w with
  | None => True
  | Some (i, x, xl, e, w') =>
      granted w w' \/ (refused w w' /\ e = SlotFail LIBUSB_ERROR_NO_MEM)
  end.
Proof.
  unfold parse_interface_slot.
  pose proof (skip_descriptors_spec LConfigExtra true mem ltac:(discriminate)
                (Z.to_nat size) buffer size 0 w) as Hs.
  destruct (skip_descriptors LConfigExtra true (Z.to_nat size) mem buffer size
              0 w) as [[b s p w1|w1]|]; [| |exact I].
  2: { destruct Hs as (Ho & _). left. now apply granted_same. }
  destruct Hs as (Ho & _).
  assert (Hgo : forall (x : blob) (xl : Z) w2,
            granted w w2 ->
            match
              match parse_interface mem b s w2 with
              | Some (i, r, w3) =>
                  if r <? 0 then Some (i, x, xl, SlotFail r, w3)
                  else Some (i, x, xl, SlotDone (b + r) (s - r), w3)
              | None => None
              end
            with
            | None => True
            | Some (i, x', xl', e, w') =>
                granted w w' \/
                (refused w w' /\ e = SlotFail LIBUSB_ERROR_NO_MEM)
            end).
  { intros x xl w2 Hg. unfold parse_interface.
    pose proof (parse_altsettings_reports mem (Z.to_nat s) [] b s 0 w2) as Hr.
    destruct (parse_altsettings (Z.to_nat s) [] mem b s 0 w2)
      as [[[i r] w3]|]; [|exact I].
    apply (reported_after w w2 w3 r Hg) in Hr.
    destruct (r <? 0) eqn:E; zb.
    - destruct Hr as [H|[H ->]]; [left | right]; auto.
    - destruct Hr as [H|[_ ->]]; [left; exact H | lia]. }
  destruct (negb (b - buffer =? 0) && (extra_length =? 0)).
  - destruct (malloc (AExtra (b - buffer))
                (note_run (memcpy mem buffer (b - buffer)) w1))
      as [ok w2] eqn:Hm.
    apply malloc_reported in Hm.
    assert (Hg1 : granted w (note_run (memcpy mem buffer (b - buffer)) w1))
      by (apply granted_same; now rewrite oracle_note_run).
    destruct ok; cbn [negb].
    + apply Hgo. eapply granted_trans; eassumption.
    + right. split; [eapply granted_refused; eassumption | reflexivity].
  - cbn [negb]. apply Hgo. apply granted_same. now rewrite oracle_note_run.
Qed.

Lemma parse_interfaces_reports (mem : list byte) :
  forall (n : nat) (buffer size : Z) (extra : blob) (extra_length : Z)
         (w : world),
    match parse_interfaces n mem buffer size extra extra_length w with
    | None => True
    | Some (ifs, x, xl, r, w') => reported w w' r
    end.
Proof.
  induction n as [|n IH]; intros buffer size extra extra_length w;
    cbn [parse_interfaces].
  { left. now apply granted_same. }
  pose proof (parse_interface_slot_reports mem buffer size extra extra_length w)
    as Hslot.
  destruct (parse_interface_slot mem buffer size extra extra_length w)
    as [[[[[i x1] xl1] e] w1]|]; [|exact I].
  destruct e as [b s|r].
  - destruct Hslot as [Hg|[_ E]]; [|discriminate E].
    specialize (IH b s x1 xl1 w1).
    destruct (parse_interfaces n mem b s x1 xl1 w1)
      as [[[[[ifs x] xl] r] w2]|]; [|exact I].
    eapply reported_after; eassumption.
  - destruct Hslot as [Hg|[Hg E]]; [left; exact Hg|].
    right. split; [exact Hg | congruence].
Qed.

Lemma parse_configuration_reports (config : CFG.t) (mem : list byte)
    (w : world) :
  match parse_configuration config mem w with
  | None => True
  | Some (c, r, w') => reported w w' r
  end.
Proof.
  unfold parse_configuration.
  set (c0 := CFG.store (fst (usbi_parse_descriptor mem 0 "bbwbbbbb")) config).
  destruct (CFG.bNumInterfaces c0 >? USB_MAXINTERFACES).
  { left. now apply granted_same. }
  destruct (malloc (AInterfaces (CFG.bNumInterfaces c0)) w) as [ok w0] eqn:Hm.
  apply malloc_reported in Hm. destruct ok; cbn [negb].
  2: { right. auto. }
  pose proof (parse_interfaces_reports mem (Z.to_nat (CFG.bNumInterfaces c0))
                (0 + CFG.bLength c0) (CFG.wTotalLength c0 - CFG.bLength c0)
                None 0
                (see LConfig (CFG.bLength c0) (CFG.wTotalLength c0) true w0))
    as Hl.
  destruct (parse_interfaces (Z.to_nat (CFG.bNumInterfaces c0)) mem
              (0 + CFG.bLength c0) (CFG.wTotalLength c0 - CFG.bLength c0)
              None 0
              (see LConfig (CFG.bLength c0) (CFG.wTotalLength c0) true w0))
    as [[[[[ifs x] xl] r] w1]|]; [|exact I].
  eapply reported_after; [|exact Hl].
  eapply granted_trans; [exact Hm | now apply granted_same].
Qed.

Lemma fetch_and_parse_granted (fetch : Z -> Z * list byte) (tmp : list byte)
    (w w' : world) (c : CFG.t) :
  fetch_and_parse fetch tmp w = Some (Some c, w') -> granted w w'.
Proof.
  unfold fetch_and_parse.
  set (config := CFG.store _ fresh_config).
  destruct (malloc (ABuffer (CFG.wTotalLength config)) w) as [ok w1] eqn:Hm.
  apply malloc_reported in Hm. destruct ok; cbn [negb]; [|discriminate].
  destruct (fetch (CFG.wTotalLength config)) as [r0 buf].
  destruct (r0 <? 0); [discriminate|].
  pose proof (parse_configuration_reports config buf w1) as Hb.
  destruct (parse_configuration config buf w1) as [[[c1 r] w2]|];
    [|discriminate].
  destruct (r <? 0) eqn:Hr; [discriminate|]. zb.
  intros E. injection E as -> ->.
  destruct Hb as [Hg|[_ ->]]; [|lia].
  eapply granted_trans; eassumption.
Qed.

(** What the refusal of the request for the interface array leaves. *)
Lemma interface_array_refused (config : CFG.t) (mem : list byte)
    (w w' : world) (o : list bool) (c : CFG.t) (r : Z) :
  oracle w = false :: o ->
  parse_configuration config mem w = Some (c, r, w') ->
  CFG.bNumInterfaces c <= USB_MAXINTERFACES ->
  r = LIBUSB_ERROR_NO_MEM /\ CFG.interface c = None /\
  oracle w' = o /\ allocs w' = allocs w.
Proof.
  intros Ho. unfold parse_configuration.
  set (c0 := CFG.store (fst (usbi_parse_descriptor mem 0 "bbwbbbbb")) config).
  destruct (CFG.bNumInterfaces c0 >? USB_MAXINTERFACES) eqn:Hmax.
  { intros [= <- <- <-] Hle. zb. lia. }
  unfold malloc. rewrite Ho. cbn [negb].
  intros [= <- <- <-] _. auto.
Qed.

(** X12.  A request for memory that is refused is never passed over by
    a call that succeeds.  When [parse_configuration] returns a
    non-negative value, every request it made was granted; and the
    retrieval entry points return a descriptor only when every request,
    theirs included, was granted.  When the first request of
    [parse_configuration], that for the interface array, is refused, the
    value returned is [LIBUSB_ERROR_NO_MEM], returned at once: the
    interface pointer is [NULL] and nothing else was asked for. *)
Theorem refusal_is_reported :
  (forall (config : CFG.t) (mem : list byte) (w : world),
     exists c r w',
       parse_configuration config mem w = Some (c, r, w') /\
       (0 <= r -> granted w w') /\
       (forall o, oracle w = false :: o ->
                  CFG.bNumInterfaces c <= USB_MAXINTERFACES ->
                  r = LIBUSB_ERROR_NO_MEM /\ CFG.interface c = None /\
                  oracle w' = o /\ allocs w' = allocs w)) /\
  (forall (dev : libusb_device) (config_index : Z) (w w' : world) (c : CFG.t),
     libusb_get_config_descriptor dev config_index w = Some (Some c, w') ->
     granted w w') /\
  (forall (dev : libusb_device) (w w' : world) (c : CFG.t),
     libusb_get_active_config_descriptor dev w = Some (Some c, w') ->
     granted w w').
Proof.
  split; [|split].
  - intros config mem w.
    pose proof (parse_configuration_spec config mem w) as Ht.
    pose proof (parse_configuration_reports config mem w) as Hr.
    destruct (parse_configuration config mem w) as [[[c r] w']|] eqn:Hp;
      [|contradiction].
    exists c, r, w'. split; [reflexivity|]. split.
    + intros H0. destruct Hr as [Hg|[_ ->]]; [exact Hg | lia].
    + intros o Ho Hle.
      exact (interface_array_refused config mem w w' o c r Ho Hp Hle).
  - intros dev config_index w w' c. unfold libusb_get_config_descriptor.
    destruct (config_index >=? num_configurations dev); [discriminate|].
    destruct (malloc AConfig w) as [ok w1] eqn:Hm.
    apply malloc_reported in Hm. destruct ok; cbn [negb]; [|discriminate].
    destruct (backend_get_config_descriptor dev config_index 8) as [r tmp].
    destruct (r <? 0); [discriminate|].
    intros Hf. apply fetch_and_parse_granted in Hf.
    eapply granted_trans; eassumption.
  - intros dev w w' c. unfold libusb_get_active_config_descriptor.
    destruct (malloc AConfig w) as [ok w1] eqn:Hm.
    apply malloc_reported in Hm. destruct ok; cbn [negb]; [|discriminate].
    destruct (backend_get_active_config_descriptor dev 8) as [r tmp].
    destruct (r <? 0); [discriminate|].
    intros Hf. apply fetch_and_parse_granted in Hf.
    eapply granted_trans; eassumption.
Qed.

(** ** More on what the decoders keep *)


(** X14.  Which members of an endpoint [parse_endpoint] decodes depends
    on the declared length alone.  From an endpoint descriptor whose
    length fits the bytes remaining, all eight members are stored when
    the length is at least 9; the first six are stored and [bRefresh]
    and [bSynchAddress] stay zero when it is 7 or 8; and when it is below
    7 the descriptor is accepted all the same and no member is stored,
    not even [bLength] and [bDescriptorType].  This holds whatever the
    call goes on to return. *)
Theorem endpoint_members_by_length (mem : list byte) (buffer size : Z)
    (w : world) :
  h_bLength (read_header mem buffer) <= size ->
  h_bDescriptorType (read_header mem buffer) = LIBUSB_DT_ENDPOINT ->
  exists ep r w',
    parse_endpoint EP.zero mem buffer size w = Some (ep, r, w') /\
    EP.set_extra None 0 ep
    = if h_bLength (read_header mem buffer) >=? ENDPOINT_AUDIO_DESC_LENGTH
      then EP.Build_t (u8 (rd mem buffer)) (u8 (rd mem (buffer + 1)))
             (u8 (rd mem (buffer + 2))) (u8 (rd mem (buffer + 3)))
             (Z.lor (Z.shiftl (u8 (rd mem (buffer + 5))) 8)
                    (u8 (rd mem (buffer + 4))))
             (u8 (rd mem (buffer + 6))) (u8 (rd mem (buffer + 7)))
             (u8 (rd mem (buffer + 8))) None 0
      else if h_bLength (read_header mem buffer) >=? ENDPOINT_DESC_LENGTH
      then EP.Build_t (u8 (rd mem buffer)) (u8 (rd mem (buffer + 1)))
             (u8 (rd mem (buffer + 2))) (u8 (rd mem (buffer + 3)))
             (Z.lor (Z.shiftl (u8 (rd mem (buffer + 5))) 8)
                    (u8 (rd mem (buffer + 4))))
             (u8 (rd mem (buffer + 6))) 0 0 None 0
      else EP.zero.
Proof.
  intros Hlen Htype. unfold parse_endpoint.
  set (len := h_bLength (read_header mem buffer)) in *.
  destruct (len >? size) eqn:E; zb; [lia|].
  destruct (h_bDescriptorType (read_header mem buffer) =? LIBUSB_DT_ENDPOINT)
    eqn:Et; zb; [|contradiction].
  cbn [negb].
  rewrite endpoint_store_audio, endpoint_store_plain.
  set (endpoint' := if len >=? ENDPOINT_AUDIO_DESC_LENGTH then _ else _).
  assert (Hx : EP.set_extra None 0 endpoint' = endpoint').
  { subst endpoint'.
    destruct (len >=? ENDPOINT_AUDIO_DESC_LENGTH);
      [|destruct (len >=? ENDPOINT_DESC_LENGTH)]; reflexivity. }
  assert (Hy : forall (x : blob) (n : Z),
             EP.set_extra None 0 (EP.set_extra x n endpoint') = endpoint').
  { intros x n. rewrite <- Hx at 2. reflexivity. }
  clearbody endpoint'.
  pose proof (skip_descriptors_spec LEndpointExtra false mem
                ltac:(discriminate) (Z.to_nat (size - len)) (buffer + len)
                (size - len) (0 + len) (see LEndpoint len size true w)) as Hs.
  destruct (skip_descriptors LEndpointExtra false (Z.to_nat (size - len)) mem
              (buffer + len) (size - len) (0 + len)
              (see LEndpoint len size true w)) as [[b s p w1|w1]|];
    [| |lia].
  - destruct (b - (buffer + len) =? 0).
    { do 3 eexists. split; [reflexivity | apply Hy]. }
    destruct (malloc (AExtra (b - (buffer + len))) w1) as [[] w2];
      do 3 eexists; (split; [reflexivity | apply Hy]).
  - do 3 eexists. split; [reflexivity | exact Hx].
Qed.

End Decoders.

(** * The field codec, for every format *)

Lemma parse_fields_width (mem : list byte) :
  forall (descriptor : string) (sp dp : Z),
    snd (parse_fields mem descriptor sp dp) = sp + format_width descriptor.
Proof.
  induction descriptor as [|c cp IH]; intros sp dp;
    cbn [parse_fields format_width].
  - cbn. lia.
  - repeat match goal with
           | |- context [if ?b then _ else _] => destruct b
           end;
      try match goal with
          | |- context [parse_fields mem cp ?s ?d] =>
              specialize (IH s d); destruct (parse_fields mem cp s d)
          end;
      cbn [snd] in *; lia.
Qed.

(** X1.  For every format string, the codec reports the width of the
    format as the count of source bytes consumed, whatever the bytes are,
    and encoding the stored fields again (little endian for the converted
    ones) gives back exactly the bytes consumed. *)
Theorem codec_round_trip (mem : list byte) (source : Z) (descriptor : string) :
  snd (usbi_parse_descriptor mem source descriptor) = format_width descriptor /\
  encode_fields (fst (usbi_parse_descriptor mem source descriptor))
  = memcpy mem source (format_width descriptor).
Proof.
  unfold usbi_parse_descriptor.
  pose proof (parse_fields_width mem descriptor source 0) as Hw.
  pose proof (parse_fields_encode mem descriptor source 0) as [_ He].
  destruct (parse_fields mem descriptor source 0) as [fs e].
  cbn [fst snd] in *. subst e.
  split; [lia|]. rewrite He. f_equal. lia.
Qed.

Lemma land_1 (a : Z) : Z.land a 1 = a mod 2.
Proof. exact (Z.land_ones a 1 ltac:(lia)). Qed.

Lemma land_2 (a : Z) : Z.land a 2 = 2 * ((a / 2) mod 2).
Proof.
  change ((a / 2) mod 2) with ((a / 2 ^ 1) mod 2).
  rewrite <- (Z.testbit_spec' a 1) by lia.
  apply Z.bits_inj'. intros n Hn.
  rewrite Z.land_spec.
  change 2 with (2 ^ 1) at 1. rewrite Z.pow2_bits_eqb by lia.
  destruct (Z.eqb_spec 1 n) as [<-|Hne].
  - rewrite andb_true_r. destruct (Z.testbit a 1); reflexivity.
  - rewrite andb_false_r. symmetry.
    destruct (Z.testbit a 1); cbn [Z.b2z].
    + change (2 * 1) with (2 ^ 1). rewrite Z.pow2_bits_eqb by lia.
      now apply Z.eqb_neq.
    + apply Z.bits_0.
Qed.

Lemma parse_fields_stores (mem : list byte) :
  forall (descriptor : string) (sp dp : Z),
    0 <= dp ->
    Forall (fun s => dp <= fst s /\ store_aligned s)
      (fst (parse_fields mem descriptor sp dp)) /\
    StronglySorted (fun s t => fst s + field_size (snd s) <= fst t)
      (fst (parse_fields mem descriptor sp dp)).
Proof.
  induction descriptor as [|c cp IH]; intros sp dp Hdp; cbn [parse_fields].
  - cbn. split; constructor.
  - pose proof (land_1 dp) as H1. pose proof (land_2 dp) as H2.
    repeat match goal with
           | |- context [if ?b then _ else _] => destruct b
           end;
      try solve [apply IH; exact Hdp];
      match goal with
      | |- context [parse_fields mem cp ?s ?d] =>
          let H := fresh "H" in
          assert (H : 0 <= d) by (Z.to_euclidean_division_equations; lia);
          destruct (IH s d H) as [Hall Hsort];
          destruct (parse_fields mem cp s d) as [fs e]
      end;
      cbn [fst snd] in *;
      (split;
       [ constructor;
         [ unfold store_aligned; cbn [fst snd];
           split; Z.to_euclidean_division_equations; lia
         | eapply Forall_impl; [|exact Hall];
           cbv beta; intros s [Hs Ha]; split;
           [Z.to_euclidean_division_equations; lia | exact Ha] ]
       | constructor;
         [ exact Hsort
         | eapply Forall_impl; [|exact Hall];
           cbv beta; intros s [Hs _]; cbn [fst snd field_size]; lia ] ]).
Qed.

Lemma land_1_moved (dest dp : Z) :
  dest mod 2 = 0 -> Z.land (dest + dp) 1 = Z.land dp 1.
Proof.
  intros H. rewrite !land_1. Z.to_euclidean_division_equations; lia.
Qed.

Lemma land_2_moved (dest dp : Z) :
  dest mod 4 = 0 -> Z.land (dest + dp) 2 = Z.land dp 2.
Proof.
  intros H. rewrite !land_2. Z.to_euclidean_division_equations; lia.
Qed.

Lemma format_alignment_cases (descriptor : string) :
  format_alignment descriptor = 1 \/ format_alignment descriptor = 2 \/
  format_alignment descriptor = 4.
Proof.
  induction descriptor as [|c cp IH]; cbn [format_alignment]; [now left|].
  destruct (Ascii.eqb c "d" || Ascii.eqb c "D");
    [|destruct (Ascii.eqb c "w" || Ascii.eqb c "W")];
    destruct IH as [->|[->| ->]]; cbn; auto.
Qed.

(** The stores of the codec at an address of the destination that the
    alignment steps do not see are those at offset 0, moved. *)
Lemma parse_fields_moved (mem : list byte) (dest : Z) :
  forall (descriptor : string) (sp dp : Z),
    dest mod format_alignment descriptor = 0 ->
    parse_fields mem descriptor sp (dest + dp)
    = (map (at_address dest) (fst (parse_fields mem descriptor sp dp)),
       snd (parse_fields mem descriptor sp dp)).
Proof.
  induction descriptor as [|c cp IH]; intros sp dp H;
    cbn [parse_fields format_alignment] in *; [reflexivity|].
  assert (Hrec : dest mod format_alignment cp = 0).
  { destruct (Ascii.eqb c "d" || Ascii.eqb c "D");
      [|destruct (Ascii.eqb c "w" || Ascii.eqb c "W")];
      destruct (format_alignment_cases cp) as [E|[E|E]];
      rewrite E in *; cbn in H; Z.to_euclidean_division_equations; lia. }
  assert (H1 : Ascii.eqb c "w" || Ascii.eqb c "W" = true ->
               Z.land (dest + dp) 1 = Z.land dp 1).
  { intros E. apply land_1_moved. rewrite E in H.
    destruct (Ascii.eqb c "d" || Ascii.eqb c "D");
      destruct (format_alignment_cases cp) as [E'|[E'|E']];
      rewrite E' in H; cbn in H; Z.to_euclidean_division_equations; lia. }
  assert (H2 : Ascii.eqb c "d" || Ascii.eqb c "D" = true ->
               Z.land (dest + dp) 2 = Z.land dp 2).
  { intros E. apply land_2_moved. rewrite E in H.
    destruct (format_alignment_cases cp) as [E'|[E'|E']];
      rewrite E' in H; cbn in H; Z.to_euclidean_division_equations; lia. }
  clear H.
  destruct (Ascii.eqb c "b").
  { replace (dest + dp + 1) with (dest + (dp + 1)) by lia.
    rewrite (IH (sp + 1) (dp + 1) Hrec).
    destruct (parse_fields mem cp (sp + 1) (dp + 1)) as [fs e]. reflexivity. }
  destruct (Ascii.eqb c "w").
  { rewrite (H1 eq_refl).
    replace (dest + dp + Z.land dp 1 + 2) with (dest + (dp + Z.land dp 1 + 2))
      by lia.
    rewrite (IH (sp + 2) (dp + Z.land dp 1 + 2) Hrec).
    destruct (parse_fields mem cp (sp + 2) (dp + Z.land dp 1 + 2)) as [fs e].
    unfold at_address. cbn [fst snd map]. do 3 f_equal. lia. }
  destruct (Ascii.eqb c "d").
  { rewrite (H2 eq_refl).
    replace (dest + dp + Z.land dp 2 + 4) with (dest + (dp + Z.land dp 2 + 4))
      by lia.
    rewrite (IH (sp + 4) (dp + Z.land dp 2 + 4) Hrec).
    destruct (parse_fields mem cp (sp + 4) (dp + Z.land dp 2 + 4)) as [fs e].
    unfold at_address. cbn [fst snd map]. do 3 f_equal. lia. }
  destruct (Ascii.eqb c "W").
  { rewrite (H1 eq_refl).
    replace (dest + dp + Z.land dp 1 + 2) with (dest + (dp + Z.land dp 1 + 2))
      by lia.
    rewrite (IH (sp + 2) (dp + Z.land dp 1 + 2) Hrec).
    destruct (parse_fields mem cp (sp + 2) (dp + Z.land dp 1 + 2)) as [fs e].
    unfold at_address. cbn [fst snd map]. do 3 f_equal. lia. }
  destruct (Ascii.eqb c "D").
  { rewrite (H2 (orb_true_r _)).
    replace (dest + dp + Z.land dp 2 + 4) with (dest + (dp + Z.land dp 2 + 4))
      by lia.
    rewrite (IH (sp + 4) (dp + Z.land dp 2 + 4) Hrec).
    destruct (parse_fields mem cp (sp + 4) (dp + Z.land dp 2 + 4)) as [fs e].
    unfold at_address. cbn [fst snd map]. do 3 f_equal. lia. }
  apply IH. exact Hrec.
Qed.

(** X2.  Wherever the destination is, the stores of one codec call go up
    in memory and never overlap: each begins at or after the end of the
    one before, the first at or after [dest].  A 16-bit store lands on an
    even address; a 32-bit store lands on an address that is 0 or 1
    modulo 4, since its alignment step only looks at bit 1 of the cursor.
    For a destination aligned as the format asks (at a multiple of 4
    when the format has a 32-bit field, else at an even address when it
    has a 16-bit field, else anywhere), the stores are those recorded by
    offset, at [dest]. *)
Theorem codec_stores_in_order (mem : list byte) (source dest : Z)
    (descriptor : string) :
  0 <= dest ->
  (Forall (fun s => dest <= fst s /\ store_aligned s)
     (fst (parse_fields mem descriptor source dest)) /\
   StronglySorted (fun s t => fst s + field_size (snd s) <= fst t)
     (fst (parse_fields mem descriptor source dest))) /\
  (dest mod format_alignment descriptor = 0 ->
   fst (parse_fields mem descriptor source dest)
   = map (at_address dest)
       (fst (usbi_parse_descriptor mem source descriptor))).
Proof.
  intros Hdest.
  split; [exact (parse_fields_stores mem descriptor source dest Hdest)|].
  intros H. unfold usbi_parse_descriptor.
  pose proof (parse_fields_moved mem dest descriptor source 0 H) as E.
  rewrite Z.add_0_r in E. rewrite E.
  destruct (parse_fields mem descriptor source 0) as [fs e]. reflexivity.
Qed.

Lemma parse_fields_local (mem mem' : list byte) :
  forall (descriptor : string) (sp dp : Z),
    (forall i, sp <= i < sp + format_width descriptor -> rd mem i = rd mem' i) ->
    parse_fields mem descriptor sp dp = parse_fields mem' descriptor sp dp.
Proof.
  induction descriptor as [|c cp IH]; intros sp dp H;
    cbn [parse_fields format_width] in *; [reflexivity|].
  pose proof (parse_fields_width mem cp) as Hw.
  assert (H0 : 0 <= format_width cp).
  { specialize (Hw 0 0).
    pose proof (parse_fields_encode mem cp 0 0) as [Hle _]. lia. }
  repeat match goal with
         | |- context [if ?b then _ else _] => destruct b
         end;
    try match goal with
        | |- context [parse_fields mem cp ?s ?d] =>
            rewrite (IH s d) by (intros i Hi; apply H; lia)
        end;
    rewrite ?(H sp), ?(H (sp + 1)), ?(H (sp + 2)), ?(H (sp + 3)) by lia;
    reflexivity.
Qed.

(** X3.  The codec reads nothing but the bytes its format covers: two
    memories that agree on the [format_width descriptor] bytes from
    [source] on give the same stores and the same count. *)
Theorem codec_reads_only_its_bytes (mem mem' : list byte) (source : Z)
    (descriptor : string) :
  (forall i, source <= i < source + format_width descriptor ->
             rd mem i = rd mem' i) ->
  usbi_parse_descriptor mem source descriptor
  = usbi_parse_descriptor mem' source descriptor.
Proof.
  intros H. unfold usbi_parse_descriptor.
  now rewrite (parse_fields_local mem mem' descriptor source 0 H).
Qed.

(** * Concrete runs

    The decoders at the usual values of the limits and error codes (32
    interfaces, 32 endpoints, [LIBUSB_ERROR_IO = -1],
    [LIBUSB_ERROR_NO_MEM = -11]), on explicit streams. *)

Example vendor_config_bytes :
  config_bytes vendor_config
  = [x09; x02; x12; x00; x01; x01; x00; x80; x32;
     x09; x04; x00; x00; x00; xff; x00; x00; x00].
Proof. reflexivity. Qed.

(** The scenario of the specification: the 18 bytes above give a
    configuration of [wTotalLength] 18 with one interface of one
    alternate setting without endpoints, and no byte is left. *)
Example vendor_config_parsed :
  exists w',
    parse_configuration 32 32 (-1) (-11) zero_config
      (config_bytes vendor_config) world0
    = Some (CFG.Build_t 9 2 18 1 1 0 128 50
              (Some [IFACE.Build_t
                       [ALT.Build_t 9 4 0 0 0 255 0 0 0 None None 0]])
              None 0, 0, w').
Proof. eexists. vm_compute. reflexivity. Qed.

Ltac wf_solve :=
  repeat first
    [ progress cbn
    | lia
    | discriminate
    | reflexivity
    | apply Forall_nil
    | apply Forall_cons
    | split ].


Lemma two_alternates_wf : wf_config 32 32 two_alternates.
Proof.
  unfold wf_config, wf_interface, wf_alt, wf_endpoint, wf_unknown. wf_solve.
Qed.

(** C1, at its failing input: a configuration header that declares a
    length of 1, below the two-byte minimum, a total length of 4 and one
    interface.  [parse_configuration] adds [config->bLength] to the cursor
    without a test; the scan in front of the interface, which does test
    the lengths it meets, finds a proper descriptor at offset 1;
    [parse_interface] has too few bytes for an interface header and takes
    none; and [parse_configuration] returns 3, the bytes left, which is
    not an error.  The same header with a total length of 516, served by
    a device with that many bytes, goes through
    [libusb_get_config_descriptor], which hands the descriptor to its
    caller. *)
Theorem short_config_header_accepted :
  h_bLength (read_header short_header 0) = 1 /\
  (exists c w',
     parse_configuration 32 32 (-1) (-11) zero_config short_header world0
     = Some (c, 3, w') /\
     In (Build_met LConfig 1 4 true) (seen w') /\
     CFG.bLength c = 1 /\
     CFG.interface c = Some [IFACE.Build_t []]) /\
  h_bLength (read_header short_header_served 0) = 1 /\
  len short_header_served = 516 /\
  (exists c w',
     parse_configuration 32 32 (-1) (-11) zero_config short_header_served
       world0
     = Some (c, 513, w')) /\
  (exists c w',
     libusb_get_config_descriptor 32 32 (-1) (-11) (serve short_header_served)
       zero_config two_configurations 0 world0
     = Some (Some c, w') /\
     CFG.bLength c = 1 /\ CFG.wTotalLength c = 516).
Proof.
  split; [reflexivity|]. split.
  { do 2 eexists. split; [vm_compute; reflexivity | cbn; auto]. }
  split; [reflexivity|]. split; [reflexivity|]. split.
  - do 2 eexists. vm_compute. reflexivity.
  - do 2 eexists. split; [vm_compute; reflexivity | split; reflexivity].
Qed.

(** The tests on declared lengths that the decoders lack elsewhere.  An
    alternate setting cut short is left out without an error: of the
    second interface descriptor 5 bytes are there, the loop of
    [parse_interface] wants 9, and [parse_configuration] returns 5. *)
Example truncated_interface_left_out :
  exists c w',
    parse_configuration 32 32 (-1) (-11) zero_config truncated_alternate
      world0
    = Some (c, 5, w') /\
    option_map (map (fun i => length (IFACE.altsetting i))) (CFG.interface c)
    = Some [1%nat].
Proof.
  do 2 eexists. split; [vm_compute; reflexivity | reflexivity].
Qed.

(** The scans of [parse_interface] and [parse_endpoint] have no test
    [header.bLength > size]: a class descriptor that declares 5 bytes
    where 3 remain is copied whole, two bytes from past the stream, and
    only the count of bytes left, now -2, tells. *)
Example class_descriptor_past_the_end :
  exists c w',
    parse_configuration 32 32 (-1) (-11) zero_config overlong_class world0
    = Some (c, -2, w') /\
    option_map
      (map (fun i => map ALT.extra_length (IFACE.altsetting i)))
      (CFG.interface c)
    = Some [[5]] /\
    In (Build_met LInterfaceExtra 5 3 true) (seen w').
Proof.
  do 2 eexists. split; [vm_compute; reflexivity | split; cbn; auto].
Qed.




(** The stream of that configuration has two runs of class or vendor
    descriptors between its header and its interfaces, one in front of
    each interface.  The blob of the configuration is the first, byte
    for byte; the second is not added to it, and is found in the extra
    blob of the endpoint it comes after. *)
Example two_runs_extra :
  config_bytes two_runs
  = [x09; x02; x32; x00; x02; x01; x00; x80; x32]
    ++ [x08; x0b; x00; x01; xff; x00; x00; x00]
    ++ [x09; x04; x00; x00; x01; xff; x00; x00; x00]
    ++ [x07; x05; x81; x03; x08; x00; x0a]
    ++ [x08; x0b; x01; x01; xff; x00; x00; x00]
    ++ [x09; x04; x01; x00; x00; xff; x00; x00; x00] /\
  exists c w',
    parse_configuration 32 32 (-1) (-11) zero_config (config_bytes two_runs)
      world0
    = Some (c, 0, w') /\
    spec_first_run (config_bytes two_runs) c
    = [x08; x0b; x00; x01; xff; x00; x00; x00] /\
    CFG.extra c = Some [x08; x0b; x00; x01; xff; x00; x00; x00] /\
    CFG.extra_length c = 8 /\
    option_map
      (map (fun i =>
              map (fun a => option_map (map EP.extra) (ALT.endpoint a))
                (IFACE.altsetting i)))
      (CFG.interface c)
    = Some [[Some [Some [x08; x0b; x01; x01; xff; x00; x00; x00]]]; [None]].
Proof.
  split; [reflexivity|].
  do 2 eexists. split; [vm_compute; reflexivity | repeat split].
Qed.

Example two_alternates_extra :
  exists c w',
    parse_configuration 32 32 (-1) (-11) zero_config
      (config_bytes two_alternates) world0
    = Some (c, 0, w') /\
    CFG.extra c = Some [x08; x0b; x00; x01; xff; x00; x00; x00] /\
    CFG.extra_length c = 8 /\
    runs w' = [[x08; x0b; x00; x01; xff; x00; x00; x00]].
Proof.
  do 2 eexists. split; [vm_compute; reflexivity | cbn; auto].
Qed.

(** [alternate_settings_accumulate] on the same configuration: the two
    alternate settings come out as one interface entry, in the order of
    the stream. *)
Lemma alternate_settings_accumulate_witness :
  exists c' w',
    parse_configuration 32 32 (-1) (-11) zero_config
      (config_bytes two_alternates ++ []) world0
    = Some (c', 0, w') /\
    CFG.interface c'
    = Some (map (fun i => IFACE.Build_t (map alt_tree i))
              (c_interfaces two_alternates)) /\
    forall a1 a2, c_interfaces two_alternates = [[a1; a2]] ->
      CFG.interface c' = Some [IFACE.Build_t [alt_tree a1; alt_tree a2]].
Proof.
  exact (proj2 (proj2 (alternate_settings_accumulate 32 32 (-1) (-11)))
           two_alternates [] zero_config world0 two_alternates_wf eq_refl).
Defined.

(** [parse_interface] returns 9, the count of parsed bytes, for an
    alternate setting that declares 255 endpoints. *)
Lemma endpoint_count_not_examined :
  exists i w',
    parse_interface 32 (-1) (-11) over_limit 0 11 world0 = Some (i, 9, w') /\
    ALT.bNumEndpoints (new_altsetting over_limit 0) = 255 /\
    map ALT.bNumEndpoints (IFACE.altsetting i) = [255].
Proof.
  do 2 eexists. split; [vm_compute; reflexivity | split; reflexivity].
Qed.

(** [counts_over_limit] on the same bytes: nothing is allocated for
    endpoints, and the value returned is the count of parsed bytes in
    front of the descriptor of configuration type. *)
Lemma counts_over_limit_witness :
  exists alts' r w',
    parse_altsettings 32 (-1) (-11) 11%nat [] over_limit 0 11 0 world0
    = Some (IFACE.Build_t alts', r, w') /\
    (forall n, In (AEndpoints n) (allocs w') ->
               In (AEndpoints n) (allocs world0)) /\
    (alts' = [] \/
     exists a, alts' = [] ++ [a] /\ ALT.endpoint a = None /\
               ALT.bNumEndpoints a
               = ALT.bNumEndpoints (new_altsetting over_limit 0)) /\
    (r = -1 \/ r = -11 \/
     exists b,
       r = 0 + (b - 0) /\ DESC_HEADER_LENGTH <= 11 - (b - 0) /\
       (h_bDescriptorType (read_header over_limit b) = LIBUSB_DT_CONFIG \/
        h_bDescriptorType (read_header over_limit b) = LIBUSB_DT_DEVICE)).
Proof.
  apply (proj2 (counts_over_limit 32 32 (-1) (-11)) 10%nat [] over_limit 0
           11 0 world0).
  - vm_compute; discriminate.
  - reflexivity.
Defined.

(** A structure in which [malloc] has left an [extra_length] of 5 next
    to an [extra] of [NULL], and a header that declares 33 interfaces:
    the call fails at the count, and the two members stay as they
    were. *)
Lemma stale_blob_after_refusal :
  exists c w',
    parse_configuration 32 32 (-1) (-11) stale_length too_many_interfaces
      world0
    = Some (c, -1, w') /\
    CFG.extra c = None /\ CFG.extra_length c = 5 /\ ~ cfg_ok c.
Proof.
  do 2 eexists. split; [vm_compute; reflexivity|].
  split; [reflexivity|]. split; [reflexivity|].
  intros [H _]. cbn in H. discriminate H.
Qed.

(** [extra_blobs_consistent] with the third request for memory
    refused. *)
Lemma extra_blobs_consistent_witness :
  exists c r w',
    parse_configuration 32 32 (-1) (-11) zero_config
      (config_bytes two_alternates)
      (Build_world [true; true; false] [] [] [])
    = Some (c, r, w') /\
    (0 <= r -> cfg_ok c) /\
    (cfg_ok c \/
     (r < 0 /\ allocs w' = allocs (Build_world [true; true; false] [] [] []) /\
      CFG.extra c = CFG.extra zero_config /\
      CFG.extra_length c = CFG.extra_length zero_config)).
Proof.
  exact (extra_blobs_consistent 32 32 (-1) (-11) eq_refl eq_refl zero_config
           (config_bytes two_alternates)
           (Build_world [true; true; false] [] [] [])).
Defined.

(** [device_descriptor_round_trip] on the descriptor of a root hub. *)
Lemma device_descriptor_round_trip_witness :
  encode_fields (fst (usbi_parse_descriptor hub_descriptor 0 "bbWbbbbWWWbbbb"))
  = hub_descriptor /\
  snd (usbi_parse_descriptor hub_descriptor 0 "bbWbbbbWWWbbbb")
  = DEVICE_DESC_LENGTH /\
  exists d,
    libusb_get_device_descriptor hub_backend two_configurations zero_device
    = (0, d) /\
    DEV.wire d = hub_descriptor.
Proof.
  destruct (device_descriptor_round_trip hub_backend hub_descriptor
              zero_device eq_refl) as (H1 & H2 & H3).
  split; [exact H1 | split; [exact H2 |]].
  exact (H3 two_configurations 0 eq_refl (Z.le_refl 0)).
Defined.

(** The bytes 04 03 41 00 42 20 give one character, ["A"], not two. *)
Lemma ascii_example_one_byte :
  exists data',
    libusb_get_string_descriptor_ascii (-1) unit
      (strings [x04; x03; x41; x00; x42; x20]) tt 1 [] (fun _ => xff) 16
    = Some (data', 1) /\
    data' 0 = x41 /\ data' 1 = x00 /\ data' 2 = xff.
Proof.
  eexists. split; [vm_compute; reflexivity | repeat split; reflexivity].
Qed.

(** [ascii_reduction] with the declared length 6. *)
Lemma ascii_reduction_witness :
  exists data' di,
    libusb_get_string_descriptor_ascii (-1) unit
      (strings [x06; x03; x41; x00; x42; x20]) tt 1 [] (fun _ => xff) 16
    = Some (data', di) /\
    (forall k, 0 <= k < di ->
       2 + 2 * k < u8 (rd [x06; x03; x41; x00; x42; x20] 0) /\
       data' k = ascii_of [x06; x03; x41; x00; x42; x20] (2 + 2 * k)) /\
    (di = 16 - 1 \/ u8 (rd [x06; x03; x41; x00; x42; x20] 0) <= 2 + 2 * di) /\
    0 <= di /\ data' di = x00 /\
    (3 <= 16 ->
     firstn 6 [x06; x03; x41; x00; x42; x20]
     = [x04; x03; x41; x00; x42; x20] ->
     di = 1 /\ data' 0 = x41 /\ data' 1 = x00) /\
    (3 <= 16 ->
     firstn 6 [x06; x03; x41; x00; x42; x20]
     = [x06; x03; x41; x00; x42; x20] ->
     di = 2 /\ data' 0 = x41 /\ data' 1 = x3f /\ data' 2 = x00).
Proof.
  apply (ascii_reduction (-1) unit (strings [x06; x03; x41; x00; x42; x20])
           tt 1 [] [x04; x03; x09; x04] [x06; x03; x41; x00; x42; x20]
           (fun _ => xff) 16 4 6);
    first [reflexivity | vm_compute; discriminate].
Defined.

(** [ascii_output_bounded] with room for one character and the zero. *)
Lemma ascii_output_bounded_witness :
  exists data' di,
    libusb_get_string_descriptor_ascii (-1) unit
      (strings [x06; x03; x41; x00; x42; x20]) tt 1 [] (fun _ => xff) 2
    = Some (data', di) /\
    (0 <= di ->
     di <= 2 - 1 /\ data' di = x00 /\
     forall j, j < 0 \/ di < j -> data' j = (fun _ => xff) j) /\
    (di < 0 -> forall j, data' j = (fun _ => xff) j).
Proof.
  apply (ascii_output_bounded (-1) unit
           (strings [x06; x03; x41; x00; x42; x20]) eq_refl tt 1 []
           (fun _ => xff) 2).
  vm_compute; discriminate.
Defined.

(** [config_descriptor_by_value]: the value 2 is found at index 1. *)
Lemma config_descriptor_by_value_witness :
  libusb_get_config_descriptor_by_value 32 32 (-1) (-11) two_backend
    zero_config two_configurations 2 world0
  = libusb_get_config_descriptor 32 32 (-1) (-11) two_backend zero_config
      two_configurations 1 world0.
Proof.
  assert (Hn : 0 <= num_configurations two_configurations <= 255)
    by (change (0 <= 2 <= 255); lia).
  apply (proj1 (config_descriptor_by_value 32 32 (-1) (-11) two_backend
                  zero_config two_configurations 2 world0 Hn)).
  - change (0 <= 1 < 2). lia.
  - intros j Hj. exists 1. assert (j = 0) by lia. subst j.
    split; [split; [vm_compute; discriminate | reflexivity] | discriminate].
  - split; [vm_compute; discriminate | reflexivity].
Defined.

Example by_value_finds_second :
  exists c w',
    libusb_get_config_descriptor_by_value 32 32 (-1) (-11) two_backend
      zero_config two_configurations 2 world0 = Some (Some c, w') /\
    CFG.bConfigurationValue c = 2.
Proof. do 2 eexists. split; [vm_compute; reflexivity | reflexivity]. Qed.

Example active_configuration_returned :
  exists c w',
    libusb_get_active_config_descriptor 32 32 (-1) (-11) active_backend
      zero_config two_configurations world0 = Some (Some c, w') /\
    CFG.bConfigurationValue c = 1 /\
    allocs w' = [AConfig; ABuffer 18; AInterfaces 1; AAltsetting 1].
Proof.
  do 2 eexists. split; [vm_compute; reflexivity | split; reflexivity].
Qed.

Example by_value_finds_none :
  libusb_get_config_descriptor_by_value 32 32 (-1) (-11) two_backend
    zero_config two_configurations 3 world0 = Some (None, world0).
Proof. vm_compute. reflexivity. Qed.

(** [codec_reads_only_its_bytes]: the format ["bw"] covers three bytes,
    and the fourth does not matter. *)
Lemma codec_reads_only_its_bytes_witness :
  usbi_parse_descriptor [x01; x02; x03; x04] 0 "bw"
  = usbi_parse_descriptor [x01; x02; x03; xff] 0 "bw".
Proof.
  apply codec_reads_only_its_bytes. intros i Hi.
  change (format_width "bw") with 3 in Hi.
  assert (Hc : i = 0 \/ i = 1 \/ i = 2) by lia.
  destruct Hc as [->|[->| ->]]; reflexivity.
Defined.

(** [codec_stores_in_order] on a device descriptor decoded into a
    structure at the even address 4098. *)
Lemma codec_stores_in_order_witness :
  0 <= 4098 /\
  (Forall (fun s => 4098 <= fst s /\ store_aligned s)
     (fst (parse_fields hub_descriptor "bbWbbbbWWWbbbb" 0 4098)) /\
   StronglySorted (fun s t => fst s + field_size (snd s) <= fst t)
     (fst (parse_fields hub_descriptor "bbWbbbbWWWbbbb" 0 4098))) /\
  fst (parse_fields hub_descriptor "bbWbbbbWWWbbbb" 0 4098)
  = map (at_address 4098)
      (fst (usbi_parse_descriptor hub_descriptor 0 "bbWbbbbWWWbbbb")).
Proof.
  assert (H : 0 <= 4098) by lia.
  split; [exact H|].
  destruct (codec_stores_in_order hub_descriptor 0 4098 "bbWbbbbWWWbbbb" H)
    as [H1 H2].
  split; [exact H1|]. apply H2. reflexivity.
Defined.

(** At an odd address the padding falls elsewhere: the 16-bit store that
    follows a byte comes right after it.  A format of bytes only, such
    as the one the header is read with, has no padding to move. *)
Example odd_destination :
  map fst (fst (parse_fields [x01; x02; x03] "bw" 0 4097)) = [4097; 4098] /\
  map fst (fst (usbi_parse_descriptor [x01; x02; x03] 0 "bw")) = [0; 2].
Proof. split; reflexivity. Qed.

(** The alignment step for 32-bit stores looks at bit 1 of the cursor
    only: after one byte the store lands on offset 1. *)
Example dword_after_byte :
  map fst (fst (usbi_parse_descriptor [x01; x02; x03; x04; x05] 0 "bd"))
  = [0; 1] /\
  map fst (fst (usbi_parse_descriptor [x01; x02; x03; x04; x05; x06] 0 "bbd"))
  = [0; 1; 4].
Proof. split; reflexivity. Qed.

(** [tree_arrays_sized] on the configuration of two alternate
    settings. *)
Lemma tree_arrays_sized_witness :
  exists c r w',
    parse_configuration 32 32 (-1) (-11) zero_config
      (config_bytes two_alternates) world0
    = Some (c, r, w') /\
    (0 <= r -> cfg_shape 32 32 c /\ CFG.interface c <> None).
Proof.
  exact (tree_arrays_sized 32 32 (-1) (-11) eq_refl eq_refl zero_config
           (config_bytes two_alternates) world0).
Defined.

Example two_alternates_sized :
  exists c w',
    parse_configuration 32 32 (-1) (-11) zero_config
      (config_bytes two_alternates) world0
    = Some (c, 0, w') /\
    CFG.bNumInterfaces c = 1 /\
    option_map (map (fun i => map ALT.bNumEndpoints (IFACE.altsetting i)))
      (CFG.interface c) = Some [[0; 1]] /\
    option_map
      (map (fun i => map (fun a => option_map (@length EP.t) (ALT.endpoint a))
                       (IFACE.altsetting i)))
      (CFG.interface c) = Some [[None; Some 1%nat]].
Proof.
  do 2 eexists. split; [vm_compute; reflexivity | repeat split].
Qed.

(** [requests_are_the_tree] on the configuration of two alternate
    settings. *)
Lemma requests_are_the_tree_witness :
  exists c r w' news,
    parse_configuration 32 32 (-1) (-11) zero_config
      (config_bytes two_alternates) world0
    = Some (c, r, w') /\
    allocs w' = allocs world0 ++ news /\
    (Permutation news (configuration_requests c) \/
     (r = -1 /\ CFG.bNumInterfaces c > 32 /\ news = [])).
Proof.
  exact (requests_are_the_tree 32 32 (-1) (-11) eq_refl eq_refl zero_config
           (config_bytes two_alternates) world0).
Defined.

Example two_alternates_requests :
  exists c w',
    parse_configuration 32 32 (-1) (-11) zero_config
      (config_bytes two_alternates) world0
    = Some (c, 0, w') /\
    allocs w'
    = [AInterfaces 1; AExtra 8; AAltsetting 1; AAltsetting 2; AExtra 9;
       AEndpoints 1] /\
    configuration_requests c = allocs w'.
Proof.
  do 2 eexists. split; [vm_compute; reflexivity | split; reflexivity].
Qed.

(** [free_releases_the_tree] on the second configuration of the device
    of two configurations. *)
Lemma free_releases_the_tree_witness :
  exists c w',
    libusb_get_config_descriptor 32 32 (-1) (-11) two_backend zero_config
      two_configurations 1 world0 = Some (Some c, w') /\
    exists frees news,
      libusb_free_config_descriptor (Some c) = Some frees /\
      allocs w' = allocs world0 ++ news /\
      all_but_the_buffer news frees.
Proof.
  destruct (libusb_get_config_descriptor 32 32 (-1) (-11) two_backend
              zero_config two_configurations 1 world0)
    as [[[c|] w']|] eqn:E.
  - exists c, w'. split; [reflexivity|].
    exact (proj1 (free_releases_the_tree 32 32 (-1) (-11) active_backend
                    two_backend zero_config eq_refl eq_refl)
             two_configurations 1 world0 w' c E).
  - vm_compute in E. discriminate E.
  - vm_compute in E. discriminate E.
Defined.

Example second_configuration_released :
  exists c w',
    libusb_get_config_descriptor 32 32 (-1) (-11)
      (serve (config_bytes two_alternates)) zero_config two_configurations 1
      world0 = Some (Some c, w') /\
    allocs w'
    = [AConfig; ABuffer 51; AInterfaces 1; AExtra 8; AAltsetting 1;
       AAltsetting 2; AExtra 9; AEndpoints 1] /\
    libusb_free_config_descriptor (Some c)
    = Some [AExtra 9; AEndpoints 1; AAltsetting 2; AInterfaces 1; AExtra 8;
            AConfig].
Proof.
  do 2 eexists. split; [vm_compute; reflexivity | split; reflexivity].
Qed.

(** A failure inside [parse_interface]: the endpoint descriptor is cut
    short.  The label [err] of [parse_interface] hands the interface to
    [clear_interface]; the label [err] of [parse_configuration] then
    hands the tree, whose slot still points to the arrays of this
    interface, to [clear_configuration].  The endpoint array and the
    [altsetting] array are handed to [free] by the one and by the
    other. *)
Example failing_interface_released_twice :
  exists c i w',
    parse_configuration 32 32 (-1) (-11) zero_config cut_short world0
    = Some (c, -1, w') /\
    CFG.interface c = Some [i] /\
    parse_interface 32 (-1) (-11) cut_short 9 12
      (Build_world [] [AInterfaces 1] [Build_met LConfig 9 21 true] [[]])
    = Some (i, -1, w') /\
    clear_interface i = Some [AEndpoints 1; AAltsetting 1] /\
    clear_configuration c
    = Some [AEndpoints 1; AAltsetting 1; AInterfaces 1].
Proof.
  do 3 eexists. split; [vm_compute; reflexivity|].
  split; [reflexivity|]. split; [vm_compute; reflexivity|].
  split; reflexivity.
Qed.

(** [missing_endpoints_stay_zeroed]: two endpoints looked for in front
    of an interface descriptor. *)
Lemma missing_endpoints_stay_zeroed_witness :
  parse_endpoint (-11) EP.zero over_limit 0 11 world0
  = Some (EP.zero, 0, world0) /\
  parse_endpoints (-1) (-11) 2 over_limit 0 11 9 world0
  = Some (repeat EP.zero 2, Continue 0 11 9, world0).
Proof.
  apply missing_endpoints_stay_zeroed.
  - vm_compute. discriminate.
  - vm_compute. discriminate.
Defined.

(** [configuration_without_room] on the header alone. *)
Lemma configuration_without_room_witness :
  exists w',
    parse_configuration 32 32 (-1) (-11) zero_config lone_header world0
    = Some (CFG.set_extra None 0
              (CFG.set_interface (Some (repeat IFACE.zero 2))
                 (CFG.store
                    (fst (usbi_parse_descriptor lone_header 0 "bbwbbbbb"))
                    zero_config)),
            0, w') /\
    allocs w' = allocs world0 ++ [AInterfaces 2].
Proof.
  apply (configuration_without_room 32 32 (-1) (-11) zero_config lone_header
           world0 (Build_world [] [AInterfaces 2] [] [])).
  - vm_compute. discriminate.
  - reflexivity.
  - reflexivity.
Defined.

(** [ascii_count] on a descriptor of declared length 5: the second code
    unit begins within the declared length and is counted. *)
Lemma ascii_count_witness :
  exists data',
    libusb_get_string_descriptor_ascii (-1) unit
      (strings [x05; x03; x41; x00; x42; x20]) tt 1 [] (fun _ => xff) 16
    = Some (data',
            Z.max 0
              (Z.min (16 - 1)
                 ((u8 (rd [x05; x03; x41; x00; x42; x20] 0) - 1) / 2))) /\
    data'
      (Z.max 0
         (Z.min (16 - 1) ((u8 (rd [x05; x03; x41; x00; x42; x20] 0) - 1) / 2)))
    = x00 /\
    (16 <= 1 -> forall j, data' j = if j =? 0 then x00 else xff).
Proof.
  apply (ascii_count (-1) unit (strings [x05; x03; x41; x00; x42; x20]) tt 1
           [] [x04; x03; x09; x04] [x05; x03; x41; x00; x42; x20]
           (fun _ => xff) 16 4 6);
    first [reflexivity | vm_compute; discriminate].
Defined.

(** With no room at all the zero byte is stored at index 0 all the
    same. *)
Example ascii_without_room :
  exists data',
    libusb_get_string_descriptor_ascii (-1) unit
      (strings [x06; x03; x41; x00; x42; x20]) tt 1 [] (fun _ => xff) 0
    = Some (data', 0) /\
    data' 0 = x00.
Proof. eexists. split; [vm_compute; reflexivity | reflexivity]. Qed.

(** [get_config_descriptor_round_trip] on the configuration of two
    alternate settings. *)
Lemma get_config_descriptor_round_trip_witness :
  exists w',
    libusb_get_config_descriptor 32 32 (-1) (-11)
      (serve (config_bytes two_alternates)) stale_config two_configurations 0
      world0
    = Some (Some (config_tree two_alternates), w').
Proof.
  refine (proj1 (get_config_descriptor_round_trip 32 32 (-1) (-11)
           (serve (config_bytes two_alternates)) stale_config
           two_configurations 0 two_alternates (config_bytes two_alternates)
           [] 8 51 world0 _ _ _ _ _ _ _ _)).
  - exact two_alternates_wf.
  - reflexivity.
  - reflexivity.
  - reflexivity.
  - vm_compute. discriminate.
  - intros i Hi. reflexivity.
  - reflexivity.
  - vm_compute. discriminate.
Defined.

(** [garbage_is_overwritten]: a zeroed structure and a stale one. *)
Lemma garbage_is_overwritten_witness :
  exists c1 r w',
    parse_configuration 32 32 (-1) (-11) zero_config
      (config_bytes vendor_config) world0 = Some (c1, r, w') /\
    exists c2,
      parse_configuration 32 32 (-1) (-11) stale_config
        (config_bytes vendor_config) world0 = Some (c2, r, w') /\
      (0 <= r -> c2 = c1).
Proof.
  destruct (parse_configuration 32 32 (-1) (-11) zero_config
              (config_bytes vendor_config) world0)
    as [[[c1 r] w']|] eqn:E.
  - exists c1, r, w'. split; [reflexivity|].
    exact (garbage_is_overwritten 32 32 (-1) (-11) eq_refl eq_refl
             zero_config stale_config (config_bytes vendor_config) world0 w'
             c1 r E).
  - vm_compute in E. discriminate E.
Defined.

(** [refusal_is_reported] with the six requests of the configuration of
    two alternate settings granted and a seventh, never made, refused. *)
Lemma refusal_is_reported_witness :
  exists c r w',
    parse_configuration 32 32 (-1) (-11) zero_config
      (config_bytes two_alternates)
      (Build_world [true; true; true; true; true; true; false] [] [] [])
    = Some (c, r, w') /\
    (0 <= r ->
     granted (Build_world [true; true; true; true; true; true; false] [] [] [])
       w') /\
    (forall o,
       oracle (Build_world [true; true; true; true; true; true; false] [] [] [])
       = false :: o ->
       CFG.bNumInterfaces c <= 32 ->
       r = -11 /\ CFG.interface c = None /\ oracle w' = o /\
       allocs w'
       = allocs
           (Build_world [true; true; true; true; true; true; false] [] [] [])).
Proof.
  exact (proj1 (refusal_is_reported 32 32 (-1) (-11) active_backend
                  two_backend zero_config eq_refl eq_refl)
           zero_config (config_bytes two_alternates)
           (Build_world [true; true; true; true; true; true; false] [] [] [])).
Defined.

Example all_requests_granted :
  exists c w',
    parse_configuration 32 32 (-1) (-11) zero_config
      (config_bytes two_alternates)
      (Build_world [true; true; true; true; true; true; false] [] [] [])
    = Some (c, 0, w') /\
    oracle w' = [false].
Proof.
  do 2 eexists. split; [vm_compute; reflexivity | reflexivity].
Qed.

Example interface_array_not_granted :
  exists c w',
    parse_configuration 32 32 (-1) (-11) zero_config
      (config_bytes two_alternates) (Build_world [false] [] [] [])
    = Some (c, -11, w') /\
    CFG.interface c = None /\ allocs w' = [].
Proof.
  do 2 eexists. split; [vm_compute; reflexivity | split; reflexivity].
Qed.


(** [endpoint_members_by_length] on an endpoint descriptor of declared
    length 3: it is stepped over and no member is stored. *)
Lemma endpoint_members_by_length_witness :
  exists ep r w',
    parse_endpoint (-11) EP.zero short_endpoint 0 5 world0
    = Some (ep, r, w') /\
    EP.set_extra None 0 ep
    = if h_bLength (read_header short_endpoint 0) >=? ENDPOINT_AUDIO_DESC_LENGTH
      then EP.Build_t (u8 (rd short_endpoint 0)) (u8 (rd short_endpoint (0 + 1)))
             (u8 (rd short_endpoint (0 + 2))) (u8 (rd short_endpoint (0 + 3)))
             (Z.lor (Z.shiftl (u8 (rd short_endpoint (0 + 5))) 8)
                    (u8 (rd short_endpoint (0 + 4))))
             (u8 (rd short_endpoint (0 + 6))) (u8 (rd short_endpoint (0 + 7)))
             (u8 (rd short_endpoint (0 + 8))) None 0
      else if h_bLength (read_header short_endpoint 0) >=? ENDPOINT_DESC_LENGTH
      then EP.Build_t (u8 (rd short_endpoint 0)) (u8 (rd short_endpoint (0 + 1)))
             (u8 (rd short_endpoint (0 + 2))) (u8 (rd short_endpoint (0 + 3)))
             (Z.lor (Z.shiftl (u8 (rd short_endpoint (0 + 5))) 8)
                    (u8 (rd short_endpoint (0 + 4))))
             (u8 (rd short_endpoint (0 + 6))) 0 0 None 0
      else EP.zero.
Proof.
  apply endpoint_members_by_length.
  - vm_compute. discriminate.
  - reflexivity.
Defined.

Example short_endpoint_taken :
  parse_endpoint (-11) EP.zero short_endpoint 0 5 world0
  = Some (EP.zero, 3,
          Build_world [] [] [Build_met LEndpoint 3 5 true] []).
Proof. reflexivity. Qed.
